(** * compops: dependency/vulnerability graph engine and upgrade resolver

    A shallow embedding of [backend/smart_sbom_graph.py] (class
    [SmartSBOMGraph]) and [backend/universal_upgrade.py] (class
    [UniversalUpgradeEngine]), and the properties of the two that the
    specification states.  Properties that the code has besides are
    proved after them: of the two queries and of ingestion on graphs
    of any shape, of the upgrade resolver, of the rewriting of
    [requirements.txt] in [_upgrade_pip], of the way
    [GitHubAutomation.create_upgrade_pr] ([backend/github_integration.py])
    reads the owner and the repository from a URL, and of the static
    analysis of [ReachabilityAnalyzer] ([backend/reachability_ai.py]).

    The Python code relies on two libraries, [networkx] (the graph object
    and its traversals) and [semver] (version parsing and comparison).
    Their operations are embedded here next to the code that calls them,
    each with a comment that says which library behaviour it stands for. *)

From Stdlib Require Import Ascii String QArith PrimFloat.
From stdpp Require Import gmap strings list fin_maps pretty sorting.

Open Scope string_scope.
Open Scope list_scope.
Open Scope Z_scope.

(** ** Python values and exceptions *)

(** The values the program stores in attribute dictionaries: strings and
    lists of strings ([vulns]). *)
Inductive value :=
  | VStr (s : string)
  | VList (l : list string).

Global Instance value_eq_dec : EqDecision value.
Proof. solve_decision. Defined.

(** The exceptions that the modelled calls raise.  [NetworkXError],
    [NodeNotFound] and [NetworkXNoPath] are the [networkx] classes of
    these names; in [networkx.exception] the first two are direct,
    unrelated subclasses of [NetworkXException], and [NetworkXNoPath]
    derives from [NetworkXAlgorithmError].  [NetworkXError n] is the
    error with the message "The node n is not in the graph.",
    [NodeNotFound n] the one for a source or target [n] that is not in
    the graph, [NetworkXNoPath s t] the one for no path between [s] and
    [t].  [EOFError] is what [pickle.load] raises on a file that ends
    early. *)
Inductive exn :=
  | NetworkXError (node : string)
  | NodeNotFound (node : string)
  | NetworkXNoPath (source target : string)
  | KeyError
  | EOFError.

Global Instance exn_eq_dec : EqDecision exn.
Proof. solve_decision. Defined.

(** A computation that returns a value or raises. *)
Definition result (A : Type) : Type := exn + A.

(** ** networkx.DiGraph

    A [DiGraph] keeps its nodes in the dict [_node] (node to attribute
    dict) and its edges in the nested dicts [_succ] and [_pred], which
    share one data dict per edge.  Python dicts iterate in insertion
    order, and the program never removes a node or an edge, so the order
    of [G.nodes()] is the order in which nodes were first added, and the
    orders of [G.successors(u)] and [G.predecessors(v)] are the order in
    which the edges out of [u] (into [v]) were first added.  The model
    keeps each dict as its key list in insertion order together with a
    finite map. *)
Record DiGraph := {
  node_order : list string;
  _node : gmap string (gmap string value);
  edge_order : list (string * string);
  _adj : gmap (string * string) (gmap string value);
}.

(** [nx.DiGraph()] *)
Definition empty_graph : DiGraph :=
  {| node_order := []; _node := ∅; edge_order := []; _adj := ∅ |}.

(** [G.has_node(n)], [n in G] *)
Definition has_node (G : DiGraph) (n : string) : bool :=
  bool_decide (is_Some (_node G !! n)).

(** [G.add_node(n, **attr)]: a new node is appended with [attr];
    for a node already present the attribute dict is updated
    ([dict.update]: the new values win, other keys stay). *)
Definition add_node (n : string) (attr : gmap string value) (G : DiGraph) : DiGraph :=
  match _node G !! n with
  | None =>
      {| node_order := node_order G ++ [n];
         _node := <[n := attr]> (_node G);
         edge_order := edge_order G;
         _adj := _adj G |}
  | Some old =>
      {| node_order := node_order G;
         _node := <[n := attr ∪ old]> (_node G);
         edge_order := edge_order G;
         _adj := _adj G |}
  end.

(** The first half of [add_edge]: an endpoint that is not a node yet is
    created with an empty attribute dict. *)
Definition touch_node (n : string) (G : DiGraph) : DiGraph :=
  if has_node G n then G else add_node n ∅ G.

(** The second half of [add_edge]: the data dict of the edge is the
    one it has, or a new one, updated with [attr]. *)
Definition put_edge (u v : string) (attr : gmap string value) (G : DiGraph) : DiGraph :=
  match _adj G !! (u, v) with
  | None =>
      {| node_order := node_order G;
         _node := _node G;
         edge_order := edge_order G ++ [(u, v)];
         _adj := <[(u, v) := attr]> (_adj G) |}
  | Some old =>
      {| node_order := node_order G;
         _node := _node G;
         edge_order := edge_order G;
         _adj := <[(u, v) := attr ∪ old]> (_adj G) |}
  end.

(** [G.add_edge(u, v, **attr)] *)
Definition add_edge (u v : string) (attr : gmap string value) (G : DiGraph) : DiGraph :=
  put_edge u v attr (touch_node v (touch_node u G)).

(** [G.nodes[n].get(key)] for a node [n] of the graph. *)
Definition node_get (G : DiGraph) (n key : string) : option value :=
  _node G !! n ≫= (.!! key).

(** [G.edges[u, v].get(key)] *)
Definition edge_get (G : DiGraph) (u v key : string) : option value :=
  _adj G !! (u, v) ≫= (.!! key).

(** [G.successors(u)] and [G.predecessors(v)], in iteration order. *)
Definition successors (G : DiGraph) (u : string) : list string :=
  (filter (λ e, e.1 = u) (edge_order G)).*2.

Definition predecessors (G : DiGraph) (v : string) : list string :=
  (filter (λ e, e.2 = v) (edge_order G)).*1.

(** ** SmartSBOMGraph.generate_sbom *)

Record component := {
  c_name : string;
  c_version : string;
  c_type : string;
  c_vulnerabilities : list string;
}.

(** The sample SBOM of [generate_sbom] (lines 36-47). *)
Definition components : list component :=
  [ {| c_name := "requests"; c_version := "2.28.1"; c_type := "library";
       c_vulnerabilities := ["CVE-2023-1234"] |};
    {| c_name := "flask"; c_version := "2.3.0"; c_type := "framework";
       c_vulnerabilities := [] |};
    {| c_name := "sqlalchemy"; c_version := "1.4.47"; c_type := "library";
       c_vulnerabilities := ["CVE-2023-5678"] |};
    {| c_name := "jinja2"; c_version := "3.1.2"; c_type := "template";
       c_vulnerabilities := [] |};
    {| c_name := "werkzeug"; c_version := "2.3.0"; c_type := "library";
       c_vulnerabilities := ["CVE-2023-9012"] |} ].

(** [f'project_{project_id}'] *)
Definition project_node (project_id : Z) : string :=
  "project_" +:+ pretty project_id.

(** [f"{comp['name']}_{comp['version']}"] *)
Definition component_node (comp : component) : string :=
  c_name comp +:+ "_" +:+ c_version comp.

(** [f"vuln_{vuln_id}"] *)
Definition vuln_node (vuln_id : string) : string := "vuln_" +:+ vuln_id.

Definition project_attrs (repo_url : string) : gmap string value :=
  <["type" := VStr "project"]> (<["url" := VStr repo_url]>
    (<["timestamp" := VStr "2024-01-01"]> ∅)).

Definition component_attrs (comp : component) : gmap string value :=
  <["type" := VStr "component"]> (<["name" := VStr (c_name comp)]>
    (<["version" := VStr (c_version comp)]>
      (<["vulns" := VList (c_vulnerabilities comp)]> ∅))).

Definition vuln_attrs (vuln_id : string) : gmap string value :=
  <["type" := VStr "vulnerability"]> (<["id" := VStr vuln_id]>
    (<["severity" :=
         VStr (if bool_decide (vuln_id = "CVE-2023-1234") then "HIGH" else "MEDIUM")]> ∅)).

Definition relationship (r : string) : gmap string value :=
  {["relationship" := VStr r]}.

(** Lines 68-76: the body of the loop over [comp['vulnerabilities']]. *)
Definition ingest_vuln (node_id : string) (G : DiGraph) (vuln_id : string) : DiGraph :=
  let G := if has_node G (vuln_node vuln_id) then G
           else add_node (vuln_node vuln_id) (vuln_attrs vuln_id) G in
  add_edge node_id (vuln_node vuln_id) (relationship "AFFECTED_BY") G.

(** Lines 55-76: the body of the loop over [components]. *)
Definition ingest_component (project_id : Z) (G : DiGraph) (comp : component) : DiGraph :=
  let node_id := component_node comp in
  let G := add_node node_id (component_attrs comp) G in
  let G := add_edge (project_node project_id) node_id (relationship "DEPENDS_ON") G in
  foldl (ingest_vuln node_id) G (c_vulnerabilities comp).

(** Lines 50-76 of [generate_sbom], for a given component list: the
    graph after the project node, the components and their
    vulnerabilities have been added. *)
Definition ingest (comps : list component) (project_id : Z) (repo_url : string)
    (G : DiGraph) : DiGraph :=
  let G := add_node (project_node project_id) (project_attrs repo_url) G in
  foldl (ingest_component project_id) G comps.

(** ** Breadth-first traversal

    [nx.shortest_path(G, source, target)] with no weight returns a path
    with the fewest edges from [source] to [target], raises
    [NodeNotFound] when one of the two is not in the graph and
    [NetworkXNoPath] when no path exists; [nx.has_path] is [True] when
    [shortest_path] returns and [False] when it raises [NetworkXNoPath];
    [nx.descendants(G, source)] is the set of nodes reachable from
    [source], without [source], and raises [NetworkXError] when [source]
    is not in the graph.  They are modelled by one breadth-first search
    from the source that follows [successors] in iteration order (the
    order of [nx.bfs_edges]); each frontier entry is a node with the
    path that led to it, last node first.  The lemmas of section
    "Breadth-first search is correct" show that the search meets what is
    stated here: it finds a path whenever one exists, and a shortest
    one. *)

Definition frontier : Type := list (string * list string).

(** The unseen neighbours [nbrs] of the frontier entry [p] join [seen]
    and the next level. *)
Fixpoint visit (p : string * list string) (nbrs seen : list string) (next : frontier)
    : list string * frontier :=
  match nbrs with
  | [] => (seen, next)
  | w :: nbrs =>
      if bool_decide (w ∈ seen) then visit p nbrs seen next
      else visit p nbrs (w :: seen) (next ++ [(w, p.1 :: p.2)])
  end.

Fixpoint expand (G : DiGraph) (this_level : frontier) (seen : list string)
    (next : frontier) : list string * frontier :=
  match this_level with
  | [] => (seen, next)
  | p :: rest =>
      let '(seen, next) := visit p (successors G p.1) seen next in
      expand G rest seen next
  end.

Definition reaches (target : string) (p : string * list string) : bool :=
  bool_decide (p.1 = target).

Fixpoint bfs_path (fuel : nat) (G : DiGraph) (target : string)
    (this_level : frontier) (seen : list string) : option (list string) :=
  match List.find (reaches target) this_level with
  | Some p => Some (reverse (p.1 :: p.2))
  | None =>
      match fuel, this_level with
      | O, _ | _, [] => None
      | S fuel, _ :: _ =>
          let '(seen, next) := expand G this_level seen [] in
          bfs_path fuel G target next seen
      end
  end.

(** All nodes the search discovers, latest first. *)
Fixpoint bfs_nodes (fuel : nat) (G : DiGraph) (this_level : frontier)
    (seen : list string) : list string :=
  match fuel, this_level with
  | O, _ | _, [] => seen
  | S fuel, _ :: _ =>
      let '(seen, next) := expand G this_level seen [] in
      bfs_nodes fuel G next seen
  end.

(** Every level after the first adds a node that some edge points to,
    so the number of edges bounds the number of levels. *)
Definition bfs_fuel (G : DiGraph) : nat := length (edge_order G).

Definition shortest_path (G : DiGraph) (source target : string) : result (list string) :=
  if negb (has_node G source) then inl (NodeNotFound source)
  else if negb (has_node G target) then inl (NodeNotFound target)
  else match bfs_path (bfs_fuel G) G target [(source, [])] [source] with
       | Some path => inr path
       | None => inl (NetworkXNoPath source target)
       end.

Definition has_path (G : DiGraph) (source target : string) : result bool :=
  match shortest_path G source target with
  | inr _ => inr true
  | inl (NetworkXNoPath _ _) => inr false
  | inl e => inl e
  end.

(** The descendants in the order in which the set comprehension of
    [nx.descendants] inserts them. *)
Definition descendants (G : DiGraph) (source : string) : result (list string) :=
  if has_node G source then
    inr (filter (.≠ source) (reverse (bfs_nodes (bfs_fuel G) G [(source, [])] [source])))
  else inl (NetworkXError source).

(** ** SmartSBOMGraph.query_reachable_vulnerabilities *)

(** An entry of [reachable_vulns]; the first three fields are results
    of [dict.get] and may be [None]. *)
Record reachable_vuln := {
  r_vulnerability : option value;
  r_component : option value;
  r_version : option value;
  r_path : list string;
}.

(** Lines 107-112: the dict appended for the vulnerability node [node]
    and the component node [comp]. *)
Definition reachable_entry (G : DiGraph) (node comp : string) (path : list string)
    : reachable_vuln :=
  {| r_vulnerability := node_get G node "id";
     r_component := node_get G comp "name";
     r_version := node_get G comp "version";
     r_path := path |}.

(** Lines 103-112, the loop over [affected_components].  The list
    [reachable_vulns] is extended in place, so what was appended before
    an exception stays: the loop returns the list and the exception
    that ended it, if any. *)
Fixpoint affected_loop (G : DiGraph) (project node : string) (comps : list string)
    (reachable_vulns : list reachable_vuln) : list reachable_vuln * option exn :=
  match comps with
  | [] => (reachable_vulns, None)
  | comp :: rest =>
      match has_path G project comp with
      | inl e => (reachable_vulns, Some e)
      | inr false => affected_loop G project node rest reachable_vulns
      | inr true =>
          match shortest_path G project comp with
          | inl e => (reachable_vulns, Some e)
          | inr path =>
              affected_loop G project node rest
                (reachable_vulns ++ [reachable_entry G node comp path])
          end
      end
  end.

(** Lines 96-114, the loop over [self.graph.nodes()].  [G.nodes[node]]
    raises [KeyError] for a key that is absent; the handler of the
    [try] takes [NetworkXNoPath] and [NodeNotFound] only. *)
Fixpoint nodes_loop (G : DiGraph) (project : string) (nodes : list string)
    (reachable_vulns : list reachable_vuln) : result (list reachable_vuln) :=
  match nodes with
  | [] => inr reachable_vulns
  | node :: rest =>
      match _node G !! node with
      | None => inl KeyError
      | Some attr =>
          if bool_decide (attr !! "type" = Some (VStr "vulnerability")) then
            match affected_loop G project node (predecessors G node) reachable_vulns with
            | (reachable_vulns, None)
            | (reachable_vulns, Some (NetworkXNoPath _ _))
            | (reachable_vulns, Some (NodeNotFound _)) =>
                nodes_loop G project rest reachable_vulns
            | (_, Some e) => inl e
            end
          else nodes_loop G project rest reachable_vulns
      end
  end.

Definition query_reachable_vulnerabilities (G : DiGraph) (project_id : Z)
    (vulnerable_component : string) : result (list reachable_vuln) :=
  nodes_loop G (project_node project_id) (node_order G) [].

(** ** SmartSBOMGraph.get_graph_data *)

Record d3_node := {
  n_id : string;
  n_name : string;
  n_type : value;
  n_vulns : value;
}.

Record d3_link := {
  l_source : string;
  l_target : string;
  l_relationship : value;
}.

Record graph_data := {
  nodes : list d3_node;
  links : list d3_link;
}.

(** Lines 129-135.  As in [affected_loop], the list is extended in
    place and an exception leaves what was appended. *)
Fixpoint d3_nodes_loop (G : DiGraph) (subgraph_nodes : list string)
    (nodes : list d3_node) : list d3_node * option exn :=
  match subgraph_nodes with
  | [] => (nodes, None)
  | node :: rest =>
      match _node G !! node with
      | None => (nodes, Some KeyError)
      | Some attr =>
          d3_nodes_loop G rest
            (nodes ++ [ {| n_id := node;
                           n_name := node;
                           n_type := default (VStr "unknown") (attr !! "type");
                           n_vulns := default (VList []) (attr !! "vulns") |} ])
      end
  end.

(** [G.edges(nbunch)]: for each node of [nbunch] that is in the graph,
    in the iteration order of [nbunch], its out-edges in adjacency
    order. *)
Definition edges (G : DiGraph) (nbunch : list string) : list (string * string) :=
  n ← filter (λ n, has_node G n = true) nbunch; pair n <$> successors G n.

(** Lines 137-142. *)
Fixpoint d3_links_loop (G : DiGraph) (es : list (string * string))
    (links : list d3_link) : list d3_link * option exn :=
  match es with
  | [] => (links, None)
  | (u, v) :: rest =>
      match _adj G !! (u, v) with
      | None => (links, Some KeyError)
      | Some attr =>
          d3_links_loop G rest
            (links ++ [ {| l_source := u;
                           l_target := v;
                           l_relationship :=
                             default (VStr "unknown") (attr !! "relationship") |} ])
      end
  end.

(** The handler [except (nx.NodeNotFound, KeyError): pass]. *)
Definition handled (e : exn) : bool :=
  match e with
  | NodeNotFound _ | KeyError => true
  | _ => false
  end.

(** [subgraph_nodes] is a Python [set] of strings.  The order in which
    a set iterates follows the hashes of its elements and is fixed for
    the life of a process; the language gives no other guarantee, and
    the hashes of strings change from one process to the next (hash
    randomisation), so the server after a restart, with the graph read
    back from its file, may iterate in another order.  [set_iter]
    stands for the order of one process: applied to the elements in
    the order in which they were inserted, it returns them in
    iteration order.  The set is not changed between the two loops, so
    both see one order. *)
Definition get_graph_data (set_iter : list string → list string) (G : DiGraph)
    (project_id : Z) : result graph_data :=
  let project_node := project_node project_id in
  match descendants G project_node with
  | inl e =>
      if handled e then inr {| nodes := []; links := [] |} else inl e
  | inr ds =>
      let subgraph_nodes := set_iter (ds ++ [project_node]) in
      match d3_nodes_loop G subgraph_nodes [] with
      | (nodes, Some e) =>
          if handled e then inr {| nodes := nodes; links := [] |} else inl e
      | (nodes, None) =>
          match d3_links_loop G (edges G subgraph_nodes) [] with
          | (links, Some e) =>
              if handled e then inr {| nodes := nodes; links := links |} else inl e
          | (links, None) => inr {| nodes := nodes; links := links |}
          end
      end
  end.

(** ** Persistence: _save_graph, _load_graph, generate_sbom *)

(** What a reader finds in [database/graph_store.pickle]: a complete
    pickle of a graph, or a file that holds less than that (empty, or
    the beginning of a pickle). *)
Inductive file_content :=
  | Incomplete
  | Snapshot (G : DiGraph).

(** The file system as the class sees it: the snapshot file, absent or
    with its content. *)
Definition disk : Type := option file_content.

(** [_save_graph] is [with open(self.graph_file, 'wb') as f:
    pickle.dump(self.graph, f)].  Opening a file in mode ['wb']
    creates it or truncates it to length zero; the pickle is in the
    file once it has been written and the file is closed at the end of
    the [with] block.  The two steps act on the snapshot file itself. *)
Inductive save_step :=
  | open_wb
  | dump_close.

Definition save_exec (G : DiGraph) (d : disk) (st : save_step) : disk :=
  match st with
  | open_wb => Some Incomplete
  | dump_close => Some (Snapshot G)
  end.

Definition _save_graph_steps : list save_step := [open_wb; dump_close].

(** The disk after the first [k] steps of [_save_graph]: what is left
    when the call is interrupted there. *)
Definition _save_graph_upto (k : nat) (G : DiGraph) (d : disk) : disk :=
  foldl (save_exec G) d (take k _save_graph_steps).

Definition _save_graph (G : DiGraph) (d : disk) : disk :=
  _save_graph_upto (length _save_graph_steps) G d.

(** [_load_graph]: the graph after loading, when [G] was the graph
    before. *)
Definition _load_graph (d : disk) (G : DiGraph) : result DiGraph :=
  match d with
  | None => inr G
  | Some Incomplete => inl EOFError
  | Some (Snapshot G') => inr G'
  end.

(** A row of the table [sbom_documents]. *)
Record sbom_document := {
  doc_project_id : Z;
  doc_format : string;
  doc_content : list component;
  doc_created_at : string;
}.

(** The state of a [SmartSBOMGraph] with the files it writes. *)
Record SmartSBOMGraph := {
  graph : DiGraph;
  graph_file : disk;
  sbom_documents : list sbom_document;
}.

(** [SmartSBOMGraph()] on a given file system. *)
Definition init (d : disk) (docs : list sbom_document) : result SmartSBOMGraph :=
  match _load_graph d empty_graph with
  | inl e => inl e
  | inr G => inr {| graph := G; graph_file := d; sbom_documents := docs |}
  end.

(** [generate_sbom]: the returned dict (its [status] and [components]
    entries) and the new state. *)
Definition generate_sbom (self : SmartSBOMGraph) (project_id : Z) (repo_url : string)
    : (string * nat) * SmartSBOMGraph :=
  let G := ingest components project_id repo_url (graph self) in
  (("success", length components),
   {| graph := G;
      graph_file := _save_graph G (graph_file self);
      sbom_documents :=
        sbom_documents self ++
          [ {| doc_project_id := project_id; doc_format := "cyclonedx";
               doc_content := components; doc_created_at := "2024-01-01" |} ] |}).

(** ** The semver library

    [semver.Version.parse] matches the string against the grammar of
    semver.org (its regular expression [_REGEX]) and raises [ValueError]
    "<s> is not valid SemVer string" when it does not match;
    [Version.compare] implements the precedence of semver.org section
    11 and returns -1, 0 or 1; [semver.compare(ver1, ver2)] parses both
    strings, [ver1] first, and compares.  The model parses the
    pre-release into its dot-separated identifiers, numeric or not, and
    compares those; characters are the bytes of the string (its UTF-8
    encoding), and a digit is one of 0-9.

    The repository does not pin the library, and what the library does
    depends on its release and on the interpreter for three kinds of
    strings: a string that ends with a line feed (the [$] of the
    regular expression matches before it, an anchor at the very end
    does not), a string with a character outside ASCII (the [\d] of the
    regular expression takes the decimal digits of every script), and a
    string whose numbers [int()] refuses (above a number of digits that
    is 4300 by default and that can be set down to 640, Python 3.11 and
    later; the [ValueError] then has the text of [int()]).  The numbers
    of major, minor and patch are converted when the string is parsed,
    the numeric identifiers of a pre-release when two versions are
    compared, so that a comparison of two versions that were parsed
    can raise too.  The grammar below is what every release does on
    the other strings, the [plain] ones; on the rest the library is a
    parameter of the model. *)
Module semver.

Inductive identifier :=
  | Numeric (n : N)
  | Alphanumeric (s : string).

Record Version := {
  major : N;
  minor : N;
  patch : N;
  prerelease : list identifier;
  build : option string;
}.

Definition is_digit (c : ascii) : bool :=
  let n := nat_of_ascii c in (48 <=? n)%nat && (n <=? 57)%nat.

Definition is_letter (c : ascii) : bool :=
  let n := nat_of_ascii c in
  ((65 <=? n)%nat && (n <=? 90)%nat) || ((97 <=? n)%nat && (n <=? 122)%nat).

(** [[0-9a-zA-Z-]] *)
Definition is_ident_char (c : ascii) : bool :=
  is_digit c || is_letter c || bool_decide (c = "-"%char).

(** [int(text)] for a string of digits. *)
Definition digits_to_N (l : list ascii) : N :=
  foldl (λ acc c, 10 * acc + (N.of_nat (nat_of_ascii c) - 48))%N 0%N l.

(** [0|[1-9]\d*] *)
Definition parse_numeric (l : list ascii) : option N :=
  match l with
  | [] => None
  | c :: rest =>
      if forallb is_digit l && (negb (bool_decide (c = "0"%char)) || bool_decide (rest = []))
      then Some (digits_to_N l) else None
  end.

(** [0|[1-9]\d*|\d*[a-zA-Z-][0-9a-zA-Z-]*] *)
Definition parse_identifier (l : list ascii) : option identifier :=
  match l with
  | [] => None
  | _ :: _ =>
      if forallb is_digit l then Numeric <$> parse_numeric l
      else if forallb is_ident_char l then Some (Alphanumeric (string_of_list_ascii l))
      else None
  end.

(** [[0-9a-zA-Z-]+] *)
Definition is_build_identifier (l : list ascii) : bool :=
  match l with
  | [] => false
  | _ :: _ => forallb is_ident_char l
  end.

(** [str.split(sep)] *)
Fixpoint split (sep : ascii) (l : list ascii) : list (list ascii) :=
  match l with
  | [] => [[]]
  | c :: l =>
      if bool_decide (c = sep) then [] :: split sep l
      else match split sep l with
           | [] => [[c]]
           | part :: parts => (c :: part) :: parts
           end
  end.

(** The text before the first [sep] and, when there is one, the text
    after it. *)
Fixpoint cut (sep : ascii) (l : list ascii) : list ascii * option (list ascii) :=
  match l with
  | [] => ([], None)
  | c :: l =>
      if bool_decide (c = sep) then ([], Some l)
      else let '(before, after) := cut sep l in (c :: before, after)
  end.

Definition parse_prerelease (o : option (list ascii)) : option (list identifier) :=
  match o with
  | None => Some []
  | Some l => mapM parse_identifier (split "." l)
  end.

Definition parse_build (o : option (list ascii)) : option (option string) :=
  match o with
  | None => Some None
  | Some l =>
      if forallb is_build_identifier (split "." l)
      then Some (Some (string_of_list_ascii l)) else None
  end.

(** The grammar of semver.org on the whole string; [None] when the
    string does not match. *)
Definition grammar (version : string) : option Version :=
  let l := list_ascii_of_string version in
  let '(front, b) := cut "+" l in
  let '(core, pre) := cut "-" front in
  match split "." core with
  | [ma; mi; pa] =>
      ma ← parse_numeric ma;
      mi ← parse_numeric mi;
      pa ← parse_numeric pa;
      pre ← parse_prerelease pre;
      b ← parse_build b;
      Some {| major := ma; minor := mi; patch := pa; prerelease := pre; build := b |}
  | _ => None
  end.

(** The strings on which the releases of the library agree: ASCII
    characters only, no line feed, at most 640 characters. *)
Definition plain (version : string) : bool :=
  (String.length version <=? 640)%nat &&
  forallb (λ c, (nat_of_ascii c <? 128)%nat && negb (bool_decide (c = "010"%char)))
    (list_ascii_of_string version).

(** The installed library on the strings that are not plain: what
    [Version.parse] returns, [None] when it raises, and the text of
    the exception it raises then; for two strings that it parses, the
    text of the exception that the comparison of their versions
    raises, [None] when it returns; and whether [sorted(l,
    key=Version.parse)] raises for a list of strings that it parses. *)
Record library := {
  parse_other : string → option Version;
  error_other : string → string;
  compare_other : string → string → option string;
  sorted_other : list string → bool;
}.

Definition ValueError (version : string) : string :=
  version +:+ " is not valid SemVer string".

(** [Version.parse]; [None] stands for the exception. *)
Definition parse (L : library) (version : string) : option Version :=
  if plain version then grammar version else parse_other L version.

(** [str(e)] for the exception [e] that [Version.parse] raises. *)
Definition error (L : library) (version : string) : string :=
  if plain version then ValueError version else error_other L version.

(** A library that takes the plain strings only. *)
Definition strict : library :=
  {| parse_other := λ _, None; error_other := ValueError;
     compare_other := λ _ _, None; sorted_other := λ _, false |}.

(** The first comparison decides unless it finds equality. *)
Definition lex (c d : comparison) : comparison :=
  match c with Eq => d | _ => c end.

(** Numeric identifiers compare as numbers and are lower than the
    others, which compare as strings. *)
Definition cmp_identifier (a b : identifier) : comparison :=
  match a, b with
  | Numeric x, Numeric y => N.compare x y
  | Numeric _, Alphanumeric _ => Lt
  | Alphanumeric _, Numeric _ => Gt
  | Alphanumeric x, Alphanumeric y => String.compare x y
  end.

(** Identifier by identifier; when one list is the beginning of the
    other, the longer one is higher. *)
Fixpoint cmp_identifiers (a b : list identifier) : comparison :=
  match a, b with
  | [], [] => Eq
  | [], _ :: _ => Lt
  | _ :: _, [] => Gt
  | x :: a, y :: b => lex (cmp_identifier x y) (cmp_identifiers a b)
  end.

(** A version without pre-release is higher than one with. *)
Definition cmp_prerelease (a b : list identifier) : comparison :=
  match a, b with
  | [], [] => Eq
  | [], _ :: _ => Gt
  | _ :: _, [] => Lt
  | _, _ => cmp_identifiers a b
  end.

(** The tuples (major, minor, patch) first, then the pre-releases. *)
Definition cmp_version (v1 v2 : Version) : comparison :=
  lex (N.compare (major v1) (major v2))
    (lex (N.compare (minor v1) (minor v2))
       (lex (N.compare (patch v1) (patch v2))
          (cmp_prerelease (prerelease v1) (prerelease v2)))).

Definition to_int (c : comparison) : Z :=
  match c with Lt => -1 | Eq => 0 | Gt => 1 end.

(** [Version.compare] when it returns.  The library converts the
    numeric identifiers of the two pre-releases here, with [int()],
    the model where it parses: the same for the numbers that [int()]
    converts, those of plain strings under every setting. *)
Definition Version_compare (v1 v2 : Version) : Z := to_int (cmp_version v1 v2).

(** The exception of [Version.compare] on the versions of two
    strings, its text: none when both strings are plain. *)
Definition compare_raises (L : library) (ver1 ver2 : string) : option string :=
  if plain ver1 && plain ver2 then None else compare_other L ver1 ver2.

(** [semver.compare(ver1, ver2)]: the integer, or the text of the
    exception raised. *)
Definition compare (L : library) (ver1 ver2 : string) : string + Z :=
  match parse L ver1 with
  | None => inl (error L ver1)
  | Some v1 =>
      match parse L ver2 with
      | None => inl (error L ver2)
      | Some v2 =>
          match compare_raises L ver1 ver2 with
          | Some e => inl e
          | None => inr (Version_compare v1 v2)
          end
      end
  end.

(** [Version.__lt__] when it returns. *)
Definition lt (v1 v2 : Version) : bool := bool_decide (Version_compare v1 v2 < 0).

(** A comparison raises inside [sorted(l, key=Version.parse)]: not
    when the strings are plain.  Which versions [sorted] compares is a
    matter of its algorithm, so for the other lists the answer is the
    library's; when no comparison raises, those made are the
    precedence and the result is the sorted list. *)
Definition sorted_raises (L : library) (l : list string) : bool :=
  negb (forallb plain l) && sorted_other L l.

End semver.

(** ** sorted(..., key=...)

    Python's sort is stable and compares keys with [<] only.  For keys
    that [<] orders totally there is one such result; insertion from
    the right computes it. *)
Section sorted.
Context {K A : Type} (lt : K → K → bool).

Fixpoint insert_by (x : K * A) (l : list (K * A)) : list (K * A) :=
  match l with
  | [] => [x]
  | y :: l' => if lt y.1 x.1 then y :: insert_by x l' else x :: l
  end.

Definition sort_by (l : list (K * A)) : list (K * A) := foldr insert_by [] l.

(** [sorted(l, key=key)] for a [key] that may raise. *)
Definition sorted (key : A → option K) (l : list A) : option (list A) :=
  keys ← mapM key l;
  Some (sort_by (zip keys l)).*2.
End sorted.

(** ** UniversalUpgradeEngine *)

(** A row of the table [vulnerabilities] as [check_upgrade_feasibility]
    selects it: [component_name], [version], [fixed_version] (which may
    be NULL). *)
Record vulnerability_record := {
  component_name : string;
  current_version : string;
  fixed_version : option string;
}.

(** The dict that [check_upgrade_feasibility] returns: with
    ['feasible': True] it has the four other entries, with
    ['feasible': False] a reason. *)
Inductive feasibility :=
  | Feasible (component from_version to_version : string) (confidence : Q)
  | Infeasible (reason : string).


(** What [requests.get] gives for a registry URL: an exception, or a
    response with its status code and the keys of the ['releases']
    (PyPI) or ['versions'] (npm) object of its JSON body, [None] when
    reading them raises. *)
Inductive response :=
  | RequestException
  | Response (status_code : Z) (versions : option (list string)).

(** The two registries, by component name. *)
Record registries := {
  pypi : string → response;
  npm : string → response;
}.

(** [if s:] for an optional string. *)
Definition truthy (s : option string) : bool :=
  match s with
  | Some s => negb (bool_decide (s = ""))
  | None => false
  end.

(** [[v for v in versions if semver.compare(v, current_version) > 0]];
    [None] when a comparison raises. *)
Fixpoint newer_versions (L : semver.library) (versions : list string)
    (current_version : string) : option (list string) :=
  match versions with
  | [] => Some []
  | v :: versions =>
      match semver.compare L v current_version with
      | inl _ => None
      | inr c =>
          rest ← newer_versions L versions current_version;
          Some (if bool_decide (0 < c) then v :: rest else rest)
      end
  end.

(** One [try] block of [_find_latest_safe_version]: the value it
    returns, or [None] when control reaches the end of the block or
    its [except: pass]. *)
Definition latest_in (L : semver.library) (r : response) (current_version : string)
    : option string :=
  match r with
  | RequestException => None
  | Response status_code versions =>
      if bool_decide (status_code = 200) then
        match versions with
        | None => None
        | Some versions =>
            match newer_versions L versions current_version with
            | Some (v :: vs) =>
                if semver.sorted_raises L (v :: vs) then None
                else sorted semver.lt (semver.parse L) (v :: vs) ≫= last
            | _ => None
            end
        end
      else None
  end.

Definition _find_latest_safe_version (L : semver.library) (env : registries)
    (component current_version : string) : option string :=
  match latest_in L (pypi env component) current_version with
  | Some v => Some v
  | None => latest_in L (npm env component) current_version
  end.

(** Lines 33-64 of [check_upgrade_feasibility], for the selected row. *)
Definition check_record (L : semver.library) (env : registries) (r : vulnerability_record)
    : feasibility :=
  if truthy (fixed_version r) then
    match semver.compare L (default "" (fixed_version r)) (current_version r) with
    | inl e => Infeasible e
    | inr c =>
        if bool_decide (0 < c) then
          Feasible (component_name r) (current_version r)
            (default "" (fixed_version r)) 0.9
        else Infeasible "Fixed version is not newer"
    end
  else
    let latest_safe :=
      _find_latest_safe_version L env (component_name r) (current_version r) in
    if truthy latest_safe then
      Feasible (component_name r) (current_version r) (default "" latest_safe) 0.7
    else Infeasible "No safe upgrade path found".

(** [check_upgrade_feasibility(vuln_id)] on a given table
    [vulnerabilities], with the installed library [L]. *)
Definition check_upgrade_feasibility (L : semver.library) (env : registries)
    (vulnerabilities : gmap Z vulnerability_record) (vuln_id : Z) : feasibility :=
  match vulnerabilities !! vuln_id with
  | None => Infeasible "Vulnerability not found"
  | Some row => check_record L env row
  end.


(** ** Notions the properties are stated with *)

(** A comparison function that orders its carrier: a total preorder
    given as a three-way comparison. *)
Class Precedence {A : Type} (cmp : A → A → comparison) : Prop := {
  cmp_antisym a b : cmp a b = CompOpp (cmp b a);
  cmp_eq_l a b c : cmp a b = Eq → cmp a c = cmp b c;
  cmp_lt_trans a b c : cmp a b = Lt → cmp b c = Lt → cmp a c = Lt;
}.

(** Version string [a] is strictly higher than [b] in semantic-version
    precedence (the library parses both). *)
Definition newer (L : semver.library) (a b : string) : Prop :=
  ∃ va vb, semver.parse L a = Some va ∧ semver.parse L b = Some vb ∧
           semver.cmp_version va vb = Gt.





(** Node ids in the order of Python's [str] comparison (by character
    code). *)
Definition string_le (a b : string) : Prop := String.leb a b = true.

(** The output of [get_graph_data] sorted by node id: the nodes by
    their id, the links by source id and, for one source, by target
    id. *)
Definition nodes_sorted (d : graph_data) : Prop :=
  Sorted string_le (n_id <$> nodes d).

Definition link_le (a b : string * string) : Prop :=
  if decide (a.1 = b.1) then string_le a.2 b.2 else string_le a.1 b.1.

Definition link_ends (l : d3_link) : string * string := (l_source l, l_target l).

Definition links_sorted (d : graph_data) : Prop :=
  Sorted link_le (link_ends <$> links d).

(** The entry of [get_graph_data] for a node and for an edge of the
    graph. *)
Definition d3_node_of (G : DiGraph) (n : string) : d3_node :=
  {| n_id := n;
     n_name := n;
     n_type := default (VStr "unknown") (node_get G n "type");
     n_vulns := default (VList []) (node_get G n "vulns") |}.

Definition d3_link_of (G : DiGraph) (e : string * string) : d3_link :=
  {| l_source := e.1;
     l_target := e.2;
     l_relationship := default (VStr "unknown") (edge_get G e.1 e.2 "relationship") |}.

(** An insertion-ordered dict of attribute dicts, as its key list and
    its map, and [d.setdefault(n, {}).update(attr)] on it: the common
    form of [add_node] and of the second half of [add_edge]. *)
Section ordered_dict.
Context `{Countable K}.

Definition odict : Type := list K * gmap K (gmap string value).

Definition upsert (n : K) (attr : gmap string value) (d : odict) : odict :=
  match d.2 !! n with
  | None => (d.1 ++ [n], <[n := attr]> d.2)
  | Some old => (d.1, <[n := attr ∪ old]> d.2)
  end.

Definition oget (d : odict) (n : K) (key : string) : option value :=
  d.2 !! n ≫= (.!! key).

(** [hi] is a state of a second run of some updates, started from the
    result [h] of their first run, when the first run was in state [g]
    at the same point: no key was added, every entry of [hi] is the one
    of [g] or still the one of [h], and no entry of [h] was lost. *)
Definition replays (g hi h : odict) : Prop :=
  hi.1 = h.1 ∧
  dom hi.2 = dom h.2 ∧
  (∀ n key, oget hi n key = oget g n key ∨ oget hi n key = oget h n key) ∧
  (∀ n key, is_Some (oget h n key) → is_Some (oget hi n key)).
End ordered_dict.

Definition node_dict (G : DiGraph) : odict := (node_order G, _node G).
Definition edge_dict (G : DiGraph) : odict := (edge_order G, _adj G).

Definition graph_replays (g hi h : DiGraph) : Prop :=
  replays (node_dict g) (node_dict hi) (node_dict h) ∧
  replays (edge_dict g) (edge_dict hi) (edge_dict h).

(** Every node and edge of [g] is one of [g']. *)
Definition extends (g g' : DiGraph) : Prop :=
  dom (_node g) ⊆ dom (_node g') ∧ dom (_adj g) ⊆ dom (_adj g').

(** The nodes and edges that ingesting a vulnerability of a component
    node, and a component of a project, adds or updates are in [h]. *)
Definition covers_vuln (h : DiGraph) (node_id vuln_id : string) : Prop :=
  vuln_node vuln_id ∈ dom (_node h) ∧ node_id ∈ dom (_node h) ∧
  (node_id, vuln_node vuln_id) ∈ dom (_adj h).

Definition covers_component (h : DiGraph) (project_id : Z) (comp : component) : Prop :=
  component_node comp ∈ dom (_node h) ∧ project_node project_id ∈ dom (_node h) ∧
  (project_node project_id, component_node comp) ∈ dom (_adj h) ∧
  ∀ vuln_id, vuln_id ∈ c_vulnerabilities comp →
    covers_vuln h (component_node comp) vuln_id.

(** [path G s t p]: the node list [p] is a path of [G] from [s] to
    [t], built edge by edge at its end.  It starts with [s], ends with
    [t], and each node is followed by one of its successors
    ([path_spec]); a path with [k] edges has [k + 1] nodes. *)
Inductive path (G : DiGraph) (s : string) : string → list string → Prop :=
  | path_start : path G s s [s]
  | path_snoc t u p :
      path G s t p → (t, u) ∈ edge_order G → path G s u (p ++ [u]).

(** What holds of the frontier and the seen nodes when the search from
    [s] enters level [k]: the frontier entries are paths with [k] edges
    to their nodes; every node within [k] edges of [s] has been seen,
    and every seen node is reached by a path; a seen node is in the
    frontier or has all its successors seen; the seen nodes are
    distinct, each is [s] or the target of an edge, and they are more
    than [k] when the frontier is not empty. *)
Record bfs_inv (G : DiGraph) (s : string) (k : nat) (this_level : frontier)
    (seen : list string) : Prop := {
  inv_paths v trail :
    (v, trail) ∈ this_level → path G s v (reverse (v :: trail)) ∧ length trail = k;
  inv_near x p : path G s x p → (length p ≤ S k)%nat → x ∈ seen;
  inv_reach x : x ∈ seen → ∃ p, path G s x p;
  inv_closed y : y ∈ seen → y ∈ this_level.*1 ∨ ∀ x, (y, x) ∈ edge_order G → x ∈ seen;
  inv_nodup : NoDup seen;
  inv_edges x : x ∈ seen → x = s ∨ x ∈ (edge_order G).*2;
  inv_count : this_level ≠ [] → (k < length seen)%nat;
}.

(** What holds besides when the search is for [t]: the target is more
    than [k - 1] edges away, and if it has been seen it is in the
    frontier. *)
Record bfs_goal (G : DiGraph) (s t : string) (k : nat) (this_level : frontier)
    (seen : list string) : Prop := {
  inv_far p : path G s t p → (k < length p)%nat;
  inv_target : t ∈ seen → t ∈ this_level.*1;
}.

(** ** The data model of the graph

    The spec's graph has three kinds of node and two kinds of edge,
    DEPENDS_ON from a project to a component and AFFECTED_BY from a
    component to a vulnerability, and node identity is by content: the
    id of a node tells its kind.  [typed G] says that [G] is such a
    graph; the empty graph is, and [generate_sbom] keeps a graph so
    ([ingest_typed]). *)

(** The dicts of the graph are consistent: the key lists have no
    repetition and list the keys of the maps, and the ends of every
    edge are nodes. *)
Definition well_formed (G : DiGraph) : bool :=
  bool_decide (NoDup (node_order G)) &&
  bool_decide (list_to_set (node_order G) = dom (_node G)) &&
  bool_decide (NoDup (edge_order G)) &&
  bool_decide (list_to_set (edge_order G) = dom (_adj G)) &&
  forallb (λ e, has_node G e.1 && has_node G e.2) (edge_order G).

(** The kind of node that an id stands for. *)
Definition kind_of_id (n : string) : string :=
  if String.prefix "project_" n then "project"
  else if String.prefix "vuln_" n then "vulnerability"
  else "component".

(** A node has the type of its id; a vulnerability node has the id
    attribute that its node id is made from. *)
Definition node_ok (G : DiGraph) (n : string) : bool :=
  bool_decide (node_get G n "type" = Some (VStr (kind_of_id n))) &&
  (if bool_decide (kind_of_id n = "vulnerability") then
     match node_get G n "id" with
     | Some (VStr vuln_id) => bool_decide (n = vuln_node vuln_id)
     | _ => false
     end
   else true).

Definition edge_ok (G : DiGraph) (e : string * string) : bool :=
  (bool_decide (kind_of_id e.1 = "project") &&
   bool_decide (kind_of_id e.2 = "component") &&
   bool_decide (edge_get G e.1 e.2 "relationship" = Some (VStr "DEPENDS_ON"))) ||
  (bool_decide (kind_of_id e.1 = "component") &&
   bool_decide (kind_of_id e.2 = "vulnerability") &&
   bool_decide (edge_get G e.1 e.2 "relationship" = Some (VStr "AFFECTED_BY"))).

Definition typed (G : DiGraph) : bool :=
  well_formed G && forallb (node_ok G) (node_order G) && forallb (edge_ok G) (edge_order G).

(** An edge from [u] to [v] with relationship [r] is in the graph. *)
Definition has_edge (G : DiGraph) (r u v : string) : Prop :=
  (u, v) ∈ edge_order G ∧ edge_get G u v "relationship" = Some (VStr r).

Definition is_component (G : DiGraph) (c : string) : Prop :=
  node_get G c "type" = Some (VStr "component").

Definition is_vulnerability (G : DiGraph) (node : string) : Prop :=
  node_get G node "type" = Some (VStr "vulnerability").

(** The vulnerability with id [vuln_id] appears in a result of
    [query_reachable_vulnerabilities]. *)
Definition appears (vuln_id : string) (l : list reachable_vuln) : Prop :=
  ∃ e, e ∈ l ∧ r_vulnerability e = Some (VStr vuln_id).

(** Attributes that suit the node id they are stored under. *)
Definition suits (n : string) (attr : gmap string value) : Prop :=
  attr !! "type" = Some (VStr (kind_of_id n)) ∧
  (kind_of_id n = "vulnerability" →
   ∃ vuln_id, attr !! "id" = Some (VStr vuln_id) ∧ n = vuln_node vuln_id).

(** The kinds of the ends of an edge with relationship [r]. *)
Definition edge_kinds (r u v : string) : Prop :=
  (kind_of_id u = "project" ∧ kind_of_id v = "component" ∧ r = "DEPENDS_ON") ∨
  (kind_of_id u = "component" ∧ kind_of_id v = "vulnerability" ∧ r = "AFFECTED_BY").

(** ** Notions for the properties of ingestion *)

(** Every node and edge of [G] is in [G'] at the position it has in
    [G]: what [G'] has more comes after. *)
Definition grows (G G' : DiGraph) : Prop :=
  node_order G `prefix_of` node_order G' ∧ edge_order G `prefix_of` edge_order G'.

(** The node ids and the edges that ingesting [comps] for the project
    writes. *)
Definition ingested_nodes (comps : list component) (project_id : Z) : gset string :=
  {[project_node project_id]} ∪
  list_to_set (component_node <$> comps) ∪
  list_to_set (comp ← comps; vuln_node <$> c_vulnerabilities comp).

Definition ingested_edges (comps : list component) (project_id : Z)
    : gset (string * string) :=
  list_to_set ((λ comp, (project_node project_id, component_node comp)) <$> comps) ∪
  list_to_set (comp ← comps;
               (λ vuln_id, (component_node comp, vuln_node vuln_id)) <$> c_vulnerabilities comp).

(** ** UniversalUpgradeEngine._upgrade_pip: the requirements file

    Lines 100-108 of [_upgrade_pip] read [requirements.txt] with
    [f.readlines()] and write it again line by line, with every line
    that starts with the name of the component replaced.  The file is
    opened in text mode with the default [newline=None]: on reading,
    the line ends "\r\n" and "\r" are translated to "\n"; on writing
    "\n" is written as [os.linesep], which is "\n" on a POSIX system,
    the case taken here.  The strings are the bytes of the file and of
    the two arguments in the encoding of the locale, which the file is
    read and written in: UTF-8 or another encoding that extends ASCII
    in which the bytes of "\r" and "\n" stand for nothing else; the
    two arguments are strings that this encoding can write, as UTF-8
    can every string.  A content that is not valid in this encoding
    makes [f.readlines()] raise [UnicodeDecodeError]; the file is not
    yet open for writing then, [_upgrade_pip] returns [False] from its
    [except] and the content stays. *)

Definition LF : ascii := "010"%char.
Definition CR : ascii := "013"%char.

(** The text that reading gives for the content [s]; [pendingcr] says
    that the character before was a "\r", so that a "\n" now belongs
    to a line end that has been translated already. *)
Fixpoint translate_newlines (pendingcr : bool) (s : string) : string :=
  match s with
  | EmptyString => EmptyString
  | String c s' =>
      if bool_decide (c = CR) then String LF (translate_newlines true s')
      else if bool_decide (c = LF) && pendingcr then translate_newlines false s'
      else String c (translate_newlines false s')
  end.

(** [f.readlines()] on the translated text: the lines with their
    line ends; the last line has none when the text does not end with
    one. *)
Fixpoint readlines (s : string) : list string :=
  match s with
  | EmptyString => []
  | String c s' =>
      if bool_decide (c = LF) then String c EmptyString :: readlines s'
      else match readlines s' with
           | [] => [String c EmptyString]
           | line :: lines => String c line :: lines
           end
  end.

(** What the calls of [f.write] leave in the file. *)
Definition written (pieces : list string) : string := foldr String.append EmptyString pieces.

(** [f'{component}=={target_version}\n'] *)
Definition requirement (component target_version : string) : string :=
  component +:+ "==" +:+ target_version +:+ String LF EmptyString.

(** The body of the loop over [lines]: what is written for [line]. *)
Definition upgrade_line (component target_version line : string) : string :=
  if String.prefix component line then requirement component target_version else line.

(** The encoding US-ASCII, in which the bytes below 128 are valid. *)
Definition us_ascii (content : string) : bool :=
  forallb (λ c, (nat_of_ascii c <? 128)%nat) (list_ascii_of_string content).

(** The content of [requirements.txt] after lines 100-108, when it
    was [content] before; [decodes] tells the contents that are valid
    in the encoding of the locale. *)
Definition _upgrade_pip_requirements (decodes : string → bool)
    (component target_version content : string) : string :=
  if decodes content then
    let lines := readlines (translate_newlines false content) in
    written (upgrade_line component target_version <$> lines)
  else content.

(** The character [c] occurs in [s]. *)
Fixpoint occurs (c : ascii) (s : string) : bool :=
  match s with
  | EmptyString => false
  | String c' s' => bool_decide (c' = c) || occurs c s'
  end.

(** A string without line ends: what a package name or a version is. *)
Definition one_line (s : string) : Prop := occurs CR s = false ∧ occurs LF s = false.

(** A line as [readlines] returns it: some text without "\n", then
    "\n" or, for the last line only, the end of the text. *)
Definition ended (line : string) : Prop :=
  ∃ body, line = body +:+ String LF EmptyString ∧ occurs LF body = false.

Definition open_ended (line : string) : Prop :=
  line ≠ EmptyString ∧ occurs LF line = false.

Fixpoint lines_ok (lines : list string) : Prop :=
  match lines with
  | [] => True
  | [line] => ended line ∨ open_ended line
  | line :: lines' => ended line ∧ lines_ok lines'
  end.


(** ** GitHubAutomation.create_upgrade_pr: the owner and the repository

    Lines 38-39 of [github_integration.py] take the owner and the name
    of the repository from the URL of the project:
    [parts = repo_url.rstrip('.git').split('/')] and
    [owner, repo = parts[-2], parts[-1]].  They come before the [try]
    of the function, so an [IndexError] raised there reaches the
    caller. *)

(** [s.rstrip(chars)]: [s] without the characters at its end that are
    in [chars]. *)
Fixpoint rstrip (chars s : list ascii) : list ascii :=
  match s with
  | [] => []
  | c :: s' =>
      match rstrip chars s' with
      | [] => if bool_decide (c ∈ chars) then [] else [c]
      | rest => c :: rest
      end
  end.

(** The pair [(owner, repo)], or [None] for the [IndexError] of
    [parts[-2]] when there is one part only. *)
Definition owner_repo (repo_url : string) : option (string * string) :=
  let parts :=
    semver.split "/" (rstrip (list_ascii_of_string ".git") (list_ascii_of_string repo_url)) in
  match reverse parts with
  | repo :: owner :: _ => Some (string_of_list_ascii owner, string_of_list_ascii repo)
  | _ => None
  end.

(** ** ReachabilityAnalyzer._analyze_static

    The fallback analysis of [backend/reachability_ai.py] (lines
    84-118) is a function of the component name and the code context.
    Its confidence is a Python [float], an IEEE 754 binary64 number,
    as the kernel's primitive floats are. *)

(** [pattern in code_context] *)
Fixpoint contains (code_context pattern : string) : bool :=
  String.prefix pattern code_context ||
  match code_context with
  | EmptyString => false
  | String _ rest => contains rest pattern
  end.

(** Lines 92-97.  The third and the fourth pattern are written as
    regular expressions, but the loop tests them with [in], as
    substrings; in the third, [\(] and [\)] are no escape sequences of
    Python, so the backslashes are part of the string. *)
Definition import_patterns (component : string) : list string :=
  [ "import " +:+ component;
    "from " +:+ component +:+ " import";
    "require\('" +:+ component +:+ "'\)";
    "<dependency>.*" +:+ component +:+ ".*</dependency>" ].

Definition dangerous_functions : list string :=
  ["eval"; "exec"; "os.system"; "subprocess.call"; "pickle.loads"; "yaml.load"].

(** [min(x, y)] for two floats: [y] when it is less than [x], else
    [x]. *)
Definition min_float (x y : float) : float := if PrimFloat.ltb y x then y else x.

(** The dict that [_analyze_static] returns. *)
Record static_analysis := {
  is_reachable : bool;
  confidence : float;
  explanation : string;
  method : string;
}.

(** One turn of the loop over [dangerous_functions] (lines 109-111). *)
Definition dangerous_call (code_context : string) (confidence : float) (func : string)
    : float :=
  if contains code_context func then min_float (PrimFloat.add confidence 0.2%float) 0.9%float
  else confidence.

Definition _analyze_static (component vuln_id code_context : string) : static_analysis :=
  let reachable := existsb (contains code_context) (import_patterns component) in
  let confidence := if reachable then 0.6%float else 0.3%float in
  let confidence := foldl (dangerous_call code_context) confidence dangerous_functions in
  {| is_reachable := reachable;
     confidence := confidence;
     explanation := "Based on static analysis of imports and dangerous calls";
     method := "static_heuristics" |}.

(** * Properties *)

(** ** The upgrade resolver with a fixed version *)


Lemma error_plain L s : semver.plain s = true → semver.error L s = semver.ValueError s.
Proof. intros H. unfold semver.error. by rewrite H. Qed.



Lemma to_int_pos c : 0 < semver.to_int c ↔ c = Gt.
Proof. destruct c; simpl; split; (done || lia). Qed.





(** ** The upgrade resolver on a current version that does not parse *)

Lemma compare_unparsable_current L s cur :
  semver.parse L cur = None →
  semver.compare L s cur =
    inl (semver.error L (if semver.parse L s is Some _ then cur else s)).
Proof. intros Hc. unfold semver.compare. rewrite Hc. by destruct (semver.parse L s). Qed.

Lemma newer_versions_unparsable_current L versions cur :
  semver.parse L cur = None →
  newer_versions L versions cur = if versions is [] then Some [] else None.
Proof.
  intros Hc. destruct versions as [|v vs]; [done|]. simpl.
  by rewrite (compare_unparsable_current _ _ _ Hc).
Qed.

Lemma latest_in_unparsable_current L resp cur :
  semver.parse L cur = None → latest_in L resp cur = None.
Proof.
  intros Hc. destruct resp as [|status [vs|]]; simpl; [done| |by case_bool_decide].
  rewrite (newer_versions_unparsable_current _ _ _ Hc).
  case_bool_decide; [|done]. by destruct vs.
Qed.

(** C6, as the code has it: when the library does not parse the
    current version, the check returns (it does not raise) an
    infeasible result.  With a fixed version the reason is the text of
    the exception that the comparison raises: the one for the fixed
    version when the library does not parse that either, the one for
    the current version otherwise; for a plain string [s] (ASCII, no
    line feed, at most 640 characters) this text is "<s> is not valid
    SemVer string", for another string it is the library's or that of
    [int()].  Without a fixed version the reason is "No safe upgrade
    path found". *)
Theorem check_upgrade_feasibility_unparsable_current L env vulnerabilities vuln_id r :
  vulnerabilities !! vuln_id = Some r →
  semver.parse L (current_version r) = None →
  check_upgrade_feasibility L env vulnerabilities vuln_id =
    Infeasible
      (match fixed_version r with
       | Some fv =>
           if bool_decide (fv = "") then "No safe upgrade path found"
           else if semver.parse L fv is Some _ then semver.error L (current_version r)
           else semver.error L fv
       | None => "No safe upgrade path found"
       end) ∧
  ∀ s, semver.plain s = true → semver.error L s = s +:+ " is not valid SemVer string".
Proof.
  intros Hrow Hc. split; [|intros s Hs; by rewrite (error_plain _ _ Hs)].
  unfold check_upgrade_feasibility, check_record. rewrite Hrow.
  assert (_find_latest_safe_version L env (component_name r) (current_version r) = None)
    as Hnone.
  { unfold _find_latest_safe_version. by rewrite !(latest_in_unparsable_current _ _ _ Hc). }
  destruct (fixed_version r) as [fv|]; simpl.
  - case_bool_decide; simpl.
    + by rewrite Hnone.
    + rewrite (compare_unparsable_current _ _ _ Hc). by destruct (semver.parse L fv).
  - by rewrite Hnone.
Qed.

Lemma check_upgrade_feasibility_unparsable_current_witness :
  let r := {| component_name := "requests"; current_version := "1.x";
              fixed_version := Some "2.0.0" |} in
  let env := {| pypi := λ _, RequestException; npm := λ _, RequestException |} in
  check_upgrade_feasibility semver.strict env {[ 7 := r ]} 7 =
    Infeasible "1.x is not valid SemVer string".
Proof.
  intros r env.
  destruct (check_upgrade_feasibility_unparsable_current semver.strict env {[ 7 := r ]} 7 r)
    as [-> _]; reflexivity.
Defined.

(** C6 as stated fails on the reason: for current version "1.x" and
    fixed version "2.0.0", two plain strings, the reason is the
    parser's message, not "unparsable current version"; with no fixed
    version it is "No safe upgrade path found". *)
Lemma check_upgrade_feasibility_unparsable_reason :
  let r := {| component_name := "requests"; current_version := "1.x";
              fixed_version := Some "2.0.0" |} in
  let r' := {| component_name := "requests"; current_version := "1.x";
               fixed_version := None |} in
  let env := {| pypi := λ _, Response 200 (Some ["2.0.0"]); npm := λ _, RequestException |} in
  semver.plain "1.x" = true ∧ semver.grammar "1.x" = None ∧
  check_upgrade_feasibility semver.strict env {[ 7 := r ]} 7 =
    Infeasible "1.x is not valid SemVer string" ∧
  check_upgrade_feasibility semver.strict env {[ 7 := r ]} 7 ≠
    Infeasible "unparsable current version" ∧
  check_upgrade_feasibility semver.strict env {[ 7 := r' ]} 7 =
    Infeasible "No safe upgrade path found" ∧
  check_upgrade_feasibility semver.strict env {[ 7 := r' ]} 7 ≠
    Infeasible "unparsable current version".
Proof. split_and!; (reflexivity || discriminate). Qed.

(** ** Persistence *)

Lemma _save_graph_complete G d : _save_graph G d = Some (Snapshot G).
Proof. reflexivity. Qed.

Lemma _save_graph_upto_cases k G d :
  _save_graph_upto k G d ∈ [d; Some Incomplete; Some (Snapshot G)].
Proof.
  unfold _save_graph_upto.
  destruct k as [|[|k]]; simpl.
  - apply list_elem_of_here.
  - apply list_elem_of_further, list_elem_of_here.
  - rewrite take_nil. simpl. do 2 apply list_elem_of_further. apply list_elem_of_here.
Qed.

(** C5, as the code has it: [_save_graph] writes into the snapshot file
    itself.  A completed call leaves the complete new snapshot, which
    [_load_graph] reads back; a call interrupted after [k] steps leaves
    the file as it was (nothing done yet), incomplete (opened for
    writing, which empties it), or complete.  There is no temporary
    file and no atomic replace. *)
Theorem _save_graph_in_place G G0 d :
  _save_graph G d = Some (Snapshot G) ∧
  _load_graph (_save_graph G d) G0 = inr G ∧
  (∀ k, _save_graph_upto k G d ∈ [d; Some Incomplete; Some (Snapshot G)]) ∧
  _save_graph_upto 1 G d = Some Incomplete.
Proof.
  split_and!; [reflexivity | reflexivity | | reflexivity].
  intros k. apply _save_graph_upto_cases.
Qed.

(** C5 as stated fails: saving the graph of two ingested projects over
    the snapshot of the graph of one, interrupted after the file has
    been opened, leaves a file that is neither the previous snapshot
    nor the new one, and that [_load_graph] cannot read. *)
Lemma _save_graph_interrupted :
  let old := ingest components 1 "https://example.org/a.git" empty_graph in
  let new := ingest components 2 "https://example.org/b.git" old in
  let d := _save_graph_upto 1 new (Some (Snapshot old)) in
  d ≠ Some (Snapshot old) ∧ d ≠ Some (Snapshot new) ∧
  _load_graph d empty_graph = inl EOFError.
Proof. split_and!; [discriminate | discriminate | reflexivity]. Qed.

(** ** Queries: the unused argument and the unknown project *)

(** C10: the result of [query_reachable_vulnerabilities] does not
    depend on the argument [vulnerable_component]. *)
Theorem query_reachable_vulnerabilities_ignores_component G project_id
    (vulnerable_component vulnerable_component' : string) :
  query_reachable_vulnerabilities G project_id vulnerable_component =
  query_reachable_vulnerabilities G project_id vulnerable_component'.
Proof. unfold query_reachable_vulnerabilities. reflexivity. Qed.

Lemma descendants_not_found G source :
  has_node G source = false → descendants G source = inl (NetworkXError source).
Proof. intros H. unfold descendants. by rewrite H. Qed.

(** C8: for a project id whose project node is not in the graph,
    [get_graph_data] returns nothing: it raises the error that
    [nx.descendants] raises for a node that is not in the graph, which
    the handler of the [try] (for [NodeNotFound] and [KeyError]) does
    not take. *)
Theorem get_graph_data_unknown_project set_iter G project_id :
  has_node G (project_node project_id) = false →
  get_graph_data set_iter G project_id = inl (NetworkXError (project_node project_id)).
Proof.
  intros H. unfold get_graph_data. by rewrite (descendants_not_found _ _ H).
Qed.

Lemma get_graph_data_unknown_project_witness :
  let G := ingest components 1 "https://example.org/a.git" empty_graph in
  has_node G (project_node 2) = false ∧
  get_graph_data id G 2 = inl (NetworkXError "project_2").
Proof.
  intros G. split; [reflexivity|].
  apply (get_graph_data_unknown_project id G 2). reflexivity.
Defined.

(** ** Semantic-version precedence is a total preorder *)

Section precedence.
Context {A : Type} (cmp : A → A → comparison) `{!Precedence cmp}.

Lemma cmp_refl a : cmp a a = Eq.
Proof. pose proof (cmp_antisym a a) as H. destruct (cmp a a); done. Qed.

Lemma cmp_eq_sym a b : cmp a b = Eq → cmp b a = Eq.
Proof. intros H. rewrite cmp_antisym, H. done. Qed.

Lemma cmp_eq_r a b c : cmp b c = Eq → cmp a b = cmp a c.
Proof.
  intros H. rewrite (cmp_antisym a b), (cmp_antisym a c).
  f_equal. by apply cmp_eq_l.
Qed.

Lemma cmp_gt_lt a b : cmp a b = Gt ↔ cmp b a = Lt.
Proof. rewrite (cmp_antisym a b). destruct (cmp b a); simpl; split; done. Qed.

End precedence.

(** A comparison through a projection, and two comparisons in
    lexicographic order, are precedences again. *)
Lemma precedence_on {A B : Type} (f : A → B) (cmp : B → B → comparison) :
  Precedence cmp → Precedence (λ a b, cmp (f a) (f b)).
Proof.
  intros H. split; intros.
  - apply cmp_antisym.
  - by apply cmp_eq_l.
  - by eapply cmp_lt_trans.
Qed.

Lemma precedence_lex {A : Type} (f g : A → A → comparison) :
  Precedence f → Precedence g →
  Precedence (λ a b, semver.lex (f a b) (g a b)).
Proof.
  intros Hf Hg. split.
  - intros a b. rewrite (cmp_antisym (cmp:=f) a b), (cmp_antisym (cmp:=g) a b).
    by destruct (f b a).
  - intros a b c. destruct (f a b) eqn:Ef; simpl; [|done..].
    intros Eg. by rewrite (cmp_eq_l (cmp:=f) _ _ c Ef), (cmp_eq_l (cmp:=g) _ _ c Eg).
  - intros a b c. destruct (f a b) eqn:Eab; simpl; [| |done].
    + intros Egab. rewrite (cmp_eq_l (cmp:=f) _ _ c Eab).
      destruct (f b c); simpl; [|done..]. by apply cmp_lt_trans.
    + intros _. destruct (f b c) eqn:Ebc; simpl; [| |done].
      * intros _. by rewrite <- (cmp_eq_r f a _ _ Ebc), Eab.
      * intros _. by rewrite (cmp_lt_trans (cmp:=f) _ _ _ Eab Ebc).
Qed.

Global Instance N_compare_precedence : Precedence N.compare.
Proof.
  split.
  - intros a b. apply N.compare_antisym.
  - intros a b c ->%N.compare_eq. done.
  - intros a b c. rewrite !N.compare_lt_iff. lia.
Qed.

Lemma string_compare_lt_trans a b c :
  String.compare a b = Lt → String.compare b c = Lt → String.compare a c = Lt.
Proof.
  revert b c. induction a as [|x a IH]; intros [|y b] [|z c]; simpl; try done.
  destruct (Ascii.compare x y) eqn:Exy; [| |done].
  - apply Ascii.compare_eq_iff in Exy as ->.
    destruct (Ascii.compare y z); [|done..]. apply IH.
  - intros _. destruct (Ascii.compare y z) eqn:Eyz; [| |done].
    + apply Ascii.compare_eq_iff in Eyz as <-. by rewrite Exy.
    + intros _. unfold Ascii.compare in *.
      rewrite N.compare_lt_iff in Exy, Eyz.
      assert ((N_of_ascii x ?= N_of_ascii z)%N = Lt) as ->; [|done].
      apply N.compare_lt_iff. lia.
Qed.

Global Instance string_compare_precedence : Precedence String.compare.
Proof.
  split.
  - apply String.compare_antisym.
  - intros a b c ->%String.compare_eq_iff. done.
  - apply string_compare_lt_trans.
Qed.

Global Instance cmp_identifier_precedence : Precedence semver.cmp_identifier.
Proof.
  split.
  - intros [x|x] [y|y]; simpl; try done; apply cmp_antisym.
  - intros [x|x] [y|y] [z|z]; simpl; try done; apply cmp_eq_l.
  - intros [x|x] [y|y] [z|z]; simpl; try done; apply cmp_lt_trans.
Qed.

Global Instance cmp_identifiers_precedence : Precedence semver.cmp_identifiers.
Proof.
  split.
  - intros a. induction a as [|x a IH]; intros [|y b]; simpl; try done.
    rewrite (cmp_antisym x y), IH. by destruct (semver.cmp_identifier y x).
  - intros a. induction a as [|x a IH]; intros [|y b] [|z c]; simpl; try done.
    destruct (semver.cmp_identifier x y) eqn:Exy; simpl; [|done..].
    intros E. by rewrite (cmp_eq_l _ _ z Exy), (IH _ c E).
  - intros a. induction a as [|x a IH]; intros [|y b] [|z c]; simpl; try done.
    destruct (semver.cmp_identifier x y) eqn:Exy; simpl; [| |done].
    + intros E. rewrite (cmp_eq_l _ _ z Exy).
      destruct (semver.cmp_identifier y z); simpl; [|done..]. by apply IH.
    + intros _. destruct (semver.cmp_identifier y z) eqn:Eyz; simpl; [| |done].
      * intros _. by rewrite <- (cmp_eq_r _ x _ _ Eyz), Exy.
      * intros _. by rewrite (cmp_lt_trans _ _ _ Exy Eyz).
Qed.

Global Instance cmp_prerelease_precedence : Precedence semver.cmp_prerelease.
Proof.
  split.
  - intros [|x a] [|y b]; try done.
    apply (cmp_antisym (cmp:=semver.cmp_identifiers) (x :: a) (y :: b)).
  - intros [|x a] [|y b] [|z c]; try done.
    apply (cmp_eq_l (cmp:=semver.cmp_identifiers) (x :: a) (y :: b) (z :: c)).
  - intros [|x a] [|y b] [|z c]; try done.
    apply (cmp_lt_trans (cmp:=semver.cmp_identifiers) (x :: a) (y :: b) (z :: c)).
Qed.

Global Instance cmp_version_precedence : Precedence semver.cmp_version.
Proof.
  unfold semver.cmp_version.
  repeat (apply precedence_lex; [apply precedence_on; apply _|]).
  apply precedence_on. apply _.
Qed.

(** ** sorted: the last element is a maximum *)

Section sort_by_facts.
Context {K A : Type} (lt : K → K → bool).
Hypothesis lt_asym : ∀ a b, lt a b = true → lt b a = false.
Hypothesis le_trans : ∀ a b c, lt b a = false → lt c b = false → lt c a = false.


Lemma insert_by_perm (x : K * A) l : insert_by lt x l ≡ₚ x :: l.
Proof.
  induction l as [|y l IH]; simpl; [done|].
  destruct (lt y.1 x.1); [|done]. by rewrite IH, Permutation_swap.
Qed.

Lemma sort_by_perm (l : list (K * A)) : sort_by lt l ≡ₚ l.
Proof.
  induction l as [|x l IH]; simpl; [done|].
  by rewrite insert_by_perm, IH.
Qed.






End sort_by_facts.

(** ** The search for the latest safe version *)

Lemma lt_cmp v1 v2 : semver.lt v1 v2 = true ↔ semver.cmp_version v1 v2 = Lt.
Proof.
  unfold semver.lt, semver.Version_compare.
  destruct (semver.cmp_version v1 v2); simpl; rewrite ?bool_decide_eq_true; split;
    (done || lia).
Qed.




Lemma newer_spec L a b va vb :
  semver.parse L a = Some va → semver.parse L b = Some vb →
  newer L a b ↔ semver.cmp_version va vb = Gt.
Proof.
  intros Ha Hb. unfold newer. split.
  - intros (va' & vb' & Ha' & Hb' & Hc). by simplify_eq.
  - intros Hc. by exists va, vb.
Qed.

(** A comparison that returns has parsed both strings and returns
    their precedence. *)
Lemma compare_inr L a b c :
  semver.compare L a b = inr c →
  ∃ va vb, semver.parse L a = Some va ∧ semver.parse L b = Some vb ∧
           c = semver.Version_compare va vb.
Proof.
  unfold semver.compare.
  destruct (semver.parse L a) as [va|]; [|done].
  destruct (semver.parse L b) as [vb|]; [|done].
  destruct (semver.compare_raises L a b); [done|]. intros [= <-]. by exists va, vb.
Qed.

Lemma compare_newer L a b c : semver.compare L a b = inr c → 0 < c ↔ newer L a b.
Proof.
  intros (va & vb & Ha & Hb & ->)%compare_inr.
  rewrite (newer_spec _ _ _ _ _ Ha Hb). apply to_int_pos.
Qed.

(** When no comparison raises, the comprehension keeps the versions
    higher than the current one. *)
Lemma newer_versions_Some L versions current nv :
  newer_versions L versions current = Some nv →
  ∀ v, v ∈ nv ↔ v ∈ versions ∧ newer L v current.
Proof.
  revert nv. induction versions as [|w versions IH]; intros nv; simpl.
  - intros [= <-]. set_solver.
  - destruct (semver.compare L w current) as [e|c] eqn:Hc; [done|].
    destruct (newer_versions L versions current) as [rest|]; [|done]. simpl.
    intros [= <-] v. pose proof (compare_newer _ _ _ _ Hc) as Hn.
    specialize (IH rest eq_refl). case_bool_decide as Hpos.
    + rewrite !elem_of_cons, IH. naive_solver.
    + rewrite IH, elem_of_cons. naive_solver.
Qed.



Section sort_by_stable.
Context {K A : Type} (lt : K → K → bool).

Lemma insert_by_last (x : K * A) l :
  last (insert_by lt x l) = if forallb (λ y, lt y.1 x.1) l then Some x else last l.
Proof.
  induction l as [|y l IH]; simpl; [done|].
  destruct (lt y.1 x.1) eqn:Hyx; simpl; [|done].
  assert (insert_by lt x l ≠ []) as Hne.
  { destruct l as [|z l']; simpl; [done|]. by destruct (lt z.1 x.1). }
  destruct (insert_by lt x l) as [|z zs] eqn:Hins; [done|].
  change (last (y :: z :: zs)) with (last (z :: zs)). rewrite IH.
  destruct (forallb _ l) eqn:Hall; [done|]. by destruct l.
Qed.

(** Python's sort is stable: of the elements with the highest key the
    one that comes last in the input is the last of the output. *)
Lemma sort_by_last_stable (l : list (K * A)) m :
  last (sort_by lt l) = Some m →
  ∃ l1 l2, l = l1 ++ m :: l2 ∧ ∀ x, x ∈ l2 → lt x.1 m.1 = true.
Proof.
  revert m. induction l as [|x l IH]; intros m; simpl; [done|].
  rewrite insert_by_last. destruct (forallb _ (sort_by lt l)) eqn:Hall.
  - intros [= <-]. exists [], l. split; [done|].
    intros y Hy. rewrite forallb_forall in Hall. apply Hall, list_elem_of_In.
    by rewrite sort_by_perm.
  - intros (l1 & l2 & -> & Hl2)%IH. by exists (x :: l1), l2.
Qed.

Lemma zip_keys_key (key : A → option K) l keys k x :
  Forall2 (λ x k, key x = Some k) l keys → (k, x) ∈ zip keys l → key x = Some k.
Proof.
  induction 1 as [|x' k' l keys Hk Hrest IH]; simpl; [by intros ?%elem_of_nil|].
  intros [[= -> ->]|Hin]%elem_of_cons; auto.
Qed.

Lemma sorted_last_stable (key : A → option K) l m :
  sorted lt key l ≫= last = Some m →
  ∃ l1 l2 km, l = l1 ++ m :: l2 ∧ key m = Some km ∧
    ∀ x, x ∈ l2 → ∃ kx, key x = Some kx ∧ lt kx km = true.
Proof.
  unfold sorted. destruct (mapM key l) as [keys|] eqn:Hkeys; [|done]. simpl.
  apply mapM_Some in Hkeys.
  rewrite fmap_last. destruct (last _) as [[km m']|] eqn:Hlast; [|done].
  intros [= ->]. apply sort_by_last_stable in Hlast as (z1 & z2 & Hzip & Hz2).
  assert ((zip keys l).*2 = l) as Hsnd.
  { apply snd_zip. apply Forall2_length in Hkeys. lia. }
  assert (∀ k x, (k, x) ∈ zip keys l → key x = Some k) as Hkey.
  { intros k x Hin. by eapply zip_keys_key. }
  exists z1.*2, z2.*2, km. split_and!.
  - by rewrite <- Hsnd, Hzip, fmap_app.
  - apply Hkey. rewrite Hzip. set_solver.
  - intros x ([kx x'] & -> & Hin)%list_elem_of_fmap. exists kx. split.
    + apply Hkey. rewrite Hzip. set_solver.
    + by apply Hz2 in Hin.
Qed.
End sort_by_stable.

(** The comprehension keeps the order of the registry. *)
Lemma newer_versions_order L versions current l1 m l2 :
  newer_versions L versions current = Some (l1 ++ m :: l2) →
  ∃ v1 v2, versions = v1 ++ m :: v2 ∧
    ∀ v, v ∈ v2 → newer L v current → v ∈ l2.
Proof.
  revert l1. induction versions as [|w versions IH]; intros l1; simpl.
  - intros [= Hnil]. by destruct l1.
  - destruct (semver.compare L w current) as [e|c] eqn:Hc; [done|].
    destruct (newer_versions L versions current) as [rest|] eqn:Hrest; [|done]. simpl.
    case_bool_decide as Hpos.
    + intros [= Heq]. destruct l1 as [|w' l1]; simpl in Heq.
      * injection Heq as -> ->. exists [], versions. split; [done|].
        intros v Hv Hn. by apply (newer_versions_Some _ _ _ _ Hrest).
      * injection Heq as -> ->.
        destruct (IH l1 eq_refl) as (v1 & v2 & -> & Hv2). by exists (w' :: v1), v2.
    + intros [= ->]. destruct (IH l1 eq_refl) as (v1 & v2 & -> & Hv2).
      by exists (w :: v1), v2.
Qed.

(** The version that a search returns: it is higher than the current
    one, and where it stands in the list of the registry. *)
Lemma latest_in_listed L resp current m :
  latest_in L resp current = Some m →
  newer L m current ∧
  ∃ versions v1 v2, resp = Response 200 (Some versions) ∧ versions = v1 ++ m :: v2 ∧
    ∀ v, v ∈ v2 → newer L v current → newer L m v.
Proof.
  destruct resp as [|status_code [versions|]]; simpl; [done| |by case_bool_decide].
  case_bool_decide as Hstatus; [|done]. subst status_code.
  destruct (newer_versions L versions current) as [[|w nv]|] eqn:Hnv; [done| |done].
  destruct (semver.sorted_raises L (w :: nv)); [done|].
  intros (l1 & l2 & km & Hl & Hkm & Hl2)%sorted_last_stable.
  rewrite Hl in Hnv. split.
  { apply (newer_versions_Some _ _ _ _ Hnv). set_solver. }
  apply newer_versions_order in Hnv as (v1 & v2 & -> & Hv2).
  exists (v1 ++ m :: v2), v1, v2. split_and!; [done..|].
  intros v Hv Hn. destruct (Hl2 v (Hv2 v Hv Hn)) as (kv & Hkv & Hlt).
  exists km, kv. split_and!; [done..|].
  apply lt_cmp in Hlt. by apply (cmp_gt_lt semver.cmp_version).
Qed.












(** ** get_graph_data: the order of the output *)

Lemma d3_nodes_loop_spec G sub acc :
  ∃ k, n_id <$> (d3_nodes_loop G sub acc).1 = (n_id <$> acc) ++ take k sub ∧
       match (d3_nodes_loop G sub acc).2 with
       | None => k = length sub
       | Some e => e = KeyError
       end.
Proof.
  revert acc. induction sub as [|node sub IH]; intros acc; simpl.
  - exists 0%nat. by rewrite app_nil_r.
  - destruct (_node G !! node) as [attr|]; simpl.
    + destruct (IH (acc ++ [ {| n_id := node; n_name := node;
          n_type := default (VStr "unknown") (attr !! "type");
          n_vulns := default (VList []) (attr !! "vulns") |} ])) as (k & Hk & He).
      exists (S k). rewrite Hk, fmap_app, <- app_assoc. split; [done|].
      destruct (d3_nodes_loop _ _ _).2; [done|]. by rewrite He.
    + exists 0%nat. by rewrite app_nil_r.
Qed.

Lemma d3_links_loop_spec G es acc :
  ∃ k, link_ends <$> (d3_links_loop G es acc).1 = (link_ends <$> acc) ++ take k es ∧
       match (d3_links_loop G es acc).2 with
       | None => k = length es
       | Some e => e = KeyError
       end.
Proof.
  revert acc. induction es as [|[u v] es IH]; intros acc; simpl.
  - exists 0%nat. by rewrite app_nil_r.
  - destruct (_adj G !! (u, v)) as [attr|]; simpl.
    + destruct (IH (acc ++ [ {| l_source := u; l_target := v;
          l_relationship := default (VStr "unknown") (attr !! "relationship") |} ]))
        as (k & Hk & He).
      exists (S k). rewrite Hk, fmap_app, <- app_assoc. split; [done|].
      destruct (d3_links_loop _ _ _).2; [done|]. by rewrite He.
    + exists 0%nat. by rewrite app_nil_r.
Qed.

Lemma d3_nodes_loop_complete G sub acc :
  (∀ n, n ∈ sub → is_Some (_node G !! n)) → (d3_nodes_loop G sub acc).2 = None.
Proof.
  revert acc. induction sub as [|node sub IH]; intros acc Hall; simpl; [done|].
  destruct (Hall node) as [attr ->]; [set_solver|]. apply IH. set_solver.
Qed.

Lemma d3_links_loop_complete G es acc :
  (∀ e, e ∈ es → is_Some (_adj G !! e)) → (d3_links_loop G es acc).2 = None.
Proof.
  revert acc. induction es as [|[u v] es IH]; intros acc Hall; simpl; [done|].
  destruct (Hall (u, v)) as [attr ->]; [set_solver|]. apply IH. set_solver.
Qed.

Lemma elem_of_successors G u v : v ∈ successors G u ↔ (u, v) ∈ edge_order G.
Proof.
  unfold successors. rewrite list_elem_of_fmap. split.
  - intros ([u' v'] & -> & [Hu ?]%list_elem_of_filter). simpl in *. by subst.
  - intros H. exists (u, v). split; [done|]. by apply list_elem_of_filter.
Qed.

Lemma elem_of_predecessors G u v : u ∈ predecessors G v ↔ (u, v) ∈ edge_order G.
Proof.
  unfold predecessors. rewrite list_elem_of_fmap. split.
  - intros ([u' v'] & -> & [Hv ?]%list_elem_of_filter). simpl in *. by subst.
  - intros H. exists (u, v). split; [done|]. by apply list_elem_of_filter.
Qed.

Lemma elem_of_edges G nbunch e : e ∈ edges G nbunch → e ∈ edge_order G.
Proof.
  unfold edges. intros (n & He & Hn)%list_elem_of_bind.
  apply list_elem_of_fmap in He as (v & -> & Hv). by apply elem_of_successors.
Qed.

(** For a project whose node is in the graph [get_graph_data] returns;
    the node ids and the link ends it lists are the beginnings of the
    iteration over the set and of [G.edges] of it, and all of them when
    no key is missing from the dicts of the graph. *)
Lemma get_graph_data_lists set_iter G project_id ds :
  descendants G (project_node project_id) = inr ds →
  let subgraph_nodes := set_iter (ds ++ [project_node project_id]) in
  ∃ d, get_graph_data set_iter G project_id = inr d ∧
       (n_id <$> nodes d) `prefix_of` subgraph_nodes ∧
       (link_ends <$> links d) `prefix_of` edges G subgraph_nodes ∧
       ((∀ n, n ∈ subgraph_nodes → is_Some (_node G !! n)) →
        (∀ e, e ∈ edge_order G → is_Some (_adj G !! e)) →
        n_id <$> nodes d = subgraph_nodes ∧
        link_ends <$> links d = edges G subgraph_nodes).
Proof.
  intros Hds subgraph_nodes. unfold get_graph_data. rewrite Hds.
  fold subgraph_nodes.
  destruct (d3_nodes_loop_spec G subgraph_nodes []) as (k & Hk & He).
  pose proof (d3_nodes_loop_complete G subgraph_nodes []) as Hnc.
  destruct (d3_nodes_loop G subgraph_nodes []) as [ns [e|]]; simpl in *.
  { subst e. simpl. eexists. split; [done|]. simpl.
    split_and!; [by eexists; rewrite <- (take_drop k) at 1; rewrite Hk|apply prefix_nil|].
    intros Hall _. by specialize (Hnc Hall). }
  destruct (d3_links_loop_spec G (edges G subgraph_nodes) []) as (j & Hj & He').
  pose proof (d3_links_loop_complete G (edges G subgraph_nodes) []) as Hlc.
  assert (n_id <$> ns = subgraph_nodes) as Hns by (by rewrite Hk, He, firstn_all).
  destruct (d3_links_loop G (edges G subgraph_nodes) []) as [ls [e|]]; simpl in *.
  - subst e. simpl. eexists. split; [done|]. simpl.
    split_and!; [by rewrite Hns|by eexists; rewrite <- (take_drop j) at 1; rewrite Hj|].
    intros _ Hall. assert (Some KeyError = None) as [=].
    apply Hlc. intros e ?%elem_of_edges. by apply Hall.
  - eexists. split; [done|]. simpl.
    assert (link_ends <$> ls = edges G subgraph_nodes) as Hls by (by rewrite Hj, He', firstn_all).
    by rewrite Hns, Hls.
Qed.


Lemma Sorted_adjacent {A} (R : relation A) l1 x y l2 :
  Sorted R (l1 ++ x :: y :: l2) → R x y.
Proof.
  induction l1 as [|z l1 IH]; simpl; intros Hs.
  - apply Sorted_inv in Hs as [_ Hhd]. by apply HdRel_inv in Hhd.
  - apply Sorted_inv in Hs as [Hs _]. by apply IH.
Qed.

Lemma edges_app G l1 l2 : edges G (l1 ++ l2) = edges G l1 ++ edges G l2.
Proof. unfold edges. by rewrite filter_app, bind_app. Qed.

(** C9 as stated fails, on the sorting and on the identical lists.
    For the graph of one ingested project: whatever the iteration
    order of the set, the links of the project node come in the order
    in which the edges were added, requests before flask, so the links
    are not sorted; when the set iterates in insertion order the nodes
    are not sorted either; and two calls for which the set iterates in
    two orders, here one the reverse of the other, return different
    lists. *)
Lemma get_graph_data_not_sorted :
  let G := ingest components 1 "https://example.org/a.git" empty_graph in
  (∀ set_iter, (∀ l, set_iter l ≡ₚ l) →
     ∀ d, get_graph_data set_iter G 1 = inr d → ¬ links_sorted d) ∧
  (∃ d, get_graph_data id G 1 = inr d ∧ ¬ nodes_sorted d ∧ ¬ links_sorted d) ∧
  get_graph_data id G 1 ≠ get_graph_data reverse G 1.
Proof.
  intros G.
  assert (get_graph_data id G 1 ≠ get_graph_data reverse G 1) as Hdiff.
  { intros Heq. vm_compute in Heq. discriminate Heq. }
  revert Hdiff. generalize (get_graph_data reverse G 1). intros other Hdiff.
  assert (∀ set_iter, (∀ l, set_iter l ≡ₚ l) →
     ∀ d, get_graph_data set_iter G 1 = inr d → ¬ links_sorted d) as Hany.
  { intros set_iter Hperm d Hd.
    assert (descendants G (project_node 1) =
            inr ["requests_2.28.1"; "flask_2.3.0"; "sqlalchemy_1.4.47"; "jinja2_3.1.2";
                 "werkzeug_2.3.0"; "vuln_CVE-2023-1234"; "vuln_CVE-2023-5678";
                 "vuln_CVE-2023-9012"]) as Hds by by vm_compute.
    destruct (get_graph_data_lists set_iter G 1 _ Hds) as (d0 & Hd0 & _ & _ & Heq).
    assert (d = d0) as -> by congruence. clear Hd Hd0. cbv zeta in Heq.
    set (L := _ ++ [project_node 1]) in Heq.
    destruct Heq as [_ Hlinks].
    { intros n Hn. rewrite Hperm in Hn. revert n Hn. apply Forall_forall.
      apply (bool_decide_unpack _). by vm_compute. }
    { apply Forall_forall. apply (bool_decide_unpack _). by vm_compute. }
    assert ("project_1" ∈ set_iter L) as Hin.
    { rewrite Hperm. apply (bool_decide_unpack _). by vm_compute. }
    apply list_elem_of_split in Hin as (l1 & l2 & Hsplit).
    unfold links_sorted. rewrite Hlinks, Hsplit.
    change ("project_1" :: l2) with (["project_1"] ++ l2).
    rewrite edges_app, (edges_app G ["project_1"] l2).
    assert (edges G ["project_1"] =
            [("project_1", "requests_2.28.1"); ("project_1", "flask_2.3.0");
             ("project_1", "sqlalchemy_1.4.47"); ("project_1", "jinja2_3.1.2");
             ("project_1", "werkzeug_2.3.0")]) as -> by by vm_compute.
    rewrite <- !app_comm_cons.
    intros Hs. apply Sorted_adjacent in Hs. by vm_compute in Hs. }
  split; [done|]. split; [|done]. clear Hdiff.
  destruct (get_graph_data id G 1) as [e|d] eqn:Hd; [by vm_compute in Hd|].
  exists d. split; [done|]. split; [|by apply (Hany id)].
  vm_compute in Hd. injection Hd as <-.
  unfold nodes_sorted. cbn [nodes fmap list_fmap n_id].
  intros Hs. apply (Sorted_adjacent _ []) in Hs. by vm_compute in Hs.
Qed.

(** ** Ingesting twice: ordered dicts *)

Section ordered_dict_facts.
Context `{Countable K}.
Implicit Types (d g h hi : odict (K:=K)) (n : K) (attr : gmap string value).

Lemma union_Some_l {A} (x : A) (o : option A) : Some x ∪ o = Some x.
Proof. by destruct o. Qed.

Lemma upsert_dom n attr d : dom (upsert n attr d).2 = {[n]} ∪ dom d.2.
Proof.
  unfold upsert. destruct (d.2 !! n) eqn:E; simpl; by rewrite dom_insert_L.
Qed.

Lemma upsert_order_in n attr d : n ∈ dom d.2 → (upsert n attr d).1 = d.1.
Proof. intros [old E]%elem_of_dom. unfold upsert. by rewrite E. Qed.

Lemma oget_upsert n attr d n' key :
  oget (upsert n attr d) n' key =
    if decide (n = n') then attr !! key ∪ oget d n key else oget d n' key.
Proof.
  unfold oget, upsert. case_decide as Hn.
  - subst n'. destruct (d.2 !! n) as [old|] eqn:E; simpl; rewrite lookup_insert_eq; simpl.
    + by rewrite lookup_union.
    + by rewrite (right_id_L None _).
  - destruct (d.2 !! n) as [old|] eqn:E; simpl; by rewrite lookup_insert_ne.
Qed.

Lemma oget_None d n key : n ∉ dom d.2 → oget d n key = None.
Proof. intros E%not_elem_of_dom. unfold oget. by rewrite E. Qed.

Lemma replays_refl h : replays h h h.
Proof. split_and!; auto. Qed.

(** An update of a key that the first run's result has. *)
Lemma replays_upsert n attr g hi h :
  n ∈ dom h.2 → replays g hi h → replays (upsert n attr g) (upsert n attr hi) h.
Proof.
  intros Hn (Ho & Hd & Hv & Hs). split_and!.
  - rewrite upsert_order_in; [done|]. by rewrite Hd.
  - rewrite upsert_dom, Hd. set_solver.
  - intros n' key. rewrite !oget_upsert. destruct (decide (n = n')) as [<-|]; [|apply Hv].
    destruct (attr !! key); [left; by rewrite !union_Some_l|].
    rewrite !(left_id_L None _). apply Hv.
  - intros n' key Hsome. rewrite oget_upsert. destruct (decide (n = n')) as [<-|]; [|by apply Hs].
    apply Hs in Hsome. destruct (attr !! key); [by rewrite union_Some_l|].
    by rewrite (left_id_L None _).
Qed.

(** A key that only the first run has to create. *)
Lemma replays_fresh n attr g hi h :
  n ∉ dom g.2 → replays g hi h → replays (upsert n attr g) hi h.
Proof.
  intros Hn (Ho & Hd & Hv & Hs). split_and!; [done..| |done].
  intros n' key. rewrite oget_upsert. destruct (decide (n = n')) as [<-|]; [|apply Hv].
  destruct (Hv n key) as [Hg|Hh]; [|by right].
  right. rewrite (oget_None g) in Hg by done.
  destruct (oget h n key) eqn:E; [|done].
  destruct (Hs n key) as [x Hx]; [by eexists|]. congruence.
Qed.

(** At the end of the second run the dict is the one it started from. *)
Lemma replays_done hi h : replays h hi h → hi = h.
Proof.
  intros (Ho & Hd & Hv & _). destruct hi as [o m], h as [o' m']; simpl in *.
  f_equal; [done|]. apply map_eq. intros n.
  destruct (m !! n) as [a|] eqn:Ea, (m' !! n) as [a'|] eqn:Ea'.
  - f_equal. apply map_eq. intros key.
    pose proof (Hv n key) as Hk. unfold oget in Hk. simpl in Hk.
    rewrite Ea, Ea' in Hk. simpl in Hk. by destruct Hk.
  - apply not_elem_of_dom in Ea'. rewrite <- Hd in Ea'.
    by apply not_elem_of_dom in Ea'; simplify_eq.
  - apply not_elem_of_dom in Ea. rewrite Hd in Ea.
    by apply not_elem_of_dom in Ea; simplify_eq.
  - done.
Qed.
End ordered_dict_facts.

(** ** Ingesting twice: the graph *)

Lemma node_dict_add_node n attr G :
  node_dict (add_node n attr G) = upsert n attr (node_dict G).
Proof. unfold add_node, upsert, node_dict. simpl. by destruct (_node G !! n). Qed.

Lemma edge_dict_add_node n attr G : edge_dict (add_node n attr G) = edge_dict G.
Proof. unfold add_node, edge_dict. by destruct (_node G !! n). Qed.

Lemma node_dict_put_edge u v attr G : node_dict (put_edge u v attr G) = node_dict G.
Proof. unfold put_edge, node_dict. by destruct (_adj G !! (u, v)). Qed.

Lemma edge_dict_put_edge u v attr G :
  edge_dict (put_edge u v attr G) = upsert (u, v) attr (edge_dict G).
Proof. unfold put_edge, upsert, edge_dict. simpl. by destruct (_adj G !! (u, v)). Qed.

Lemma has_node_dom G n : has_node G n = true ↔ n ∈ dom (_node G).
Proof. unfold has_node. by rewrite bool_decide_eq_true, elem_of_dom. Qed.

Lemma has_node_false G n : has_node G n = false ↔ n ∉ dom (_node G).
Proof. by rewrite <- has_node_dom, not_true_iff_false. Qed.

Lemma graph_eq G G' : node_dict G = node_dict G' → edge_dict G = edge_dict G' → G = G'.
Proof. destruct G, G'. unfold node_dict, edge_dict. simpl. by intros [= -> ->] [= -> ->]. Qed.

Lemma graph_replays_done hi h : graph_replays h hi h → hi = h.
Proof. intros [Hn He]. apply graph_eq; by apply replays_done. Qed.

Lemma graph_replays_add_node n attr g hi h :
  n ∈ dom (_node h) → graph_replays g hi h →
  graph_replays (add_node n attr g) (add_node n attr hi) h.
Proof.
  intros Hn [Hnodes Hedges]. split.
  - rewrite !node_dict_add_node. by apply replays_upsert.
  - by rewrite !edge_dict_add_node.
Qed.

(** [if not G.has_node(n): G.add_node(n, **attr)] *)
Lemma graph_replays_add_missing n attr g hi h :
  n ∈ dom (_node h) → graph_replays g hi h →
  graph_replays (if has_node g n then g else add_node n attr g)
                (if has_node hi n then hi else add_node n attr hi) h.
Proof.
  intros Hn [Hnodes Hedges].
  assert (has_node hi n = true) as ->.
  { apply has_node_dom. destruct Hnodes as (_ & Hd & _). simpl in Hd. by rewrite Hd. }
  destruct (has_node g n) eqn:Hg; [done|]. split.
  - rewrite node_dict_add_node. apply replays_fresh; [|done]. by apply has_node_false.
  - by rewrite edge_dict_add_node.
Qed.

Lemma graph_replays_put_edge u v attr g hi h :
  (u, v) ∈ dom (_adj h) → graph_replays g hi h →
  graph_replays (put_edge u v attr g) (put_edge u v attr hi) h.
Proof.
  intros Hn [Hnodes Hedges]. split.
  - by rewrite !node_dict_put_edge.
  - rewrite !edge_dict_put_edge. by apply replays_upsert.
Qed.

Lemma graph_replays_add_edge u v attr g hi h :
  u ∈ dom (_node h) → v ∈ dom (_node h) → (u, v) ∈ dom (_adj h) →
  graph_replays g hi h →
  graph_replays (add_edge u v attr g) (add_edge u v attr hi) h.
Proof.
  intros Hu Hv Huv Hr. unfold add_edge, touch_node.
  apply graph_replays_put_edge; [done|].
  apply graph_replays_add_missing; [done|].
  by apply graph_replays_add_missing.
Qed.

Lemma graph_replays_ingest_vuln node_id vuln_id g hi h :
  covers_vuln h node_id vuln_id → graph_replays g hi h →
  graph_replays (ingest_vuln node_id g vuln_id) (ingest_vuln node_id hi vuln_id) h.
Proof.
  intros (Hv & Hc & Hcv) Hr. unfold ingest_vuln.
  apply graph_replays_add_edge; [done..|].
  by apply graph_replays_add_missing.
Qed.

Lemma graph_replays_foldl {A} (f : DiGraph → A → DiGraph) (P : A → Prop) l h :
  (∀ x g hi, P x → graph_replays g hi h → graph_replays (f g x) (f hi x) h) →
  (∀ x, x ∈ l → P x) →
  ∀ g hi, graph_replays g hi h → graph_replays (foldl f g l) (foldl f hi l) h.
Proof.
  intros Hf. induction l as [|x l IH]; intros HP g hi Hr; simpl; [done|].
  apply IH; [set_solver|]. apply Hf; [|done]. apply HP. set_solver.
Qed.

Lemma graph_replays_ingest_component project_id comp g hi h :
  covers_component h project_id comp → graph_replays g hi h →
  graph_replays (ingest_component project_id g comp) (ingest_component project_id hi comp) h.
Proof.
  intros (Hc & Hp & Hpc & Hvs) Hr. unfold ingest_component.
  apply (graph_replays_foldl _ (covers_vuln h (component_node comp))); [|done|].
  - intros. by apply graph_replays_ingest_vuln.
  - apply graph_replays_add_edge; [done..|]. by apply graph_replays_add_node.
Qed.

Lemma graph_replays_ingest comps project_id repo_url g hi h :
  project_node project_id ∈ dom (_node h) →
  (∀ comp, comp ∈ comps → covers_component h project_id comp) →
  graph_replays g hi h →
  graph_replays (ingest comps project_id repo_url g) (ingest comps project_id repo_url hi) h.
Proof.
  intros Hp Hcs Hr. unfold ingest.
  apply (graph_replays_foldl _ (covers_component h project_id)); [|done|].
  - intros. by apply graph_replays_ingest_component.
  - by apply graph_replays_add_node.
Qed.

Lemma replays_start `{Countable K} (g h : odict (K:=K)) : replays g h h.
Proof. split_and!; auto. Qed.

Lemma dom_node_add_node n attr G : dom (_node (add_node n attr G)) = {[n]} ∪ dom (_node G).
Proof. unfold add_node. destruct (_node G !! n); simpl; by rewrite dom_insert_L. Qed.

Lemma dom_adj_add_node n attr G : dom (_adj (add_node n attr G)) = dom (_adj G).
Proof. unfold add_node. by destruct (_node G !! n). Qed.

Lemma dom_node_add_missing n attr G :
  dom (_node (if has_node G n then G else add_node n attr G)) = {[n]} ∪ dom (_node G).
Proof.
  destruct (has_node G n) eqn:E; [|apply dom_node_add_node].
  apply has_node_dom in E. set_solver.
Qed.

Lemma dom_adj_add_missing n attr G :
  dom (_adj (if has_node G n then G else add_node n attr G)) = dom (_adj G).
Proof. destruct (has_node G n); [done|apply dom_adj_add_node]. Qed.

Lemma dom_node_put_edge u v attr G : dom (_node (put_edge u v attr G)) = dom (_node G).
Proof. unfold put_edge. by destruct (_adj G !! (u, v)). Qed.

Lemma dom_adj_put_edge u v attr G :
  dom (_adj (put_edge u v attr G)) = {[(u, v)]} ∪ dom (_adj G).
Proof. unfold put_edge. destruct (_adj G !! (u, v)); simpl; by rewrite dom_insert_L. Qed.

Lemma dom_node_add_edge u v attr G :
  dom (_node (add_edge u v attr G)) = {[u; v]} ∪ dom (_node G).
Proof.
  unfold add_edge, touch_node.
  rewrite dom_node_put_edge, !dom_node_add_missing. set_solver.
Qed.

Lemma dom_adj_add_edge u v attr G :
  dom (_adj (add_edge u v attr G)) = {[(u, v)]} ∪ dom (_adj G).
Proof.
  unfold add_edge, touch_node.
  by rewrite dom_adj_put_edge, !dom_adj_add_missing.
Qed.

Lemma dom_node_ingest_vuln node_id G vuln_id :
  dom (_node (ingest_vuln node_id G vuln_id)) =
    {[node_id; vuln_node vuln_id]} ∪ dom (_node G).
Proof.
  unfold ingest_vuln. rewrite dom_node_add_edge, dom_node_add_missing. set_solver.
Qed.

Lemma dom_adj_ingest_vuln node_id G vuln_id :
  dom (_adj (ingest_vuln node_id G vuln_id)) =
    {[(node_id, vuln_node vuln_id)]} ∪ dom (_adj G).
Proof. unfold ingest_vuln. by rewrite dom_adj_add_edge, dom_adj_add_missing. Qed.

Global Instance extends_preorder : PreOrder extends.
Proof.
  split.
  - by intros g.
  - intros g1 g2 g3 [??] [??]. split; set_solver.
Qed.

Lemma foldl_extends {A} (f : DiGraph → A → DiGraph) l :
  (∀ g x, extends g (f g x)) → ∀ g, extends g (foldl f g l).
Proof.
  intros Hf. induction l as [|x l IH]; intros g; simpl; [done|].
  by trans (f g x).
Qed.

(** What each step of a loop establishes, and later steps keep, holds
    at the end of the loop for every element. *)
Lemma foldl_establishes {A} (f : DiGraph → A → DiGraph) (P : DiGraph → A → Prop) l :
  (∀ g x, extends g (f g x)) →
  (∀ g x, P (f g x) x) →
  (∀ g g' x, extends g g' → P g x → P g' x) →
  ∀ g x, x ∈ l → P (foldl f g l) x.
Proof.
  intros Hext Hf Hmono. induction l as [|y l IH]; intros g x Hx; simpl; [by set_solver|].
  apply elem_of_cons in Hx as [->|Hx]; [|by apply IH].
  eapply Hmono; [apply foldl_extends, Hext|apply Hf].
Qed.

Lemma ingest_vuln_extends node_id G vuln_id : extends G (ingest_vuln node_id G vuln_id).
Proof.
  split; [rewrite dom_node_ingest_vuln|rewrite dom_adj_ingest_vuln]; set_solver.
Qed.

Lemma covers_vuln_mono g g' node_id vuln_id :
  extends g g' → covers_vuln g node_id vuln_id → covers_vuln g' node_id vuln_id.
Proof. intros [??] (? & ? & ?). split_and!; set_solver. Qed.

Lemma ingest_vuln_covers node_id G vuln_id :
  covers_vuln (ingest_vuln node_id G vuln_id) node_id vuln_id.
Proof.
  unfold covers_vuln. rewrite dom_node_ingest_vuln, dom_adj_ingest_vuln. set_solver.
Qed.

Lemma ingest_component_extends project_id G comp :
  extends G (ingest_component project_id G comp).
Proof.
  unfold ingest_component.
  etrans; [|apply foldl_extends; intros; apply ingest_vuln_extends].
  split; [rewrite dom_node_add_edge, dom_node_add_node
         |rewrite dom_adj_add_edge, dom_adj_add_node]; set_solver.
Qed.

Lemma covers_component_mono g g' project_id comp :
  extends g g' → covers_component g project_id comp → covers_component g' project_id comp.
Proof.
  intros Hext (? & ? & ? & Hvs). pose proof Hext as [??].
  split_and!; [set_solver..|]. intros v Hv. by eapply covers_vuln_mono, Hvs.
Qed.

Lemma ingest_component_covers project_id G comp :
  covers_component (ingest_component project_id G comp) project_id comp.
Proof.
  unfold ingest_component.
  set (G' := add_edge _ _ _ _).
  assert (extends G' (foldl (ingest_vuln (component_node comp)) G' (c_vulnerabilities comp)))
    as [Hn Ha] by (apply foldl_extends; intros; apply ingest_vuln_extends).
  assert (dom (_node G') = {[project_node project_id; component_node comp]} ∪ dom (_node G))
    as HnG' by (unfold G'; rewrite dom_node_add_edge, dom_node_add_node; set_solver).
  assert (dom (_adj G') = {[(project_node project_id, component_node comp)]} ∪ dom (_adj G))
    as HaG' by (unfold G'; by rewrite dom_adj_add_edge, dom_adj_add_node).
  split_and!; [set_solver..|].
  intros v Hv. revert v Hv.
  apply (foldl_establishes _ (λ g v, covers_vuln g (component_node comp) v)).
  - intros; apply ingest_vuln_extends.
  - intros; apply ingest_vuln_covers.
  - intros g g' v. apply covers_vuln_mono.
Qed.

Lemma ingest_covers comps project_id repo_url G :
  let h := ingest comps project_id repo_url G in
  project_node project_id ∈ dom (_node h) ∧
  ∀ comp, comp ∈ comps → covers_component h project_id comp.
Proof.
  simpl. unfold ingest. set (G' := add_node _ _ _).
  split.
  - assert (extends G' (foldl (ingest_component project_id) G' comps)) as [Hn _]
      by (apply foldl_extends; intros; apply ingest_component_extends).
    apply Hn. unfold G'. rewrite dom_node_add_node. set_solver.
  - apply (foldl_establishes _ (λ g c, covers_component g project_id c)).
    + intros; apply ingest_component_extends.
    + intros; apply ingest_component_covers.
    + intros g g' c. apply covers_component_mono.
Qed.

Lemma ingest_twice comps project_id repo_url G :
  ingest comps project_id repo_url (ingest comps project_id repo_url G) =
  ingest comps project_id repo_url G.
Proof.
  apply graph_replays_done.
  destruct (ingest_covers comps project_id repo_url G) as [Hp Hcs].
  apply graph_replays_ingest; [done..|].
  split; apply replays_start.
Qed.

(** C4: ingesting a component list for a project a second time leaves
    the graph as the first ingestion made it, with the same nodes and
    edges in the same order and with the same attributes: nothing is
    added twice.  This holds for every component list, every project
    and every graph to start from, and so for [generate_sbom] called
    twice with the same arguments, whose snapshot file is then the same
    as well. *)
Theorem generate_sbom_idempotent self comps project_id repo_url G :
  let once := (generate_sbom self project_id repo_url).2 in
  let twice := (generate_sbom once project_id repo_url).2 in
  graph twice = graph once ∧
  graph_file twice = graph_file once ∧
  ingest comps project_id repo_url (ingest comps project_id repo_url G) =
    ingest comps project_id repo_url G ∧
  length (node_order (graph twice)) = length (node_order (graph once)) ∧
  length (edge_order (graph twice)) = length (edge_order (graph once)).
Proof.
  intros once twice.
  assert (graph twice = graph once) as Hg by apply ingest_twice.
  split_and!; [done| |apply ingest_twice|by rewrite Hg..].
  unfold twice, once, generate_sbom. simpl.
  unfold _save_graph, _save_graph_upto. simpl. by rewrite ingest_twice.
Qed.

(** ** Breadth-first search is correct *)

Lemma path_length G s t p : path G s t p → (0 < length p)%nat.
Proof. destruct 1; rewrite ?length_app; simpl; lia. Qed.

Lemma path_last G s t p : path G s t p → last p = Some t.
Proof. destruct 1; [done|]. by rewrite last_snoc. Qed.

Lemma path_head G s t p : path G s t p → head p = Some s.
Proof.
  induction 1 as [|t u p Hp IH He]; [done|].
  destruct p; [done|]. done.
Qed.

Lemma visit_spec p nbrs seen next :
  ∃ new,
    visit p nbrs seen next = (reverse new.*1 ++ seen, next ++ new) ∧
    (∀ w trail, (w, trail) ∈ new → trail = p.1 :: p.2 ∧ w ∈ nbrs ∧ w ∉ seen) ∧
    (NoDup seen → NoDup (reverse new.*1 ++ seen)) ∧
    (∀ w, w ∈ nbrs → w ∈ reverse new.*1 ++ seen).
Proof.
  revert seen next. induction nbrs as [|w nbrs IH]; intros seen next; simpl.
  - exists []. rewrite app_nil_r. split_and!; [done| |done|]; set_solver.
  - case_bool_decide as Hw.
    + destruct (IH seen next) as (new & -> & Hnew & Hnd & Hall).
      exists new. split_and!; [done| |done|].
      * intros w' trail Hin. destruct (Hnew _ _ Hin) as (? & ? & ?). set_solver.
      * intros w' [->|?]%elem_of_cons; [set_solver|by apply Hall].
    + destruct (IH (w :: seen) (next ++ [(w, p.1 :: p.2)])) as (new & -> & Hnew & Hnd & Hall).
      exists ((w, p.1 :: p.2) :: new).
      assert (reverse ((w, p.1 :: p.2) :: new).*1 ++ seen = reverse new.*1 ++ w :: seen) as Heq.
      { rewrite fmap_cons, reverse_cons, <- app_assoc. done. }
      rewrite Heq. split_and!.
      * by rewrite <- app_assoc.
      * intros w' trail [[= -> ->]|Hin]%elem_of_cons; [set_solver|].
        destruct (Hnew _ _ Hin) as (? & ? & ?). set_solver.
      * intros Hs. apply Hnd. by constructor.
      * intros w' [->|?]%elem_of_cons; [set_solver|by apply Hall].
Qed.

Lemma expand_spec G this_level seen next :
  ∃ new,
    expand G this_level seen next = (reverse new.*1 ++ seen, next ++ new) ∧
    (∀ w trail, (w, trail) ∈ new →
       ∃ v trail0, (v, trail0) ∈ this_level ∧ trail = v :: trail0 ∧
                   (v, w) ∈ edge_order G ∧ w ∉ seen) ∧
    (NoDup seen → NoDup (reverse new.*1 ++ seen)) ∧
    (∀ v trail0 w, (v, trail0) ∈ this_level → (v, w) ∈ edge_order G →
       w ∈ reverse new.*1 ++ seen).
Proof.
  revert seen next. induction this_level as [|[v trail0] F IH]; intros seen next; simpl.
  - exists []. rewrite app_nil_r. split_and!; [done| |done|]; set_solver.
  - destruct (visit_spec (v, trail0) (successors G v) seen next)
      as (new1 & -> & Hnew1 & Hnd1 & Hall1).
    destruct (IH (reverse new1.*1 ++ seen) (next ++ new1))
      as (new2 & -> & Hnew2 & Hnd2 & Hall2).
    exists (new1 ++ new2).
    assert (reverse (new1 ++ new2).*1 ++ seen =
            reverse new2.*1 ++ reverse new1.*1 ++ seen) as Heq.
    { by rewrite fmap_app, reverse_app, <- app_assoc. }
    rewrite Heq. split_and!.
    + by rewrite <- app_assoc.
    + intros w trail [Hin|Hin]%elem_of_app.
      * destruct (Hnew1 _ _ Hin) as (-> & Hw%elem_of_successors & ?).
        exists v, trail0. set_solver.
      * destruct (Hnew2 _ _ Hin) as (v' & tr' & ? & ? & ? & ?).
        exists v', tr'. set_solver.
    + auto.
    + intros v' tr' w [[= -> ->]|Hin]%elem_of_cons He.
      * apply elem_of_app. right. by apply Hall1, elem_of_successors.
      * by eapply Hall2.
Qed.

Section bfs.
Context (G : DiGraph) (s : string).

Lemma bfs_inv_start : bfs_inv G s 0 [(s, [])] [s].
Proof.
  split.
  - intros v trail [= -> ->]%list_elem_of_singleton. split; [constructor|done].
  - intros x p Hp Hlen. destruct Hp as [|y u p Hp He]; [set_solver|].
    apply path_length in Hp. rewrite length_app in Hlen. simpl in Hlen. lia.
  - intros x ->%list_elem_of_singleton. eexists. constructor.
  - set_solver.
  - apply NoDup_singleton.
  - set_solver.
  - simpl. lia.
Qed.

Lemma bfs_inv_source k this_level seen : bfs_inv G s k this_level seen → s ∈ seen.
Proof. intros Hinv. apply (inv_near _ _ _ _ _ Hinv s [s]); [constructor|simpl; lia]. Qed.

Lemma bfs_inv_step k this_level seen seen' next :
  bfs_inv G s k this_level seen →
  this_level ≠ [] →
  expand G this_level seen [] = (seen', next) →
  bfs_inv G s (S k) next seen'.
Proof.
  intros Hinv Hne Hexp.
  destruct (expand_spec G this_level seen []) as (new & Heq & Hnew & Hnd & Hall).
  rewrite Hexp in Heq. simpl in Heq. injection Heq as -> ->.
  pose proof (bfs_inv_source _ _ _ Hinv) as Hs.
  assert (∀ w trail, (w, trail) ∈ new →
            path G s w (reverse (w :: trail)) ∧ length trail = S k) as Hpaths.
  { intros w trail Hin. destruct (Hnew _ _ Hin) as (v & trail0 & HF & -> & He & _).
    destruct (inv_paths _ _ _ _ _ Hinv _ _ HF) as [Hp <-]. split; [|done].
    rewrite reverse_cons. by econstructor. }
  split.
  - done.
  - intros x p Hp Hlen. apply elem_of_app.
    destruct Hp as [|y x p Hp He]; [by right|].
    rewrite length_app in Hlen. simpl in Hlen.
    assert (y ∈ seen) as Hy by (apply (inv_near _ _ _ _ _ Hinv y p); [done|lia]).
    destruct (inv_closed _ _ _ _ _ Hinv y Hy) as [HyF|Hcl]; [|right; by apply Hcl].
    apply list_elem_of_fmap in HyF as ([y' trail0] & -> & HyF).
    apply elem_of_app. by eapply Hall.
  - intros x [Hin|Hin]%elem_of_app; [|by apply (inv_reach _ _ _ _ _ Hinv)].
    rewrite elem_of_reverse in Hin.
    apply list_elem_of_fmap in Hin as ([x' trail] & -> & Hin).
    destruct (Hpaths _ _ Hin) as [Hp _]. by eexists.
  - intros y [Hin|Hin]%elem_of_app; [left; by rewrite elem_of_reverse in Hin|].
    right. intros x He. apply elem_of_app.
    destruct (inv_closed _ _ _ _ _ Hinv y Hin) as [HyF|Hcl]; [|right; by apply Hcl].
    apply list_elem_of_fmap in HyF as ([y' trail0] & -> & HyF).
    apply elem_of_app. by eapply Hall.
  - apply Hnd, (inv_nodup _ _ _ _ _ Hinv).
  - intros x [Hin|Hin]%elem_of_app; [|by apply (inv_edges _ _ _ _ _ Hinv)].
    right. rewrite elem_of_reverse in Hin.
    apply list_elem_of_fmap in Hin as ([x' trail] & -> & Hin).
    destruct (Hnew _ _ Hin) as (v & trail0 & _ & _ & He & _).
    apply list_elem_of_fmap. by exists (v, x').
  - intros Hnext. pose proof (inv_count _ _ _ _ _ Hinv Hne) as Hk.
    rewrite length_app, length_reverse, length_fmap.
    destruct new; [done|]. simpl. lia.
Qed.

(** The seen nodes are at most the source and the targets of the
    edges. *)
Lemma bfs_inv_seen k this_level seen :
  bfs_inv G s k this_level seen → seen ⊆+ s :: (edge_order G).*2.
Proof.
  intros Hinv. apply NoDup_submseteq; [apply (inv_nodup _ _ _ _ _ Hinv)|].
  intros x Hx. destruct (inv_edges _ _ _ _ _ Hinv x Hx) as [->|?]; set_solver.
Qed.

(** Once the frontier is empty, or the level is the number of edges,
    every node with a path from the source has been seen. *)
Lemma bfs_inv_saturated k this_level seen x p :
  bfs_inv G s k this_level seen →
  this_level = [] ∨ (length (edge_order G) ≤ k)%nat →
  path G s x p → x ∈ seen.
Proof.
  intros Hinv Hend Hp. pose proof (bfs_inv_source _ _ _ Hinv) as Hs.
  induction Hp as [|t u p Hp IH He]; [done|].
  destruct (inv_closed _ _ _ _ _ Hinv t IH) as [HtF|Hcl]; [|by apply Hcl].
  destruct Hend as [->|Hk]; [by apply elem_of_nil in HtF|].
  assert (this_level ≠ []) as Hne by (intros ->; by apply elem_of_nil in HtF).
  pose proof (inv_count _ _ _ _ _ Hinv Hne) as Hcount.
  pose proof (bfs_inv_seen _ _ _ Hinv) as Hsub.
  assert (seen ≡ₚ s :: (edge_order G).*2) as Hperm.
  { apply submseteq_length_Permutation; [done|]. simpl. rewrite length_fmap. lia. }
  rewrite Hperm. apply elem_of_cons. right.
  apply list_elem_of_fmap. by exists (t, u).
Qed.

(** [bfs_nodes] returns the nodes that have a path from the source. *)
Lemma bfs_nodes_spec fuel k this_level seen x :
  bfs_inv G s k this_level seen →
  (length (edge_order G) ≤ fuel + k)%nat →
  x ∈ bfs_nodes fuel G this_level seen ↔ ∃ p, path G s x p.
Proof.
  revert k this_level seen. induction fuel as [|fuel IH]; intros k F seen Hinv Hfuel.
  - simpl. split; [apply (inv_reach _ _ _ _ _ Hinv)|].
    intros [p Hp]. eapply bfs_inv_saturated; [done| |done]. right. lia.
  - simpl. destruct F as [|e F].
    + split; [apply (inv_reach _ _ _ _ _ Hinv)|].
      intros [p Hp]. eapply bfs_inv_saturated; [done| |done]. by left.
    + destruct (expand G (e :: F) seen []) as [seen' next] eqn:Hexp.
      apply (IH (S k)); [by eapply bfs_inv_step|lia].
Qed.

Lemma bfs_nodes_NoDup fuel k this_level seen :
  bfs_inv G s k this_level seen → NoDup (bfs_nodes fuel G this_level seen).
Proof.
  revert k this_level seen. induction fuel as [|fuel IH]; intros k F seen Hinv.
  - apply (inv_nodup _ _ _ _ _ Hinv).
  - simpl. destruct F as [|e F]; [apply (inv_nodup _ _ _ _ _ Hinv)|].
    destruct (expand G (e :: F) seen []) as [seen' next] eqn:Hexp.
    apply (IH (S k)). by eapply bfs_inv_step.
Qed.
End bfs.

Section bfs_path.
Context (G : DiGraph) (s t : string).

Lemma bfs_goal_start : bfs_goal G s t 0 [(s, [])] [s].
Proof.
  split.
  - intros p Hp. by apply path_length in Hp.
  - set_solver.
Qed.

Lemma bfs_goal_step k this_level seen seen' next :
  bfs_inv G s k this_level seen →
  bfs_goal G s t k this_level seen →
  ¬ (t ∈ this_level.*1) →
  expand G this_level seen [] = (seen', next) →
  bfs_goal G s t (S k) next seen'.
Proof.
  intros Hinv Hgoal Ht Hexp.
  destruct (expand_spec G this_level seen []) as (new & Heq & _).
  rewrite Hexp in Heq. simpl in Heq. injection Heq as -> ->.
  split.
  - intros p Hp. pose proof (inv_far _ _ _ _ _ _ Hgoal p Hp) as Hk.
    destruct (decide (length p = S k)) as [Hlen|]; [|lia].
    exfalso. apply Ht. apply (inv_target _ _ _ _ _ _ Hgoal).
    apply (inv_near _ _ _ _ _ Hinv t p); [done|lia].
  - intros [Hin|Hin]%elem_of_app; [by rewrite elem_of_reverse in Hin|].
    by apply (inv_target _ _ _ _ _ _ Hgoal) in Hin.
Qed.

Lemma find_reaches_Some (this_level : frontier) e :
  List.find (reaches t) this_level = Some e → e ∈ this_level ∧ e.1 = t.
Proof.
  intros [Hin Hr]%find_some. split; [by apply list_elem_of_In|].
  unfold reaches in Hr. by apply bool_decide_eq_true in Hr.
Qed.

Lemma find_reaches_None (this_level : frontier) :
  List.find (reaches t) this_level = None → ¬ (t ∈ this_level.*1).
Proof.
  intros Hnone ([v trail] & -> & Hin)%list_elem_of_fmap.
  apply list_elem_of_In in Hin. apply (find_none _ _ Hnone) in Hin.
  unfold reaches in Hin. simpl in Hin. by apply bool_decide_eq_false in Hin.
Qed.

Lemma bfs_found k this_level seen e :
  bfs_inv G s k this_level seen →
  bfs_goal G s t k this_level seen →
  List.find (reaches t) this_level = Some e →
  path G s t (reverse (e.1 :: e.2)) ∧
  ∀ p', path G s t p' → (length (reverse (e.1 :: e.2)) ≤ length p')%nat.
Proof.
  intros Hinv Hgoal [Hin <-]%find_reaches_Some.
  destruct e as [v trail]. destruct (inv_paths _ _ _ _ _ Hinv _ _ Hin) as [Hp Hlen].
  split; [done|]. intros p' Hp'. apply (inv_far _ _ _ _ _ _ Hgoal) in Hp'.
  rewrite length_reverse. simpl in *. lia.
Qed.

(** The path that the search returns is a path to the target, and no
    path to the target is shorter. *)
Lemma bfs_path_sound fuel k this_level seen p :
  bfs_inv G s k this_level seen →
  bfs_goal G s t k this_level seen →
  bfs_path fuel G t this_level seen = Some p →
  path G s t p ∧ ∀ p', path G s t p' → (length p ≤ length p')%nat.
Proof.
  revert k this_level seen.
  induction fuel as [|fuel IH]; intros k F seen Hinv Hgoal; simpl.
  - destruct (List.find _ F) as [e|] eqn:Hfind; [|done].
    intros [= <-]. by eapply bfs_found.
  - destruct (List.find _ F) as [e|] eqn:Hfind.
    + intros [= <-]. by eapply bfs_found.
    + apply find_reaches_None in Hfind. destruct F as [|e F]; [done|].
      destruct (expand G (e :: F) seen []) as [seen' next] eqn:Hexp.
      apply (IH (S k)); [by eapply bfs_inv_step|by eapply bfs_goal_step].
Qed.

(** A path from a seen node to one that is not leaves the seen nodes
    along some edge. *)
Lemma path_exit (seen : list string) p :
  path G s t p → s ∈ seen → ¬ (t ∈ seen) →
  ∃ y x, y ∈ seen ∧ ¬ (x ∈ seen) ∧ (y, x) ∈ edge_order G.
Proof.
  induction 1 as [|t u p Hp IH He]; intros Hs Ht; [done|].
  destruct (decide (t ∈ seen)) as [Hin|Hout]; [by exists t, u|by apply IH].
Qed.

Lemma path_target p : path G s t p → t = s ∨ t ∈ (edge_order G).*2.
Proof.
  destruct 1 as [|t u p Hp He]; [by left|]. right.
  apply list_elem_of_fmap. by exists (t, u).
Qed.

(** While the target has not been reached though a path to it
    exists, the frontier is not empty and the level is below the
    number of edges. *)
Lemma bfs_continues k (this_level : frontier) seen p :
  bfs_inv G s k this_level seen →
  bfs_goal G s t k this_level seen →
  path G s t p →
  ¬ (t ∈ this_level.*1) →
  this_level ≠ [] ∧ (k < length (edge_order G))%nat.
Proof.
  intros Hinv Hgoal Hp Hfind.
  assert (¬ (t ∈ seen)) as Ht
    by (intros Hin; by apply Hfind, (inv_target _ _ _ _ _ _ Hgoal)).
  pose proof (bfs_inv_source _ _ _ _ _ Hinv) as Hs.
  destruct (path_exit seen p Hp Hs Ht) as (y & x & Hy & Hx & He).
  assert (this_level ≠ []) as Hne.
  { destruct (inv_closed _ _ _ _ _ Hinv y Hy) as [HyF|Hcl].
    - intros ->. by apply elem_of_nil in HyF.
    - destruct Hx. by apply Hcl. }
  split; [done|].
  pose proof (inv_count _ _ _ _ _ Hinv Hne) as Hcount.
  assert (t :: seen ⊆+ s :: (edge_order G).*2) as Hsub.
  { apply NoDup_submseteq.
    - constructor; [done|apply (inv_nodup _ _ _ _ _ Hinv)].
    - intros z [->|Hz]%elem_of_cons.
      + destruct (path_target p Hp) as [->|?]; set_solver.
      + destruct (inv_edges _ _ _ _ _ Hinv z Hz) as [->|?]; set_solver. }
  apply submseteq_length in Hsub. simpl in Hsub. rewrite length_fmap in Hsub. lia.
Qed.

(** With the fuel that [shortest_path] gives it, the search finds the
    target whenever there is a path to it. *)
Lemma bfs_path_complete fuel k this_level seen p :
  bfs_inv G s k this_level seen →
  bfs_goal G s t k this_level seen →
  path G s t p →
  (length (edge_order G) ≤ fuel + k)%nat →
  is_Some (bfs_path fuel G t this_level seen).
Proof.
  revert k this_level seen.
  induction fuel as [|fuel IH]; intros k F seen Hinv Hgoal Hp Hfuel.
  - simpl. destruct (List.find _ F) as [e|] eqn:Hfind; [by eexists|].
    apply find_reaches_None in Hfind.
    destruct (bfs_continues k F seen p Hinv Hgoal Hp Hfind). lia.
  - simpl. destruct (List.find _ F) as [e|] eqn:Hfind; [by eexists|].
    apply find_reaches_None in Hfind.
    destruct (bfs_continues k F seen p Hinv Hgoal Hp Hfind) as [Hne Hk].
    destruct F as [|e F]; [done|].
    destruct (expand G (e :: F) seen []) as [seen' next] eqn:Hexp.
    apply (IH (S k)); [by eapply bfs_inv_step|by eapply bfs_goal_step|done|lia].
Qed.
End bfs_path.

(** [shortest_path] returns a path with the fewest edges, and raises
    [NetworkXNoPath] only when there is no path. *)
Lemma shortest_path_inr G s t p :
  shortest_path G s t = inr p →
  has_node G s = true ∧ has_node G t = true ∧
  path G s t p ∧ ∀ p', path G s t p' → (length p ≤ length p')%nat.
Proof.
  unfold shortest_path.
  destruct (has_node G s); [|done]. destruct (has_node G t); [|done]. simpl.
  destruct (bfs_path _ _ _ _ _) as [p0|] eqn:Hbfs; [|done]. intros [= <-].
  destruct (bfs_path_sound G s t _ _ _ _ _ (bfs_inv_start G s) (bfs_goal_start G s t) Hbfs)
    as [Hp Hmin].
  done.
Qed.

Lemma shortest_path_inl G s t e :
  shortest_path G s t = inl e →
  (has_node G s = false ∧ e = NodeNotFound s) ∨
  (has_node G s = true ∧ has_node G t = false ∧ e = NodeNotFound t) ∨
  (has_node G s = true ∧ has_node G t = true ∧ e = NetworkXNoPath s t ∧
   ∀ p, ¬ path G s t p).
Proof.
  unfold shortest_path.
  destruct (has_node G s); simpl; [|intros [= <-]; by left].
  destruct (has_node G t); simpl; [|intros [= <-]; right; by left].
  destruct (bfs_path _ _ _ _ _) as [p0|] eqn:Hbfs; [done|]. intros [= <-].
  right; right. split_and!; [done..|]. intros p Hp.
  destruct (bfs_path_complete G s t (bfs_fuel G) 0 [(s, [])] [s] p) as [p' Hp'].
  - apply bfs_inv_start.
  - apply bfs_goal_start.
  - done.
  - unfold bfs_fuel. lia.
  - congruence.
Qed.

(** [descendants] returns, without repetition, the nodes other than
    the source that have a path from it, and raises only for a source
    that is not in the graph. *)
Lemma descendants_inr G s ds :
  descendants G s = inr ds →
  has_node G s = true ∧ NoDup ds ∧ ∀ x, x ∈ ds ↔ x ≠ s ∧ ∃ p, path G s x p.
Proof.
  unfold descendants. destruct (has_node G s); [|done]. intros [= <-].
  split; [done|]. split.
  - apply NoDup_filter. rewrite reverse_Permutation.
    apply (bfs_nodes_NoDup G s _ 0), bfs_inv_start.
  - intros x. rewrite list_elem_of_filter, elem_of_reverse.
    rewrite (bfs_nodes_spec G s _ 0); [done|apply bfs_inv_start|unfold bfs_fuel; lia].
Qed.

Lemma descendants_inl G s e :
  descendants G s = inl e → has_node G s = false ∧ e = NetworkXError s.
Proof. unfold descendants. destruct (has_node G s); [done|]. by intros [= <-]. Qed.

Lemma has_path_true G s t :
  has_path G s t = inr true ↔
  has_node G s = true ∧ has_node G t = true ∧ ∃ p, path G s t p.
Proof.
  unfold has_path. destruct (shortest_path G s t) as [e|p] eqn:Hsp.
  - apply shortest_path_inl in Hsp as [(Hs & ->)|[(Hs & Ht & ->)|(Hs & Ht & -> & Hno)]].
    + split; [done|]. intros (? & _). congruence.
    + split; [done|]. intros (_ & ? & _). congruence.
    + split; [done|]. intros (_ & _ & p & Hp). by destruct (Hno p).
  - apply shortest_path_inr in Hsp as (Hs & Ht & Hp & _).
    split; [|done]. intros _. split_and!; [done..|]. by exists p.
Qed.

Lemma has_path_raises G s t e :
  has_path G s t = inl e →
  (has_node G s = false ∨ has_node G t = false) ∧ ∃ n, e = NodeNotFound n.
Proof.
  unfold has_path. destruct (shortest_path G s t) as [e'|p] eqn:Hsp; [|done].
  apply shortest_path_inl in Hsp as [(Hs & ->)|[(Hs & Ht & ->)|(Hs & Ht & -> & Hno)]];
    [intros [= <-]; eauto..|done].
Qed.

(** ** query_reachable_vulnerabilities: what the result holds *)

Lemma affected_loop_sound G project node comps acc l exc x :
  affected_loop G project node comps acc = (l, exc) →
  x ∈ l →
  x ∈ acc ∨ ∃ comp p, comp ∈ comps ∧ shortest_path G project comp = inr p ∧
                       x = reachable_entry G node comp p.
Proof.
  revert acc. induction comps as [|comp comps IH]; intros acc; simpl.
  - intros [= <- <-]. by left.
  - destruct (has_path G project comp) as [e|[|]]; [intros [= <- <-]; by left| |].
    + destruct (shortest_path G project comp) as [e|p] eqn:Hsp;
        [intros [= <- <-]; by left|].
      intros Hloop Hx. destruct (IH _ Hloop Hx) as [Hacc|(c & p' & ? & ? & ?)].
      * apply elem_of_app in Hacc as [?| ->%list_elem_of_singleton]; [by left|].
        right. exists comp, p. set_solver.
      * right. exists c, p'. set_solver.
    + intros Hloop Hx. destruct (IH _ Hloop Hx) as [?|(c & p' & ? & ? & ?)]; [by left|].
      right. exists c, p'. set_solver.
Qed.

Lemma affected_loop_raises G project node comps acc l e :
  affected_loop G project node comps acc = (l, Some e) → ∃ n, e = NodeNotFound n.
Proof.
  revert acc. induction comps as [|comp comps IH]; intros acc; simpl; [done|].
  destruct (has_path G project comp) as [e'|[|]] eqn:Hhp.
  - intros [= <- <-]. by apply has_path_raises in Hhp as [_ ?].
  - apply has_path_true in Hhp as (_ & _ & p & Hp).
    destruct (shortest_path G project comp) as [e'|p'] eqn:Hsp; [|apply IH].
    apply shortest_path_inl in Hsp as [(_ & ->)|[(_ & _ & ->)|(_ & _ & _ & Hno)]];
      intros [= <- <-]; eauto. by destruct (Hno p).
  - apply IH.
Qed.

Lemma affected_loop_complete G project node comps acc :
  has_node G project = true →
  (∀ comp, comp ∈ comps → has_node G comp = true) →
  ∃ l, affected_loop G project node comps acc = (l, None) ∧
       (∀ x, x ∈ acc → x ∈ l) ∧
       ∀ comp p, comp ∈ comps → path G project comp p →
         ∃ p', shortest_path G project comp = inr p' ∧
               reachable_entry G node comp p' ∈ l.
Proof.
  intros Hproject. revert acc. induction comps as [|comp comps IH]; intros acc Hcomps; simpl.
  - exists acc. split_and!; [done..|]. set_solver.
  - assert (has_node G comp = true) as Hcomp by (apply Hcomps; set_solver).
    assert (∀ c, c ∈ comps → has_node G c = true) as Hrest by set_solver.
    destruct (has_path G project comp) as [e|[|]] eqn:Hhp.
    + apply has_path_raises in Hhp as [[?|?] _]; congruence.
    + apply has_path_true in Hhp as (_ & _ & p0 & Hp0).
      destruct (shortest_path G project comp) as [e|p'] eqn:Hsp.
      { apply shortest_path_inl in Hsp as [(? & _)|[(_ & ? & _)|(_ & _ & _ & Hno)]];
          [congruence..|by destruct (Hno p0)]. }
      destruct (IH (acc ++ [reachable_entry G node comp p']) Hrest) as (l & -> & Hacc & Hall).
      exists l. split_and!; [done|set_solver|].
      intros c p [-> |Hc]%elem_of_cons Hp; [|by eapply Hall].
      exists p'. split; [done|]. apply Hacc. set_solver.
    + destruct (IH acc Hrest) as (l & -> & Hacc & Hall).
      exists l. split_and!; [done..|].
      intros c p [-> |Hc]%elem_of_cons Hp; [|by eapply Hall].
      assert (has_path G project comp = inr true) as Ht by (apply has_path_true; eauto).
      congruence.
Qed.

Lemma nodes_loop_sound G project nodes acc l x :
  nodes_loop G project nodes acc = inr l →
  x ∈ l →
  x ∈ acc ∨ ∃ node comp p,
    node ∈ nodes ∧ is_vulnerability G node ∧ comp ∈ predecessors G node ∧
    shortest_path G project comp = inr p ∧ x = reachable_entry G node comp p.
Proof.
  revert acc. induction nodes as [|node nodes IH]; intros acc; simpl.
  - intros [= <-]. by left.
  - destruct (_node G !! node) as [attr|] eqn:Hattr; [|done].
    case_bool_decide as Htype.
    + destruct (affected_loop _ _ _ _ _) as [l' exc] eqn:Hloop.
      assert (nodes_loop G project nodes l' = inr l → x ∈ l →
              x ∈ acc ∨ ∃ node0 comp p, node0 ∈ node :: nodes ∧ is_vulnerability G node0 ∧
                comp ∈ predecessors G node0 ∧ shortest_path G project comp = inr p ∧
                x = reachable_entry G node0 comp p) as Hcont.
      { intros Hrest Hx. destruct (IH _ Hrest Hx) as [Hl'|(n & c & p & ? & ? & ? & ? & ?)].
        - destruct (affected_loop_sound _ _ _ _ _ _ _ _ Hloop Hl') as [?|(c & p & ? & ? & ?)];
            [by left|].
          right. exists node, c, p. split_and!; [set_solver| |done..].
          unfold is_vulnerability, node_get. by rewrite Hattr.
        - right. exists n, c, p. set_solver. }
      destruct exc as [[]|]; try done; apply Hcont.
    + intros Hrest Hx. destruct (IH _ Hrest Hx) as [?|(n & c & p & ? & ? & ? & ? & ?)];
        [by left|].
      right. exists n, c, p. set_solver.
Qed.

Lemma nodes_loop_returns G project nodes acc :
  (∀ node, node ∈ nodes → is_Some (_node G !! node)) →
  ∃ l, nodes_loop G project nodes acc = inr l ∧ ∀ x, x ∈ acc → x ∈ l.
Proof.
  revert acc. induction nodes as [|node nodes IH]; intros acc Hnodes; simpl.
  - by exists acc.
  - destruct (Hnodes node) as [attr ->]; [set_solver|].
    assert (∀ n, n ∈ nodes → is_Some (_node G !! n)) as Hrest by set_solver.
    case_bool_decide as Htype; [|by apply IH].
    destruct (affected_loop _ _ _ _ _) as [l' exc] eqn:Hloop.
    assert (∀ x, x ∈ acc → x ∈ l') as Hmono.
    { clear -Hloop. revert acc Hloop.
      induction (predecessors G node) as [|comp comps IHc]; intros acc; simpl.
      - by intros [= <- <-].
      - destruct (has_path G project comp) as [e|[|]]; [by intros [= <- <-]| |by apply IHc].
        destruct (shortest_path G project comp) as [e|p]; [by intros [= <- <-]|].
        intros Hloop x Hx. eapply IHc; [done|]. set_solver. }
    destruct (IH l' Hrest) as (l & Hl & Hl').
    destruct exc as [e|].
    + apply affected_loop_raises in Hloop as [n ->]. exists l. split; [done|]. auto.
    + exists l. split; [done|]. auto.
Qed.

Lemma nodes_loop_complete G project nodes acc l :
  has_node G project = true →
  (∀ node comp, node ∈ nodes → comp ∈ predecessors G node → has_node G comp = true) →
  nodes_loop G project nodes acc = inr l →
  (∀ x, x ∈ acc → x ∈ l) ∧
  ∀ node comp p, node ∈ nodes → is_vulnerability G node →
    comp ∈ predecessors G node → path G project comp p →
    ∃ p', shortest_path G project comp = inr p' ∧ reachable_entry G node comp p' ∈ l.
Proof.
  intros Hproject. revert acc. induction nodes as [|node nodes IH]; intros acc Hcomps; simpl.
  - intros [= <-]. split; [done|]. set_solver.
  - destruct (_node G !! node) as [attr|] eqn:Hattr; [|done].
    assert (∀ n c, n ∈ nodes → c ∈ predecessors G n → has_node G c = true) as Hrest
      by (intros n c ??; apply (Hcomps n c); set_solver).
    case_bool_decide as Htype.
    + destruct (affected_loop_complete G project node (predecessors G node) acc Hproject)
        as (l' & -> & Hacc & Hall); [intros c ?; apply (Hcomps node c); set_solver|].
      intros Hloop. destruct (IH _ Hrest Hloop) as [Hl' Hnodes].
      split; [auto|].
      intros n c p [-> |Hn]%elem_of_cons Hv Hc Hp; [|by eapply Hnodes].
      destruct (Hall c p Hc Hp) as (p' & ? & ?). exists p'. auto.
    + intros Hloop. destruct (IH _ Hrest Hloop) as [Hl' Hnodes].
      split; [done|].
      intros n c p [-> |Hn]%elem_of_cons Hv Hc Hp; [|by eapply Hnodes].
      unfold is_vulnerability, node_get in Hv. rewrite Hattr in Hv. simpl in Hv. done.
Qed.

(** A path starts at its source, ends at its target, and follows
    edges; every such list is a path. *)
Lemma path_spec G s t p :
  path G s t p ↔
  head p = Some s ∧ last p = Some t ∧
  ∀ i x y, p !! i = Some x → p !! S i = Some y → (x, y) ∈ edge_order G.
Proof.
  split.
  - induction 1 as [|t u p Hp (Hhead & Hlast & Hedges) He].
    + split_and!; [done..|]. by intros [|i] x y.
    + split_and!.
      * destruct p; [done|]. done.
      * by rewrite last_snoc.
      * intros i x y Hx Hy.
        destruct (decide (S i < length p)%nat) as [Hlt|Hge].
        { rewrite lookup_app_l in Hx by lia. rewrite lookup_app_l in Hy by lia. eauto. }
        assert (S i = length p) as Hi.
        { apply lookup_lt_Some in Hy. rewrite length_app in Hy. simpl in Hy. lia. }
        rewrite lookup_app_l in Hx by lia.
        rewrite lookup_app_r, Hi, Nat.sub_diag in Hy by lia. simpl in Hy.
        rewrite last_lookup, <- Hi in Hlast. simpl in Hlast. congruence.
  - revert t. induction p as [|u p IH] using rev_ind; intros t (Hhead & Hlast & Hedges).
    + done.
    + rewrite last_snoc in Hlast. injection Hlast as ->.
      destruct (last p) as [t0|] eqn:Hlast0.
      * apply path_snoc with t0.
        -- apply IH. split_and!; [by destruct p|done|].
           intros i x y Hx Hy. apply (Hedges i).
           ++ by apply lookup_app_l_Some.
           ++ by apply lookup_app_l_Some.
        -- rewrite last_lookup in Hlast0.
           assert (0 < length p)%nat as Hlen.
           { destruct p; [done|simpl; lia]. }
           apply (Hedges (pred (length p))).
           ++ by apply lookup_app_l_Some.
           ++ rewrite lookup_app_r by lia.
              replace (S (pred (length p)) - length p)%nat with 0%nat by lia. done.
      * apply last_None in Hlast0 as ->. simpl in Hhead. injection Hhead as ->.
        constructor.
Qed.


(** ** Graphs of the data model *)

Lemma typed_unfold G :
  typed G = true →
  NoDup (node_order G) ∧
  (∀ n, n ∈ node_order G ↔ has_node G n = true) ∧
  NoDup (edge_order G) ∧
  (∀ e, e ∈ edge_order G ↔ is_Some (_adj G !! e)) ∧
  (∀ u v, (u, v) ∈ edge_order G → has_node G u = true ∧ has_node G v = true) ∧
  (∀ n, n ∈ node_order G → node_ok G n = true) ∧
  (∀ e, e ∈ edge_order G → edge_ok G e = true).
Proof.
  unfold typed, well_formed. rewrite !andb_true_iff, !bool_decide_eq_true.
  intros [[[[[[Hnd Hdom] Hend] Hedom] Hends] Hnodes] Hedges].
  rewrite forallb_forall in Hends, Hnodes, Hedges.
  split_and!; [done| |done| | | |].
  - intros n. by rewrite has_node_dom, <- Hdom, elem_of_list_to_set.
  - intros e. by rewrite <- elem_of_dom, <- Hedom, elem_of_list_to_set.
  - intros u v Hin. apply list_elem_of_In, Hends in Hin.
    by apply andb_true_iff in Hin.
  - intros n Hin. by apply Hnodes, list_elem_of_In.
  - intros e Hin. by apply Hedges, list_elem_of_In.
Qed.

Lemma typed_node_type G n :
  typed G = true → has_node G n = true →
  node_get G n "type" = Some (VStr (kind_of_id n)).
Proof.
  intros (_ & Hin & _ & _ & _ & Hok & _)%typed_unfold Hn.
  apply Hin, Hok in Hn. unfold node_ok in Hn.
  apply andb_true_iff in Hn as [Ht _]. by apply bool_decide_eq_true in Ht.
Qed.

Lemma typed_vuln_id G n :
  typed G = true → has_node G n = true → kind_of_id n = "vulnerability" →
  ∃ vuln_id, node_get G n "id" = Some (VStr vuln_id) ∧ n = vuln_node vuln_id.
Proof.
  intros (_ & Hin & _ & _ & _ & Hok & _)%typed_unfold Hn Hkind.
  apply Hin, Hok in Hn. unfold node_ok in Hn.
  apply andb_true_iff in Hn as [_ Hid].
  rewrite bool_decide_eq_true_2 in Hid by done.
  destruct (node_get G n "id") as [[i|]|]; [|done..].
  apply bool_decide_eq_true in Hid. by exists i.
Qed.

Lemma typed_edge G u v :
  typed G = true → (u, v) ∈ edge_order G →
  (kind_of_id u = "project" ∧ kind_of_id v = "component" ∧ has_edge G "DEPENDS_ON" u v) ∨
  (kind_of_id u = "component" ∧ kind_of_id v = "vulnerability" ∧
   has_edge G "AFFECTED_BY" u v).
Proof.
  intros (_ & _ & _ & _ & _ & _ & Hok)%typed_unfold Hin.
  pose proof (Hok _ Hin) as He. unfold edge_ok in He. simpl in He.
  apply orb_true_iff in He as [He|He];
    rewrite !andb_true_iff, !bool_decide_eq_true in He; destruct He as [[??]?];
    [left|right]; by split_and!.
Qed.

Lemma kind_of_project_node project_id : kind_of_id (project_node project_id) = "project".
Proof. unfold kind_of_id, project_node. cbn. by destruct (pretty project_id). Qed.

Lemma kind_of_vuln_node vuln_id : kind_of_id (vuln_node vuln_id) = "vulnerability".
Proof. unfold kind_of_id, vuln_node. cbn. by destruct vuln_id. Qed.

Lemma vuln_node_inj a b : vuln_node a = vuln_node b → a = b.
Proof. unfold vuln_node. simpl. by intros [=]. Qed.

(** In a graph of the data model the paths from a project node to a
    component node are the single edges, which are DEPENDS_ON edges. *)
Lemma typed_path G s t p :
  typed G = true → path G s t p →
  kind_of_id s = "project" → kind_of_id t = "component" →
  p = [s; t] ∧ has_edge G "DEPENDS_ON" s t.
Proof.
  intros Htyped Hp Hs Ht. destruct Hp as [|t0 t p Hp He]; [congruence|].
  destruct (typed_edge _ _ _ Htyped He) as [(Ht0 & _ & Hedge)|(_ & ? & _)]; [|congruence].
  destruct Hp as [|t1 t0 p Hp He0]; [done|].
  destruct (typed_edge _ _ _ Htyped He0) as [(_ & ? & _)|(_ & ? & _)]; congruence.
Qed.

(** ** Ingestion keeps the graph in the data model *)

Lemma node_ok_spec G n :
  node_ok G n = true ↔
  node_get G n "type" = Some (VStr (kind_of_id n)) ∧
  (kind_of_id n = "vulnerability" →
   ∃ vuln_id, node_get G n "id" = Some (VStr vuln_id) ∧ n = vuln_node vuln_id).
Proof.
  unfold node_ok. rewrite andb_true_iff, bool_decide_eq_true.
  apply and_iff_compat_l. case_bool_decide as Hk.
  - destruct (node_get G n "id") as [[i|]|].
    + rewrite bool_decide_eq_true. split; [by exists i|].
      intros Hi. destruct (Hi Hk) as (j & [= ->] & ?). done.
    + split; [done|]. intros Hi. by destruct (Hi Hk) as (j & [=] & ?).
    + split; [done|]. intros Hi. by destruct (Hi Hk) as (j & [=] & ?).
  - by split.
Qed.

Lemma edge_ok_spec G e :
  edge_ok G e = true ↔
  (kind_of_id e.1 = "project" ∧ kind_of_id e.2 = "component" ∧
   edge_get G e.1 e.2 "relationship" = Some (VStr "DEPENDS_ON")) ∨
  (kind_of_id e.1 = "component" ∧ kind_of_id e.2 = "vulnerability" ∧
   edge_get G e.1 e.2 "relationship" = Some (VStr "AFFECTED_BY")).
Proof.
  unfold edge_ok. rewrite orb_true_iff, !andb_true_iff, !bool_decide_eq_true. tauto.
Qed.

Lemma typed_spec G :
  typed G = true ↔
  NoDup (node_order G) ∧
  (∀ n, n ∈ node_order G ↔ has_node G n = true) ∧
  NoDup (edge_order G) ∧
  (∀ e, e ∈ edge_order G ↔ is_Some (_adj G !! e)) ∧
  (∀ u v, (u, v) ∈ edge_order G → has_node G u = true ∧ has_node G v = true) ∧
  (∀ n, n ∈ node_order G → node_ok G n = true) ∧
  (∀ e, e ∈ edge_order G → edge_ok G e = true).
Proof.
  split; [apply typed_unfold|].
  intros (Hnd & Hin & Hend & Hein & Hends & Hnodes & Hedges).
  unfold typed, well_formed. rewrite !andb_true_iff, !bool_decide_eq_true.
  rewrite !forallb_forall. split_and!; [done| |done| | | |].
  - apply set_eq. intros n. by rewrite elem_of_list_to_set, Hin, has_node_dom.
  - apply set_eq. intros e. by rewrite elem_of_list_to_set, Hein, elem_of_dom.
  - intros [u v] Hin'%list_elem_of_In. apply andb_true_iff. by apply Hends.
  - intros n Hn%list_elem_of_In. by apply Hnodes.
  - intros e He%list_elem_of_In. by apply Hedges.
Qed.

Lemma node_get_add_node n attr G m key :
  node_get (add_node n attr G) m key =
    if decide (n = m) then attr !! key ∪ node_get G n key else node_get G m key.
Proof.
  change (oget (node_dict (add_node n attr G)) m key =
          if decide (n = m) then attr !! key ∪ oget (node_dict G) n key
          else oget (node_dict G) m key).
  rewrite node_dict_add_node. apply oget_upsert.
Qed.

Lemma edge_get_add_node n attr G u v key :
  edge_get (add_node n attr G) u v key = edge_get G u v key.
Proof. unfold edge_get, add_node. by destruct (_node G !! n). Qed.

Lemma has_node_add_node n attr G m :
  has_node (add_node n attr G) m = true ↔ n = m ∨ has_node G m = true.
Proof. rewrite !has_node_dom, dom_node_add_node. set_solver. Qed.

Lemma node_order_add_node n attr G :
  node_order (add_node n attr G) =
    if has_node G n then node_order G else node_order G ++ [n].
Proof.
  destruct (has_node G n) eqn:Hn.
  - apply has_node_dom, elem_of_dom in Hn as [old E]. unfold add_node. by rewrite E.
  - apply has_node_false, not_elem_of_dom in Hn. unfold add_node. by rewrite Hn.
Qed.

Lemma edge_order_add_node n attr G : edge_order (add_node n attr G) = edge_order G.
Proof. unfold add_node. by destruct (_node G !! n). Qed.

Lemma adj_add_node n attr G : _adj (add_node n attr G) = _adj G.
Proof. unfold add_node. by destruct (_node G !! n). Qed.

Lemma typed_add_node n attr G :
  suits n attr → typed G = true → typed (add_node n attr G) = true.
Proof.
  intros [Htype Hid]. rewrite !typed_spec.
  intros (Hnd & Hin & Hend & Hein & Hends & Hnodes & Hedges).
  assert (∀ m, m ∈ node_order (add_node n attr G) ↔ n = m ∨ has_node G m = true) as Hin'.
  { intros m. rewrite node_order_add_node. destruct (has_node G n) eqn:Hn.
    - rewrite Hin. split; [auto|]. by intros [<-|?].
    - rewrite elem_of_app, list_elem_of_singleton, Hin. naive_solver. }
  split_and!.
  - rewrite node_order_add_node. destruct (has_node G n) eqn:Hn; [done|].
    apply NoDup_app. split_and!; [done| |apply NoDup_singleton].
    intros m Hm ->%list_elem_of_singleton. apply Hin in Hm. congruence.
  - intros m. by rewrite Hin', has_node_add_node.
  - by rewrite edge_order_add_node.
  - intros e. by rewrite edge_order_add_node, adj_add_node.
  - intros u v. rewrite edge_order_add_node, !has_node_add_node.
    intros [??]%Hends. auto.
  - intros m Hm%Hin'. apply node_ok_spec. rewrite !node_get_add_node.
    destruct (decide (n = m)) as [<-|Hne].
    + rewrite Htype, union_Some_l. split; [done|].
      intros Hk. destruct (Hid Hk) as (i & Hi & ->). exists i.
      by rewrite Hi, union_Some_l.
    + destruct Hm as [?|Hm]; [done|]. by apply node_ok_spec, Hnodes, Hin.
  - intros e He. rewrite edge_order_add_node in He. apply Hedges in He.
    apply edge_ok_spec. apply edge_ok_spec in He. by rewrite !edge_get_add_node.
Qed.

Lemma put_edge_node_order u v attr G : node_order (put_edge u v attr G) = node_order G.
Proof. unfold put_edge. by destruct (_adj G !! (u, v)). Qed.

Lemma put_edge_node u v attr G : _node (put_edge u v attr G) = _node G.
Proof. unfold put_edge. by destruct (_adj G !! (u, v)). Qed.

Lemma edge_order_put_edge u v attr G :
  edge_order (put_edge u v attr G) =
    if decide (is_Some (_adj G !! (u, v))) then edge_order G else edge_order G ++ [(u, v)].
Proof.
  case_decide as Huv.
  - destruct Huv as [old E]. unfold put_edge. by rewrite E.
  - unfold put_edge. destruct (_adj G !! (u, v)) eqn:E; [|done]. destruct Huv. by eexists.
Qed.

Lemma is_Some_adj_put_edge u v attr G e :
  is_Some (_adj (put_edge u v attr G) !! e) ↔ (u, v) = e ∨ is_Some (_adj G !! e).
Proof. rewrite <- !elem_of_dom, dom_adj_put_edge. set_solver. Qed.

Lemma edge_get_put_edge u v attr G u' v' key :
  edge_get (put_edge u v attr G) u' v' key =
    if decide ((u, v) = (u', v')) then attr !! key ∪ edge_get G u v key
    else edge_get G u' v' key.
Proof.
  change (oget (edge_dict (put_edge u v attr G)) (u', v') key =
          if decide ((u, v) = (u', v')) then attr !! key ∪ oget (edge_dict G) (u, v) key
          else oget (edge_dict G) (u', v') key).
  rewrite edge_dict_put_edge. apply oget_upsert.
Qed.

Lemma add_edge_present u v attr G :
  has_node G u = true → has_node G v = true → add_edge u v attr G = put_edge u v attr G.
Proof. intros Hu Hv. unfold add_edge, touch_node. by rewrite Hu, Hv. Qed.

Lemma typed_add_edge r u v G :
  edge_kinds r u v →
  has_node G u = true → has_node G v = true →
  typed G = true → typed (add_edge u v (relationship r) G) = true.
Proof.
  intros Hkinds Hu Hv. rewrite add_edge_present by done. rewrite !typed_spec.
  intros (Hnd & Hin & Hend & Hein & Hends & Hnodes & Hedges).
  assert (∀ e, e ∈ edge_order (put_edge u v (relationship r) G) ↔
               (u, v) = e ∨ is_Some (_adj G !! e)) as Hein'.
  { intros e. rewrite edge_order_put_edge. case_decide as Huv.
    - rewrite Hein. split; [auto|]. by intros [<-|?].
    - rewrite elem_of_app, list_elem_of_singleton, Hein. naive_solver. }
  unfold has_node, node_ok, node_get in *.
  split_and!.
  - by rewrite put_edge_node_order.
  - intros n. by rewrite put_edge_node_order, put_edge_node.
  - rewrite edge_order_put_edge. case_decide as Huv; [done|].
    apply NoDup_app. split_and!; [done| |apply NoDup_singleton].
    intros e He ->%list_elem_of_singleton. by apply Hein in He.
  - intros e. by rewrite Hein', is_Some_adj_put_edge.
  - intros u' v' [[= <- <-]|He]%Hein'; rewrite put_edge_node; [done|].
    by apply Hends, Hein.
  - intros n. rewrite put_edge_node_order, put_edge_node. apply Hnodes.
  - intros [u' v'] He%Hein'. apply edge_ok_spec. simpl.
    rewrite edge_get_put_edge. destruct (decide ((u, v) = (u', v'))) as [[= <- <-]|Hne].
    + unfold relationship. rewrite lookup_singleton_eq, union_Some_l.
      destruct Hkinds as [(? & ? & ->)|(? & ? & ->)]; [by left|by right].
    + destruct He as [?|He]; [done|].
      apply Hein, Hedges, edge_ok_spec in He. done.
Qed.

Lemma suits_vuln vuln_id : suits (vuln_node vuln_id) (vuln_attrs vuln_id).
Proof.
  split; [by rewrite kind_of_vuln_node|]. intros _. by exists vuln_id.
Qed.

Lemma suits_project project_id repo_url :
  suits (project_node project_id) (project_attrs repo_url).
Proof.
  split; [by rewrite kind_of_project_node|]. by rewrite kind_of_project_node.
Qed.

Lemma suits_component comp :
  kind_of_id (component_node comp) = "component" →
  suits (component_node comp) (component_attrs comp).
Proof. intros Hk. split; rewrite Hk; done. Qed.

Lemma extends_has_node g g' n : extends g g' → has_node g n = true → has_node g' n = true.
Proof. rewrite !has_node_dom. intros [? _]. set_solver. Qed.

Lemma typed_ingest_vuln node_id G vuln_id :
  kind_of_id node_id = "component" → has_node G node_id = true →
  typed G = true → typed (ingest_vuln node_id G vuln_id) = true.
Proof.
  intros Hk Hn Htyped. unfold ingest_vuln.
  set (G' := if has_node G (vuln_node vuln_id) then G else _).
  assert (typed G' = true) as Htyped'.
  { unfold G'. destruct (has_node G (vuln_node vuln_id)); [done|].
    by apply typed_add_node; [apply suits_vuln|]. }
  assert (has_node G' (vuln_node vuln_id) = true) as Hv.
  { apply has_node_dom. unfold G'. rewrite dom_node_add_missing. set_solver. }
  assert (has_node G' node_id = true) as Hn'.
  { apply has_node_dom. apply has_node_dom in Hn. unfold G'.
    rewrite dom_node_add_missing. set_solver. }
  apply typed_add_edge; [|done..]. right. by rewrite kind_of_vuln_node.
Qed.

Lemma typed_ingest_component project_id G comp :
  kind_of_id (component_node comp) = "component" →
  has_node G (project_node project_id) = true →
  typed G = true → typed (ingest_component project_id G comp) = true.
Proof.
  intros Hk Hp Htyped. unfold ingest_component.
  set (G1 := add_node _ _ G).
  assert (typed G1 = true) as Ht1 by by apply typed_add_node; [apply suits_component|].
  assert (has_node G1 (component_node comp) = true) as Hc1
    by (apply has_node_add_node; by left).
  assert (has_node G1 (project_node project_id) = true) as Hp1
    by (apply has_node_add_node; by right).
  set (G2 := add_edge _ _ _ G1).
  assert (typed G2 = true) as Ht2.
  { apply typed_add_edge; [|done..]. left. by rewrite kind_of_project_node. }
  assert (has_node G2 (component_node comp) = true) as Hc2.
  { apply has_node_dom. unfold G2. rewrite dom_node_add_edge. set_solver. }
  clearbody G2. clear -Hk Ht2 Hc2. revert G2 Ht2 Hc2.
  induction (c_vulnerabilities comp) as [|v vs IH]; intros G2 Ht2 Hc2; simpl; [done|].
  apply IH.
  - by apply typed_ingest_vuln.
  - eapply extends_has_node; [apply ingest_vuln_extends|done].
Qed.

(** [ingest] keeps a graph in the data model when the ids of the
    component nodes read as component ids. *)
Lemma ingest_typed comps project_id repo_url G :
  Forall (λ comp, kind_of_id (component_node comp) = "component") comps →
  typed G = true → typed (ingest comps project_id repo_url G) = true.
Proof.
  intros Hcomps Htyped. unfold ingest.
  set (G1 := add_node _ _ G).
  assert (typed G1 = true) as Ht1 by by apply typed_add_node; [apply suits_project|].
  assert (has_node G1 (project_node project_id) = true) as Hp1
    by (apply has_node_add_node; by left).
  clearbody G1. clear -Hcomps Ht1 Hp1. revert G1 Ht1 Hp1.
  induction Hcomps as [|comp comps Hk Hrest IH]; intros G1 Ht1 Hp1; simpl; [done|].
  apply IH.
  - by apply typed_ingest_component.
  - eapply extends_has_node; [apply ingest_component_extends|done].
Qed.

Lemma empty_graph_typed : typed empty_graph = true.
Proof. reflexivity. Qed.

(** Every graph that [generate_sbom] makes from a graph of the data
    model is one: the graphs a [SmartSBOMGraph] goes through, from the
    empty graph on, are graphs of the data model. *)
Lemma generate_sbom_typed self project_id repo_url :
  typed (graph self) = true →
  typed (graph (generate_sbom self project_id repo_url).2) = true.
Proof.
  intros Htyped. simpl. apply ingest_typed; [|done].
  repeat constructor.
Qed.

(** ** The paths of the entries *)

(** C2, as the code has it: the path of an entry is a shortest path of
    the graph from the project node to the component node through
    which the vulnerability was found, a predecessor of the
    vulnerability node.  It starts at the project node, ends at that
    component node (not at the vulnerability node), follows edges of
    the graph, and no path of the graph from the project node to the
    component has fewer nodes.  The code has no rule for a tie between
    paths of the same length; in a graph of the data model none arises,
    the path being the only path from the project to the component. *)
Theorem query_reachable_vulnerabilities_path G project_id vulnerable_component l e :
  query_reachable_vulnerabilities G project_id vulnerable_component = inr l →
  e ∈ l →
  ∃ node comp,
    node ∈ node_order G ∧ is_vulnerability G node ∧
    (comp, node) ∈ edge_order G ∧
    r_vulnerability e = node_get G node "id" ∧
    r_component e = node_get G comp "name" ∧
    r_version e = node_get G comp "version" ∧
    head (r_path e) = Some (project_node project_id) ∧
    last (r_path e) = Some comp ∧
    (∀ i x y, r_path e !! i = Some x → r_path e !! S i = Some y →
       (x, y) ∈ edge_order G) ∧
    (∀ p, path G (project_node project_id) comp p →
       (length (r_path e) ≤ length p)%nat) ∧
    (typed G = true →
       ∀ p, path G (project_node project_id) comp p → p = r_path e).
Proof.
  unfold query_reachable_vulnerabilities. intros Hq He.
  destruct (nodes_loop_sound _ _ _ _ _ _ Hq He)
    as [Hnil|(node & comp & p & Hnode & Hv & Hcomp & Hsp & ->)];
    [by apply elem_of_nil in Hnil|].
  apply shortest_path_inr in Hsp as (_ & Hcn & Hp & Hmin).
  pose proof Hp as (Hhead & Hlast & Hedges)%path_spec.
  exists node, comp. split_and!; try done; [by apply elem_of_predecessors|].
  intros Htyped p' Hp'. simpl.
  apply elem_of_predecessors in Hcomp.
  assert (kind_of_id comp = "component") as Hk.
  { destruct (typed_edge _ _ _ Htyped Hcomp) as [(_ & Hkn & _)|(? & _ & _)]; [|done].
    pose proof (typed_unfold _ Htyped) as (_ & Hin & _).
    apply Hin in Hnode. unfold is_vulnerability in Hv.
    rewrite (typed_node_type _ _ Htyped Hnode) in Hv. congruence. }
  destruct (typed_path _ _ _ _ Htyped Hp (kind_of_project_node _) Hk) as [-> _].
  by destruct (typed_path _ _ _ _ Htyped Hp' (kind_of_project_node _) Hk) as [-> _].
Qed.

Lemma query_reachable_vulnerabilities_path_witness :
  let G := ingest components 1 "https://example.org/a.git" empty_graph in
  let e := {| r_vulnerability := Some (VStr "CVE-2023-1234");
              r_component := Some (VStr "requests");
              r_version := Some (VStr "2.28.1");
              r_path := ["project_1"; "requests_2.28.1"] |} in
  ∃ l, query_reachable_vulnerabilities G 1 "requests" = inr l ∧ e ∈ l ∧
  ∃ node comp,
    node ∈ node_order G ∧ is_vulnerability G node ∧
    (comp, node) ∈ edge_order G ∧
    r_vulnerability e = node_get G node "id" ∧
    r_component e = node_get G comp "name" ∧
    r_version e = node_get G comp "version" ∧
    head (r_path e) = Some (project_node 1) ∧
    last (r_path e) = Some comp ∧
    (∀ i x y, r_path e !! i = Some x → r_path e !! S i = Some y →
       (x, y) ∈ edge_order G) ∧
    (∀ p, path G (project_node 1) comp p → (length (r_path e) ≤ length p)%nat) ∧
    (typed G = true → ∀ p, path G (project_node 1) comp p → p = r_path e).
Proof.
  intros G e.
  destruct (query_reachable_vulnerabilities G 1 "requests") as [exc|l] eqn:Hq;
    [by vm_compute in Hq|].
  exists l.
  assert (e ∈ l) as He.
  { vm_compute in Hq. injection Hq as <-. apply list_elem_of_here. }
  split; [done|]. split; [done|].
  exact (query_reachable_vulnerabilities_path G 1 "requests" l e Hq He).
Defined.

(** C2 as stated fails on where the path ends.  For the graph of one
    ingested project the entry for CVE-2023-1234 has the path from the
    project node to the node of requests 2.28.1: it does not end at the
    vulnerability node, though the graph has the edge that would take
    it there. *)
Lemma query_reachable_vulnerabilities_path_end :
  let G := ingest components 1 "https://example.org/a.git" empty_graph in
  ∃ e rest,
    query_reachable_vulnerabilities G 1 "requests" = inr (e :: rest) ∧
    r_vulnerability e = Some (VStr "CVE-2023-1234") ∧
    r_path e = ["project_1"; "requests_2.28.1"] ∧
    last (r_path e) ≠ Some (vuln_node "CVE-2023-1234") ∧
    ("requests_2.28.1", vuln_node "CVE-2023-1234") ∈ edge_order G.
Proof.
  intros G. do 2 eexists. split; [by vm_compute|].
  split_and!; [done..|discriminate|].
  apply (bool_decide_unpack _). by vm_compute.
Qed.

(** ** Reachability *)

Lemma typed_entry_appears G project l e :
  typed G = true →
  nodes_loop G project (node_order G) [] = inr l →
  e ∈ l →
  ∃ vuln_id comp p,
    r_vulnerability e = Some (VStr vuln_id) ∧
    is_component G comp ∧
    has_edge G "AFFECTED_BY" comp (vuln_node vuln_id) ∧
    path G project comp p.
Proof.
  intros Htyped Hq He.
  destruct (nodes_loop_sound _ _ _ _ _ _ Hq He)
    as [Hnil|(node & comp & p & Hnode & Hv & Hcomp & Hsp & ->)];
    [by apply elem_of_nil in Hnil|].
  pose proof (typed_unfold _ Htyped) as (_ & Hin & _ & _ & Hends & _).
  apply Hin in Hnode. apply elem_of_predecessors in Hcomp.
  unfold is_vulnerability in Hv. rewrite (typed_node_type _ _ Htyped Hnode) in Hv.
  injection Hv as Hkind.
  destruct (typed_vuln_id _ _ Htyped Hnode Hkind) as (vuln_id & Hid & ->).
  destruct (typed_edge _ _ _ Htyped Hcomp) as [(_ & ? & _)|(Hc & _ & Haff)]; [congruence|].
  apply shortest_path_inr in Hsp as (_ & _ & Hp & _).
  exists vuln_id, comp, p. split_and!; [done| |done..].
  unfold is_component. destruct (Hends _ _ Hcomp) as [Hcn _].
  by rewrite (typed_node_type _ _ Htyped Hcn), Hc.
Qed.

(** C1: in a graph of the data model, [query_reachable_vulnerabilities]
    returns a list, and a vulnerability appears in it exactly when the
    graph has a component node with a DEPENDS_ON edge from the project
    node and an AFFECTED_BY edge to the vulnerability node.  For a
    project without dependencies, or whose dependencies have no
    AFFECTED_BY edge, the list is empty. *)
Theorem query_reachable_vulnerabilities_correct G project_id vulnerable_component :
  typed G = true →
  ∃ l, query_reachable_vulnerabilities G project_id vulnerable_component = inr l ∧
    (∀ vuln_id, appears vuln_id l ↔
       ∃ c, is_component G c ∧
            has_edge G "DEPENDS_ON" (project_node project_id) c ∧
            has_edge G "AFFECTED_BY" c (vuln_node vuln_id)) ∧
    ((∀ c, ¬ has_edge G "DEPENDS_ON" (project_node project_id) c) → l = []) ∧
    ((∀ c v, has_edge G "DEPENDS_ON" (project_node project_id) c →
             ¬ has_edge G "AFFECTED_BY" c v) → l = []).
Proof.
  intros Htyped. unfold query_reachable_vulnerabilities.
  pose proof (typed_unfold _ Htyped) as (_ & Hin & _ & _ & Hends & _).
  set (project := project_node project_id).
  destruct (nodes_loop_returns G project (node_order G) []) as (l & Hq & _).
  { intros node Hnode%Hin. unfold has_node in Hnode. by apply bool_decide_eq_true in Hnode. }
  assert (∀ e, e ∈ l → ∃ vuln_id comp,
            r_vulnerability e = Some (VStr vuln_id) ∧ is_component G comp ∧
            has_edge G "DEPENDS_ON" project comp ∧
            has_edge G "AFFECTED_BY" comp (vuln_node vuln_id)) as Hsound.
  { intros e He.
    destruct (typed_entry_appears _ _ _ _ Htyped Hq He) as (vuln_id & comp & p & ? & Hc & ? & Hp).
    exists vuln_id, comp. split_and!; [done..| |done].
    eapply typed_path; [done..|apply kind_of_project_node|].
    unfold is_component in Hc.
    assert (has_node G comp = true) as Hcn.
    { unfold has_node. apply bool_decide_eq_true. unfold node_get in Hc.
      by destruct (_node G !! comp); [eexists|]. }
    rewrite (typed_node_type _ _ Htyped Hcn) in Hc. by injection Hc. }
  exists l. split; [done|]. split_and!.
  - intros vuln_id. split.
    + intros (e & He & Hid). destruct (Hsound e He) as (i & comp & Hi & ? & ? & ?).
      exists comp. by simplify_eq.
    + intros (c & Hc & [Hdep _] & [Haff _]).
      destruct (Hends _ _ Hdep) as [Hproject Hcn].
      destruct (Hends _ _ Haff) as [_ Hvn].
      destruct (nodes_loop_complete G project (node_order G) [] l Hproject) as [_ Hall];
        [|done|].
      { intros node comp _ Hcomp%elem_of_predecessors. by apply Hends in Hcomp as [? _]. }
      destruct (Hall (vuln_node vuln_id) c ([project] ++ [c])) as (p' & _ & Hentry).
      * by apply Hin.
      * unfold is_vulnerability.
        by rewrite (typed_node_type _ _ Htyped Hvn), kind_of_vuln_node.
      * by apply elem_of_predecessors.
      * econstructor; [constructor|done].
      * eexists. split; [done|]. simpl.
        destruct (typed_vuln_id _ _ Htyped Hvn (kind_of_vuln_node _)) as (i & -> & Hi).
        by apply vuln_node_inj in Hi as ->.
  - intros Hnone. destruct l as [|e l]; [done|].
    destruct (Hsound e) as (i & comp & _ & _ & Hdep & _); [set_solver|].
    by destruct (Hnone comp).
  - intros Hnone. destruct l as [|e l]; [done|].
    destruct (Hsound e) as (i & comp & _ & _ & Hdep & Haff); [set_solver|].
    by destruct (Hnone comp (vuln_node i)).
Qed.

Lemma query_reachable_vulnerabilities_correct_witness :
  let G := ingest components 1 "https://example.org/a.git" empty_graph in
  typed G = true ∧
  ∃ l, query_reachable_vulnerabilities G 1 "requests" = inr l ∧
    (∀ vuln_id, appears vuln_id l ↔
       ∃ c, is_component G c ∧
            has_edge G "DEPENDS_ON" (project_node 1) c ∧
            has_edge G "AFFECTED_BY" c (vuln_node vuln_id)) ∧
    ((∀ c, ¬ has_edge G "DEPENDS_ON" (project_node 1) c) → l = []) ∧
    ((∀ c v, has_edge G "DEPENDS_ON" (project_node 1) c →
             ¬ has_edge G "AFFECTED_BY" c v) → l = []).
Proof.
  intros G. split; [by vm_compute|].
  apply (query_reachable_vulnerabilities_correct G 1 "requests"). by vm_compute.
Defined.

(** * Further properties of the code *)

(** ** The queries on graphs of any shape *)

Lemma well_formed_unfold G :
  well_formed G = true →
  NoDup (node_order G) ∧
  (∀ n, n ∈ node_order G ↔ has_node G n = true) ∧
  NoDup (edge_order G) ∧
  (∀ e, e ∈ edge_order G ↔ is_Some (_adj G !! e)) ∧
  (∀ u v, (u, v) ∈ edge_order G → has_node G u = true ∧ has_node G v = true).
Proof.
  unfold well_formed. rewrite !andb_true_iff, !bool_decide_eq_true.
  intros [[[[Hnd Hdom] Hend] Hedom] Hends].
  rewrite forallb_forall in Hends.
  split_and!; [done| |done| |].
  - intros n. by rewrite has_node_dom, <- Hdom, elem_of_list_to_set.
  - intros e. by rewrite <- elem_of_dom, <- Hedom, elem_of_list_to_set.
  - intros u v Hin. apply list_elem_of_In, Hends in Hin.
    by apply andb_true_iff in Hin.
Qed.

Lemma has_path_unknown_source G s t :
  has_node G s = false → has_path G s t = inl (NodeNotFound s).
Proof. intros Hs. unfold has_path, shortest_path. by rewrite Hs. Qed.

Lemma nodes_loop_unknown_project G project nodes acc :
  has_node G project = false →
  (∀ n, n ∈ nodes → has_node G n = true) →
  nodes_loop G project nodes acc = inr acc.
Proof.
  intros Hp. induction nodes as [|node nodes IH]; intros Hnodes; simpl; [done|].
  assert (has_node G node = true) as Hn by (apply Hnodes; set_solver).
  apply bool_decide_eq_true in Hn as [attr ->].
  assert (nodes_loop G project nodes acc = inr acc) as Hrest by (apply IH; set_solver).
  case_bool_decide; [|done].
  destruct (predecessors G node) as [|comp comps]; simpl; [done|].
  by rewrite (has_path_unknown_source _ _ _ Hp).
Qed.

(** X1: a project id that the graph does not know gives the empty list:
    the [NodeNotFound] that [nx.has_path] raises for the missing source
    is taken by the handler of the loop, for every vulnerability
    node. *)
Theorem query_reachable_vulnerabilities_unknown_project G project_id vulnerable_component :
  well_formed G = true →
  has_node G (project_node project_id) = false →
  query_reachable_vulnerabilities G project_id vulnerable_component = inr [].
Proof.
  intros (_ & Hin & _)%well_formed_unfold Hp.
  apply nodes_loop_unknown_project; [done|]. intros n. apply Hin.
Qed.

Lemma query_reachable_vulnerabilities_unknown_project_witness :
  let G := ingest components 1 "https://example.org/a.git" empty_graph in
  query_reachable_vulnerabilities G 2 "requests" = inr [].
Proof.
  intros G.
  apply (query_reachable_vulnerabilities_unknown_project G 2 "requests"); by vm_compute.
Defined.


(** A path whose target is a node starts at a node. *)
Lemma path_source_node G s t p :
  (∀ u v, (u, v) ∈ edge_order G → has_node G u = true ∧ has_node G v = true) →
  path G s t p → has_node G t = true → has_node G s = true.
Proof.
  intros Hends. induction 1 as [|t u p Hp IH He]; [done|].
  intros _. apply IH. by apply Hends in He as [? _].
Qed.

(** X2: the query follows paths of any length: a vulnerability node is
    reported for each of its predecessors that the project node
    reaches, also through other nodes, and the path of the entry is a
    shortest path to that predecessor.  (In the graphs that
    [generate_sbom] builds, the paths from a project to a component are
    single edges.) *)
Theorem query_reachable_vulnerabilities_transitive G project_id vulnerable_component :
  well_formed G = true →
  ∃ l, query_reachable_vulnerabilities G project_id vulnerable_component = inr l ∧
    ∀ node comp p,
      node ∈ node_order G → is_vulnerability G node → (comp, node) ∈ edge_order G →
      path G (project_node project_id) comp p →
      ∃ e, e ∈ l ∧
           r_vulnerability e = node_get G node "id" ∧
           r_component e = node_get G comp "name" ∧
           r_version e = node_get G comp "version" ∧
           path G (project_node project_id) comp (r_path e) ∧
           (length (r_path e) ≤ length p)%nat.
Proof.
  intros (_ & Hin & _ & _ & Hends)%well_formed_unfold.
  unfold query_reachable_vulnerabilities. set (project := project_node project_id).
  destruct (nodes_loop_returns G project (node_order G) []) as (l & Hl & _).
  { intros n Hn%Hin. by apply bool_decide_eq_true in Hn. }
  exists l. split; [done|].
  intros node comp p Hnode Hv He Hp.
  assert (has_node G comp = true) as Hc by by apply Hends in He as [? _].
  assert (has_node G project = true) as Hproject by by eapply path_source_node.
  destruct (nodes_loop_complete G project (node_order G) [] l Hproject) as [_ Hall]; [|done|].
  { intros n c _ Hc'%elem_of_predecessors. by apply Hends in Hc' as [? _]. }
  destruct (Hall node comp p Hnode Hv) as (p' & Hsp & Hentry); [by apply elem_of_predecessors|done|].
  apply shortest_path_inr in Hsp as (_ & _ & Hp' & Hmin).
  exists (reachable_entry G node comp p'). split_and!; auto.
Qed.

Lemma query_reachable_vulnerabilities_transitive_witness :
  let G := add_edge "lib_1" "vuln_X" (relationship "AFFECTED_BY")
             (add_node "vuln_X" (vuln_attrs "X")
               (add_edge "app_1" "lib_1" (relationship "DEPENDS_ON")
                 (add_edge "project_1" "app_1" (relationship "DEPENDS_ON") empty_graph))) in
  ∃ l, query_reachable_vulnerabilities G 1 "" = inr l ∧
       ∃ e, e ∈ l ∧ r_vulnerability e = Some (VStr "X") ∧
            r_path e = ["project_1"; "app_1"; "lib_1"].
Proof.
  intros G.
  destruct (query_reachable_vulnerabilities_transitive G 1 "") as (l & Hl & Hall);
    [by vm_compute|].
  exists l. split; [done|].
  assert (∀ e, bool_decide (e ∈ edge_order G) = true → e ∈ edge_order G) as Hedge
    by (intros e; apply bool_decide_eq_true).
  destruct (Hall "vuln_X" "lib_1" ["project_1"; "app_1"; "lib_1"])
    as (e & He & Hid & _ & _ & Hp & Hlen).
  - apply (bool_decide_unpack _). by vm_compute.
  - by vm_compute.
  - apply Hedge. by vm_compute.
  - apply (path_snoc G "project_1" "app_1" "lib_1" ["project_1"; "app_1"]).
    + apply (path_snoc G "project_1" "project_1" "app_1" ["project_1"]); [constructor|].
      apply Hedge. by vm_compute.
    + apply Hedge. by vm_compute.
  - exists e. split; [done|].
    vm_compute in Hl. injection Hl as <-.
    apply list_elem_of_singleton in He as ->. split; reflexivity.
Defined.

Lemma elem_of_edges_iff G nbunch e :
  e ∈ edges G nbunch ↔ e.1 ∈ nbunch ∧ has_node G e.1 = true ∧ e ∈ edge_order G.
Proof.
  unfold edges. rewrite list_elem_of_bind. split.
  - intros (n & He & [Hn Hin]%list_elem_of_filter).
    apply list_elem_of_fmap in He as (v & -> & Hv). simpl.
    by apply elem_of_successors in Hv.
  - destruct e as [u v]. simpl. intros (Hu & Hn & He). exists u. split.
    + apply list_elem_of_fmap. exists v. split; [done|]. by apply elem_of_successors.
    + by apply list_elem_of_filter.
Qed.

Lemma NoDup_successors G u : NoDup (edge_order G) → NoDup (successors G u).
Proof.
  intros Hnd. unfold successors. apply NoDup_fmap_2_strong; [|by apply NoDup_filter].
  intros [u1 v1] [u2 v2] [? _]%list_elem_of_filter [? _]%list_elem_of_filter.
  simpl in *. congruence.
Qed.

Lemma NoDup_edges G nbunch :
  NoDup nbunch → NoDup (edge_order G) → NoDup (edges G nbunch).
Proof.
  intros Hn He. unfold edges. apply NoDup_bind.
  - intros n1 n2 e _ _ (v1 & -> & _)%list_elem_of_fmap (v2 & [= <- _] & _)%list_elem_of_fmap.
    done.
  - intros n _. apply NoDup_fmap_2; [|by apply NoDup_successors].
    by intros ?? [=].
  - by apply NoDup_filter.
Qed.

Lemma path_node G s t p :
  (∀ u v, (u, v) ∈ edge_order G → has_node G u = true ∧ has_node G v = true) →
  has_node G s = true → path G s t p → has_node G t = true.
Proof. intros Hends Hs. destruct 1 as [|t u p Hp He]; [done|]. by apply Hends in He as [_ ?]. Qed.

Lemma get_graph_data_reach set_iter G project_id :
  well_formed G = true →
  (∀ l, set_iter l ≡ₚ l) →
  has_node G (project_node project_id) = true →
  ∃ d, get_graph_data set_iter G project_id = inr d ∧
    NoDup (n_id <$> nodes d) ∧
    (∀ n, n ∈ n_id <$> nodes d ↔ ∃ p, path G (project_node project_id) n p) ∧
    NoDup (link_ends <$> links d) ∧
    (∀ u v, (u, v) ∈ link_ends <$> links d ↔
            (u, v) ∈ edge_order G ∧ u ∈ n_id <$> nodes d) ∧
    (∀ u v, (u, v) ∈ link_ends <$> links d → v ∈ n_id <$> nodes d).
Proof.
  intros (_ & Hin & Hend & Hein & Hends)%well_formed_unfold Hperm Hproject.
  set (project := project_node project_id) in *.
  destruct (descendants G project) as [e|ds] eqn:Hds.
  { apply descendants_inl in Hds as [? _]. congruence. }
  destruct (get_graph_data_lists set_iter G project_id ds Hds) as (d & Hd & _ & _ & Heq).
  cbv zeta in Heq. fold project in Heq.
  apply descendants_inr in Hds as (_ & Hnd & Hreach).
  assert (∀ n, n ∈ set_iter (ds ++ [project]) ↔ ∃ p, path G project n p) as Hsub.
  { intros n. rewrite Hperm, elem_of_app, list_elem_of_singleton, Hreach. split.
    - intros [[_ ?]| ->]; [done|]. eexists. constructor.
    - intros Hp. destruct (decide (n = project)); auto. }
  destruct Heq as [Hnodes Hlinks].
  { intros n [p Hp]%Hsub. apply (bool_decide_eq_true (is_Some (_node G !! n))).
    by eapply path_node. }
  { intros e. apply Hein. }
  exists d. split; [done|]. rewrite Hnodes, Hlinks.
  assert (NoDup (set_iter (ds ++ [project]))) as Hnd'.
  { rewrite Hperm. apply NoDup_app. split_and!; [done| |apply NoDup_singleton].
    intros n [Hne _]%Hreach ->%list_elem_of_singleton. done. }
  assert (∀ u v, (u, v) ∈ edges G (set_iter (ds ++ [project])) ↔
                 (u, v) ∈ edge_order G ∧ u ∈ set_iter (ds ++ [project])) as Hedges.
  { intros u v. rewrite elem_of_edges_iff. simpl. split; [tauto|].
    intros [He Hu]. split_and!; [done| |done]. by apply Hends in He as [? _]. }
  split_and!; [done|done|by apply NoDup_edges|done|].
  intros u v [He [p Hp]%Hsub]%Hedges. apply Hsub. eexists. by econstructor.
Qed.

(** ** get_graph_data: two calls *)

Lemma d3_nodes_loop_map G sub acc :
  (∀ n, n ∈ sub → is_Some (_node G !! n)) →
  d3_nodes_loop G sub acc = (acc ++ (d3_node_of G <$> sub), None).
Proof.
  revert acc. induction sub as [|node sub IH]; intros acc Hall; simpl.
  - by rewrite app_nil_r.
  - destruct (Hall node) as [attr Hattr]; [set_solver|]. rewrite Hattr.
    rewrite IH by set_solver. rewrite <- app_assoc. simpl.
    unfold d3_node_of, node_get. by rewrite Hattr.
Qed.

Lemma d3_links_loop_map G es acc :
  (∀ e, e ∈ es → is_Some (_adj G !! e)) →
  d3_links_loop G es acc = (acc ++ (d3_link_of G <$> es), None).
Proof.
  revert acc. induction es as [|[u v] es IH]; intros acc Hall; simpl.
  - by rewrite app_nil_r.
  - destruct (Hall (u, v)) as [attr Hattr]; [set_solver|]. rewrite Hattr.
    rewrite IH by set_solver. rewrite <- app_assoc. simpl.
    unfold d3_link_of, edge_get. simpl. by rewrite Hattr.
Qed.

(** In a consistent graph both loops of [get_graph_data] run to their
    end. *)
Lemma get_graph_data_entries set_iter G project_id :
  well_formed G = true →
  (∀ l, set_iter l ≡ₚ l) →
  has_node G (project_node project_id) = true →
  ∃ ds, descendants G (project_node project_id) = inr ds ∧
    let subgraph_nodes := set_iter (ds ++ [project_node project_id]) in
    get_graph_data set_iter G project_id =
      inr {| nodes := d3_node_of G <$> subgraph_nodes;
             links := d3_link_of G <$> edges G subgraph_nodes |}.
Proof.
  intros (_ & Hin & Hend & Hein & Hends)%well_formed_unfold Hperm Hproject.
  set (project := project_node project_id) in *.
  destruct (descendants G project) as [e|ds] eqn:Hds.
  { apply descendants_inl in Hds as [? _]. congruence. }
  exists ds. split; [done|]. intros subgraph_nodes.
  unfold get_graph_data. fold project. rewrite Hds. fold subgraph_nodes.
  apply descendants_inr in Hds as (_ & Hnd & Hreach).
  rewrite d3_nodes_loop_map, d3_links_loop_map; [done| |].
  - intros e ?%elem_of_edges. by apply Hein.
  - intros n Hn. unfold subgraph_nodes in Hn. rewrite Hperm in Hn.
    apply (bool_decide_eq_true (is_Some (_node G !! n))).
    apply elem_of_app in Hn as [[_ [p Hp]]%Hreach| ->%list_elem_of_singleton]; [|done].
    by eapply path_node.
Qed.

(** C9, as the code has it, for a consistent graph and a project
    whose node is in it.  [get_graph_data] returns; its nodes come in
    the iteration order of the set [subgraph_nodes], its links in that
    order of their sources and, for one source, in the order in which
    the edges were added: nothing is sorted.  Two calls with no
    ingestion between them return the same node entries and the same
    link entries, each as often; they return them in the same order,
    the same lists, when the set iterates in the same order for both,
    which Python promises within one process only. *)
Theorem get_graph_data_order set_iter set_iter' G project_id :
  well_formed G = true →
  has_node G (project_node project_id) = true →
  (∀ l, set_iter l ≡ₚ l) →
  (∀ l, set_iter' l ≡ₚ l) →
  ∃ ds d d',
    descendants G (project_node project_id) = inr ds ∧
    get_graph_data set_iter G project_id = inr d ∧
    get_graph_data set_iter' G project_id = inr d' ∧
    let subgraph_nodes := set_iter (ds ++ [project_node project_id]) in
    let subgraph_nodes' := set_iter' (ds ++ [project_node project_id]) in
    n_id <$> nodes d = subgraph_nodes ∧
    link_ends <$> links d = edges G subgraph_nodes ∧
    n_id <$> nodes d' = subgraph_nodes' ∧
    link_ends <$> links d' = edges G subgraph_nodes' ∧
    nodes d ≡ₚ nodes d' ∧
    links d ≡ₚ links d' ∧
    (subgraph_nodes = subgraph_nodes' → d = d').
Proof.
  intros Hwf Hproject Hperm Hperm'.
  destruct (get_graph_data_entries set_iter G project_id Hwf Hperm Hproject)
    as (ds & Hds & Hd).
  destruct (get_graph_data_entries set_iter' G project_id Hwf Hperm' Hproject)
    as (ds' & Hds' & Hd').
  assert (ds' = ds) as -> by congruence.
  eexists ds, _, _. split_and!; [done..|]. simpl.
  assert (∀ l : list string, n_id <$> (d3_node_of G <$> l) = l) as Hids.
  { intros l. rewrite <- list_fmap_compose. rewrite <- (list_fmap_id l) at 2.
    by apply list_fmap_ext. }
  assert (∀ l : list (string * string), link_ends <$> (d3_link_of G <$> l) = l) as Hends.
  { intros l. rewrite <- list_fmap_compose. rewrite <- (list_fmap_id l) at 2.
    apply list_fmap_ext. by intros i [u v] _. }
  split_and!; [done..| | |by intros ->].
  - by rewrite Hperm, Hperm'.
  - unfold edges. by rewrite Hperm, Hperm'.
Qed.

Lemma get_graph_data_order_witness :
  let G := ingest components 1 "https://example.org/a.git" empty_graph in
  ∃ ds d d',
    descendants G (project_node 1) = inr ds ∧
    get_graph_data id G 1 = inr d ∧
    get_graph_data reverse G 1 = inr d' ∧
    n_id <$> nodes d = id (ds ++ [project_node 1]) ∧
    link_ends <$> links d = edges G (id (ds ++ [project_node 1])) ∧
    n_id <$> nodes d' = reverse (ds ++ [project_node 1]) ∧
    link_ends <$> links d' = edges G (reverse (ds ++ [project_node 1])) ∧
    nodes d ≡ₚ nodes d' ∧
    links d ≡ₚ links d' ∧
    (id (ds ++ [project_node 1]) = reverse (ds ++ [project_node 1]) → d = d').
Proof.
  intros G.
  apply (get_graph_data_order id reverse G 1);
    [by vm_compute|by vm_compute|done|intros l; apply reverse_Permutation].
Defined.

(** X3: the subgraph of a project is the part of the graph that its node
    reaches: the nodes listed are the project node and the nodes with a
    path from it, each once; the links are the edges of the graph that
    leave a listed node, each once, and every link ends at a listed
    node. *)
Theorem get_graph_data_subgraph set_iter G project_id :
  well_formed G = true →
  (∀ l, set_iter l ≡ₚ l) →
  has_node G (project_node project_id) = true →
  ∃ d, get_graph_data set_iter G project_id = inr d ∧
    NoDup (n_id <$> nodes d) ∧
    (∀ n, n ∈ n_id <$> nodes d ↔ ∃ p, path G (project_node project_id) n p) ∧
    NoDup (link_ends <$> links d) ∧
    (∀ u v, (u, v) ∈ link_ends <$> links d ↔
            (u, v) ∈ edge_order G ∧ u ∈ n_id <$> nodes d) ∧
    (∀ u v, (u, v) ∈ link_ends <$> links d → v ∈ n_id <$> nodes d).
Proof. apply get_graph_data_reach. Qed.

Lemma get_graph_data_subgraph_witness :
  let G := ingest components 1 "https://example.org/a.git" empty_graph in
  ∃ d, get_graph_data id G 1 = inr d ∧
    NoDup (n_id <$> nodes d) ∧
    (∀ n, n ∈ n_id <$> nodes d ↔ ∃ p, path G (project_node 1) n p) ∧
    NoDup (link_ends <$> links d) ∧
    (∀ u v, (u, v) ∈ link_ends <$> links d ↔
            (u, v) ∈ edge_order G ∧ u ∈ n_id <$> nodes d) ∧
    (∀ u v, (u, v) ∈ link_ends <$> links d → v ∈ n_id <$> nodes d).
Proof.
  intros G. apply (get_graph_data_subgraph id G 1); [by vm_compute|done|by vm_compute].
Defined.

Lemma d3_nodes_loop_fields G sub acc x :
  x ∈ (d3_nodes_loop G sub acc).1 →
  x ∈ acc ∨
  (n_name x = n_id x ∧
   n_type x = default (VStr "unknown") (node_get G (n_id x) "type") ∧
   n_vulns x = default (VList []) (node_get G (n_id x) "vulns")).
Proof.
  revert acc. induction sub as [|node sub IH]; intros acc; simpl; [by left|].
  destruct (_node G !! node) as [attr|] eqn:Hattr; simpl; [|by left].
  intros [Hx|Hx]%IH; [|by right].
  apply elem_of_app in Hx as [?| ->%list_elem_of_singleton]; [by left|].
  right. unfold node_get. simpl. by rewrite Hattr.
Qed.

Lemma d3_links_loop_fields G es acc x :
  x ∈ (d3_links_loop G es acc).1 →
  x ∈ acc ∨
  l_relationship x =
    default (VStr "unknown") (edge_get G (l_source x) (l_target x) "relationship").
Proof.
  revert acc. induction es as [|[u v] es IH]; intros acc; simpl; [by left|].
  destruct (_adj G !! (u, v)) as [attr|] eqn:Hattr; simpl; [|by left].
  intros [Hx|Hx]%IH; [|by right].
  apply elem_of_app in Hx as [?| ->%list_elem_of_singleton]; [by left|].
  right. unfold edge_get. simpl. by rewrite Hattr.
Qed.

(** X4: what the entries of the result hold: a node entry has its id as
    name, and as type and vulns the attributes of the node, with
    "unknown" and the empty list for an attribute that the node does
    not have; a link entry has the relationship of its edge, or
    "unknown". *)
Theorem get_graph_data_fields set_iter G project_id d :
  get_graph_data set_iter G project_id = inr d →
  (∀ x, x ∈ nodes d →
     n_name x = n_id x ∧
     n_type x = default (VStr "unknown") (node_get G (n_id x) "type") ∧
     n_vulns x = default (VList []) (node_get G (n_id x) "vulns")) ∧
  (∀ x, x ∈ links d →
     l_relationship x =
       default (VStr "unknown") (edge_get G (l_source x) (l_target x) "relationship")).
Proof.
  unfold get_graph_data.
  destruct (descendants G (project_node project_id)) as [e|ds].
  { destruct (handled e); [|done]. intros [= <-]. split; intros x Hx; by apply elem_of_nil in Hx. }
  set (sub := set_iter _).
  pose proof (λ x, d3_nodes_loop_fields G sub [] x) as Hn.
  destruct (d3_nodes_loop G sub []) as [ns [e|]]; simpl in Hn.
  { destruct (handled e); [|done]. intros [= <-]. simpl. split.
    - intros x [Hx|Hx]%Hn; [by apply elem_of_nil in Hx|done].
    - intros x Hx. by apply elem_of_nil in Hx. }
  pose proof (λ x, d3_links_loop_fields G (edges G sub) [] x) as Hl.
  destruct (d3_links_loop G (edges G sub) []) as [ls [e|]]; simpl in Hl.
  - destruct (handled e); [|done]. intros [= <-]. simpl. split.
    + intros x [Hx|Hx]%Hn; [by apply elem_of_nil in Hx|done].
    + intros x [Hx|Hx]%Hl; [by apply elem_of_nil in Hx|done].
  - intros [= <-]. simpl. split.
    + intros x [Hx|Hx]%Hn; [by apply elem_of_nil in Hx|done].
    + intros x [Hx|Hx]%Hl; [by apply elem_of_nil in Hx|done].
Qed.

Lemma get_graph_data_fields_witness :
  let G := ingest components 1 "https://example.org/a.git" empty_graph in
  ∃ d, get_graph_data id G 1 = inr d ∧
    (∀ x, x ∈ nodes d →
       n_name x = n_id x ∧
       n_type x = default (VStr "unknown") (node_get G (n_id x) "type") ∧
       n_vulns x = default (VList []) (node_get G (n_id x) "vulns")) ∧
    (∀ x, x ∈ links d →
       l_relationship x =
         default (VStr "unknown") (edge_get G (l_source x) (l_target x) "relationship")).
Proof.
  intros G. destruct (get_graph_data id G 1) as [e|d] eqn:Hd; [by vm_compute in Hd|].
  exists d. split; [done|]. apply (get_graph_data_fields id G 1 d Hd).
Defined.

(** *** The subgraph in the data model *)

Lemma typed_well_formed G : typed G = true → well_formed G = true.
Proof. unfold typed. by intros [[? _]%andb_true_iff _]%andb_true_iff. Qed.

(** In a graph of the data model a project node reaches itself, the
    components it depends on and the vulnerabilities that affect
    them. *)
Lemma typed_reach G s n :
  typed G = true → kind_of_id s = "project" →
  (∃ p, path G s n p) ↔
  n = s ∨ has_edge G "DEPENDS_ON" s n ∨
  ∃ c, has_edge G "DEPENDS_ON" s c ∧ has_edge G "AFFECTED_BY" c n.
Proof.
  intros Htyped Hs. split.
  - intros [p Hp]. destruct Hp as [|t n p Hp He]; [by left|]. right.
    destruct (typed_edge _ _ _ Htyped He) as [(Ht & Hn & Hdep)|(Ht & Hn & Haff)].
    + left. destruct Hp as [|t0 t p Hp He0]; [done|].
      destruct (typed_edge _ _ _ Htyped He0) as [(_ & ? & _)|(_ & ? & _)]; congruence.
    + right. exists t. split; [|done].
      by destruct (typed_path _ _ _ _ Htyped Hp Hs Ht) as [_ ?].
  - intros [->|[[He _]|(c & [He1 _] & [He2 _])]].
    + eexists. constructor.
    + eexists. econstructor; [constructor|done].
    + eexists. econstructor; [econstructor; [constructor|done]|done].
Qed.

(** X5: in a graph of the data model the subgraph of a project is the
    project node, the nodes of the components it depends on and the
    nodes of the vulnerabilities that affect them; its links are the
    DEPENDS_ON edges of the project and the AFFECTED_BY edges of those
    components. *)
Theorem get_graph_data_typed set_iter G project_id :
  typed G = true →
  (∀ l, set_iter l ≡ₚ l) →
  has_node G (project_node project_id) = true →
  ∃ d, get_graph_data set_iter G project_id = inr d ∧
    (∀ n, n ∈ n_id <$> nodes d ↔
       n = project_node project_id ∨
       has_edge G "DEPENDS_ON" (project_node project_id) n ∨
       ∃ c, has_edge G "DEPENDS_ON" (project_node project_id) c ∧
            has_edge G "AFFECTED_BY" c n) ∧
    (∀ u v, (u, v) ∈ link_ends <$> links d ↔
       (u = project_node project_id ∧ has_edge G "DEPENDS_ON" u v) ∨
       (has_edge G "DEPENDS_ON" (project_node project_id) u ∧
        has_edge G "AFFECTED_BY" u v)).
Proof.
  intros Htyped Hperm Hproject.
  destruct (get_graph_data_reach set_iter G project_id (typed_well_formed _ Htyped)
              Hperm Hproject) as (d & Hd & _ & Hnodes & _ & Hlinks & _).
  set (project := project_node project_id) in *.
  assert (kind_of_id project = "project") as Hk by apply kind_of_project_node.
  exists d. split; [done|]. split.
  - intros n. rewrite Hnodes. by apply typed_reach.
  - intros u v. rewrite Hlinks, Hnodes, (typed_reach _ _ _ Htyped Hk). split.
    + intros [He [->|[Hdep|(c & Hdep & Haff)]]].
      * left. split; [done|].
        destruct (typed_edge _ _ _ Htyped He) as [(_ & _ & ?)|(? & _)]; [done|congruence].
      * right. split; [done|].
        destruct Hdep as [Hpu _].
        destruct (typed_edge _ _ _ Htyped Hpu) as [(_ & Hu & _)|(? & _)]; [|congruence].
        destruct (typed_edge _ _ _ Htyped He) as [(? & _)|(_ & _ & ?)]; [congruence|done].
      * destruct Haff as [Hcu Hrel].
        destruct (typed_edge _ _ _ Htyped Hcu) as [(_ & _ & _ & Hrel')|(_ & Hu & _)];
          [congruence|].
        destruct (typed_edge _ _ _ Htyped He) as [(? & _)|(? & _)]; congruence.
    + intros [[-> Hdep]|[Hdep Haff]].
      * split; [by destruct Hdep|by left].
      * split; [by destruct Haff|]. right. by left.
Qed.

Lemma get_graph_data_typed_witness :
  let G := ingest components 1 "https://example.org/a.git" empty_graph in
  ∃ d, get_graph_data id G 1 = inr d ∧
    (∀ n, n ∈ n_id <$> nodes d ↔
       n = project_node 1 ∨
       has_edge G "DEPENDS_ON" (project_node 1) n ∨
       ∃ c, has_edge G "DEPENDS_ON" (project_node 1) c ∧ has_edge G "AFFECTED_BY" c n) ∧
    (∀ u v, (u, v) ∈ link_ends <$> links d ↔
       (u = project_node 1 ∧ has_edge G "DEPENDS_ON" u v) ∨
       (has_edge G "DEPENDS_ON" (project_node 1) u ∧ has_edge G "AFFECTED_BY" u v)).
Proof.
  intros G. apply (get_graph_data_typed id G 1); [by vm_compute|done|by vm_compute].
Defined.

(** ** Ingestion: what it adds and what it leaves *)

Global Instance grows_preorder : PreOrder grows.
Proof.
  split.
  - by intros g.
  - intros g1 g2 g3 [??] [??]. split; by etrans.
Qed.

Lemma add_node_grows n attr G : grows G (add_node n attr G).
Proof.
  split; [|by rewrite edge_order_add_node].
  rewrite node_order_add_node. destruct (has_node G n); [done|]. by apply prefix_app_r.
Qed.

Lemma put_edge_grows u v attr G : grows G (put_edge u v attr G).
Proof.
  split; [by rewrite put_edge_node_order|].
  rewrite edge_order_put_edge. case_decide; [done|]. by apply prefix_app_r.
Qed.

Lemma touch_node_grows n G : grows G (touch_node n G).
Proof. unfold touch_node. destruct (has_node G n); [done|apply add_node_grows]. Qed.

Lemma add_edge_grows u v attr G : grows G (add_edge u v attr G).
Proof.
  unfold add_edge. etrans; [apply (touch_node_grows u)|].
  etrans; [apply (touch_node_grows v)|]. apply put_edge_grows.
Qed.

Lemma foldl_grows {A} (f : DiGraph → A → DiGraph) l :
  (∀ g x, grows g (f g x)) → ∀ g, grows g (foldl f g l).
Proof.
  intros Hf. induction l as [|x l IH]; intros g; simpl; [done|].
  by trans (f g x).
Qed.

Lemma ingest_vuln_grows node_id G vuln_id : grows G (ingest_vuln node_id G vuln_id).
Proof.
  unfold ingest_vuln. etrans; [|apply add_edge_grows].
  destruct (has_node G (vuln_node vuln_id)); [done|apply add_node_grows].
Qed.

Lemma ingest_component_grows project_id G comp : grows G (ingest_component project_id G comp).
Proof.
  unfold ingest_component.
  etrans; [apply add_node_grows|]. etrans; [apply add_edge_grows|].
  apply foldl_grows. intros. apply ingest_vuln_grows.
Qed.

Lemma ingest_appends_grows comps project_id repo_url G :
  grows G (ingest comps project_id repo_url G).
Proof.
  unfold ingest. etrans; [apply add_node_grows|].
  apply foldl_grows. intros. apply ingest_component_grows.
Qed.

(** X6: ingestion only appends: the nodes and the edges of the graph
    before are the first nodes and edges of the graph after, in the
    same order.  Nothing is removed or moved, for every component list
    and every graph. *)
Theorem ingest_appends comps project_id repo_url G :
  node_order G `prefix_of` node_order (ingest comps project_id repo_url G) ∧
  edge_order G `prefix_of` edge_order (ingest comps project_id repo_url G).
Proof. apply ingest_appends_grows. Qed.

(** *** The nodes and edges after ingestion *)

Lemma dom_node_ingest_vulns node_id G vs :
  node_id ∈ dom (_node G) →
  dom (_node (foldl (ingest_vuln node_id) G vs)) =
    list_to_set (vuln_node <$> vs) ∪ dom (_node G).
Proof.
  revert G. induction vs as [|v vs IH]; intros G Hn; simpl; [set_solver|].
  rewrite IH; rewrite dom_node_ingest_vuln; set_solver.
Qed.

Lemma dom_adj_ingest_vulns node_id G vs :
  dom (_adj (foldl (ingest_vuln node_id) G vs)) =
    list_to_set ((λ vuln_id, (node_id, vuln_node vuln_id)) <$> vs) ∪ dom (_adj G).
Proof.
  revert G. induction vs as [|v vs IH]; intros G; simpl; [set_solver|].
  rewrite IH, dom_adj_ingest_vuln. set_solver.
Qed.

Lemma dom_node_ingest_component project_id G comp :
  dom (_node (ingest_component project_id G comp)) =
    {[project_node project_id; component_node comp]} ∪
    list_to_set (vuln_node <$> c_vulnerabilities comp) ∪ dom (_node G).
Proof.
  unfold ingest_component.
  rewrite dom_node_ingest_vulns; rewrite dom_node_add_edge, dom_node_add_node; set_solver.
Qed.

Lemma dom_adj_ingest_component project_id G comp :
  dom (_adj (ingest_component project_id G comp)) =
    {[(project_node project_id, component_node comp)]} ∪
    list_to_set ((λ vuln_id, (component_node comp, vuln_node vuln_id))
                   <$> c_vulnerabilities comp) ∪ dom (_adj G).
Proof.
  unfold ingest_component.
  rewrite dom_adj_ingest_vulns, dom_adj_add_edge, dom_adj_add_node. set_solver.
Qed.

Lemma dom_ingest comps project_id repo_url G :
  dom (_node (ingest comps project_id repo_url G)) =
    ingested_nodes comps project_id ∪ dom (_node G) ∧
  dom (_adj (ingest comps project_id repo_url G)) =
    ingested_edges comps project_id ∪ dom (_adj G).
Proof.
  unfold ingest, ingested_nodes, ingested_edges.
  set (G1 := add_node _ _ G).
  assert (dom (_node G1) = {[project_node project_id]} ∪ dom (_node G)) as Hn1
    by apply dom_node_add_node.
  assert (dom (_adj G1) = dom (_adj G)) as Ha1 by apply dom_adj_add_node.
  rewrite <- Ha1. clearbody G1. clear Ha1.
  assert (dom (_node (foldl (ingest_component project_id) G1 comps)) =
          list_to_set (component_node <$> comps) ∪
          list_to_set (comp ← comps; vuln_node <$> c_vulnerabilities comp) ∪
          dom (_node G1) ∧
          dom (_adj (foldl (ingest_component project_id) G1 comps)) =
          list_to_set ((λ comp, (project_node project_id, component_node comp)) <$> comps) ∪
          list_to_set (comp ← comps;
            (λ vuln_id, (component_node comp, vuln_node vuln_id)) <$> c_vulnerabilities comp) ∪
          dom (_adj G1)) as [Hn Ha].
  { assert (project_node project_id ∈ dom (_node G1)) as Hp by set_solver.
    clear Hn1. revert G1 Hp. induction comps as [|comp comps IH]; intros G1 Hp; simpl.
    - split; set_solver.
    - destruct (IH (ingest_component project_id G1 comp)) as [-> ->].
      { rewrite dom_node_ingest_component. set_solver. }
      rewrite dom_node_ingest_component, dom_adj_ingest_component.
      rewrite !list_to_set_app_L. split; set_solver. }
  rewrite Hn, Ha, Hn1. split; set_solver.
Qed.

(** X7: the nodes of the graph after ingestion are the nodes it had, the
    project node, the node of every component and the node of every
    vulnerability of a component, and no other; the edges are the
    edges it had, one from the project node to every component node and
    one from every component node to each of its vulnerability nodes,
    and no other. *)
Theorem ingest_nodes_and_edges comps project_id repo_url G :
  let G' := ingest comps project_id repo_url G in
  (∀ n, has_node G' n = true ↔
     has_node G n = true ∨ n = project_node project_id ∨
     (∃ comp, comp ∈ comps ∧
        (n = component_node comp ∨
         ∃ vuln_id, vuln_id ∈ c_vulnerabilities comp ∧ n = vuln_node vuln_id))) ∧
  (∀ u v, is_Some (_adj G' !! (u, v)) ↔
     is_Some (_adj G !! (u, v)) ∨
     (∃ comp, comp ∈ comps ∧
        ((u = project_node project_id ∧ v = component_node comp) ∨
         (u = component_node comp ∧
          ∃ vuln_id, vuln_id ∈ c_vulnerabilities comp ∧ v = vuln_node vuln_id)))).
Proof.
  intros G'. destruct (dom_ingest comps project_id repo_url G) as [Hn Ha]. split.
  - intros n. rewrite !has_node_dom. fold G' in Hn. rewrite Hn. unfold ingested_nodes.
    rewrite !elem_of_union, elem_of_singleton, !elem_of_list_to_set.
    rewrite list_elem_of_fmap, list_elem_of_bind.
    setoid_rewrite list_elem_of_fmap. naive_solver.
  - intros u v. rewrite <- !elem_of_dom. fold G' in Ha. rewrite Ha. unfold ingested_edges.
    rewrite !elem_of_union, !elem_of_list_to_set.
    rewrite list_elem_of_fmap, list_elem_of_bind.
    setoid_rewrite list_elem_of_fmap. naive_solver.
Qed.

(** *** What ingestion leaves as it is *)

Lemma add_node_other n m attr G : n ≠ m → _node (add_node m attr G) !! n = _node G !! n.
Proof.
  intros Hne. unfold add_node. destruct (_node G !! m); simpl; by rewrite lookup_insert_ne.
Qed.

Lemma touch_node_kept n m G :
  is_Some (_node G !! n) → _node (touch_node m G) !! n = _node G !! n.
Proof.
  intros Hn. unfold touch_node. destruct (has_node G m) eqn:Hm; [done|].
  apply add_node_other. intros ->. apply bool_decide_eq_false in Hm. done.
Qed.

Lemma add_edge_kept n u v attr G :
  is_Some (_node G !! n) → _node (add_edge u v attr G) !! n = _node G !! n.
Proof.
  intros Hn. unfold add_edge. rewrite put_edge_node.
  rewrite touch_node_kept; rewrite touch_node_kept; done.
Qed.

Lemma ingest_vuln_kept n node_id G vuln_id :
  is_Some (_node G !! n) → _node (ingest_vuln node_id G vuln_id) !! n = _node G !! n.
Proof.
  intros Hn. unfold ingest_vuln. destruct (has_node G (vuln_node vuln_id)) eqn:Hv.
  - by apply add_edge_kept.
  - assert (n ≠ vuln_node vuln_id) as Hne.
    { intros ->. apply bool_decide_eq_false in Hv. done. }
    rewrite add_edge_kept; rewrite add_node_other; done.
Qed.

Lemma ingest_vulns_kept n node_id G vs :
  is_Some (_node G !! n) →
  _node (foldl (ingest_vuln node_id) G vs) !! n = _node G !! n.
Proof.
  revert G. induction vs as [|v vs IH]; intros G Hn; simpl; [done|].
  rewrite IH; rewrite ingest_vuln_kept; done.
Qed.

Lemma ingest_component_kept n project_id G comp :
  is_Some (_node G !! n) → n ≠ component_node comp →
  _node (ingest_component project_id G comp) !! n = _node G !! n.
Proof.
  intros Hn Hne. unfold ingest_component.
  rewrite ingest_vulns_kept; rewrite add_edge_kept; rewrite add_node_other; done.
Qed.

Lemma put_edge_other e u v attr G :
  e ≠ (u, v) → _adj (put_edge u v attr G) !! e = _adj G !! e.
Proof.
  intros Hne. unfold put_edge. destruct (_adj G !! (u, v)); simpl; by rewrite lookup_insert_ne.
Qed.

Lemma adj_touch_node n G : _adj (touch_node n G) = _adj G.
Proof. unfold touch_node. destruct (has_node G n); [done|apply adj_add_node]. Qed.

Lemma add_edge_other e u v attr G :
  e ≠ (u, v) → _adj (add_edge u v attr G) !! e = _adj G !! e.
Proof.
  intros Hne. unfold add_edge. by rewrite put_edge_other, !adj_touch_node.
Qed.

Lemma ingest_vulns_other e node_id G vs :
  e ∉ (λ vuln_id, (node_id, vuln_node vuln_id)) <$> vs →
  _adj (foldl (ingest_vuln node_id) G vs) !! e = _adj G !! e.
Proof.
  revert G. induction vs as [|v vs IH]; intros G He; simpl; [done|].
  rewrite fmap_cons, not_elem_of_cons in He. destruct He as [Hne He].
  rewrite IH by done. unfold ingest_vuln. rewrite add_edge_other by done.
  destruct (has_node G (vuln_node v)); [done|by rewrite adj_add_node].
Qed.

(** X8: ingestion writes to the project node, to the nodes of the
    components of the list and to the edges it adds, and to nothing
    else that the graph has: every other node keeps its attributes, a
    vulnerability node among them (the loop adds a vulnerability node
    only when the graph does not have it), and every other edge keeps
    its own. *)
Theorem ingest_frame comps project_id repo_url G :
  (∀ n, has_node G n = true →
        n ≠ project_node project_id → n ∉ component_node <$> comps →
        _node (ingest comps project_id repo_url G) !! n = _node G !! n) ∧
  (∀ e, e ∉ ingested_edges comps project_id →
        _adj (ingest comps project_id repo_url G) !! e = _adj G !! e).
Proof.
  split.
  - intros n Hn%bool_decide_eq_true Hproject Hcomps. unfold ingest.
    set (G1 := add_node _ _ G).
    assert (_node G1 !! n = _node G !! n) as H1 by by apply add_node_other.
    rewrite <- H1. rewrite <- H1 in Hn. clearbody G1. clear H1.
    revert G1 Hn Hcomps. induction comps as [|comp comps IH]; intros G1 Hn Hcomps; simpl; [done|].
    rewrite fmap_cons, not_elem_of_cons in Hcomps. destruct Hcomps as [Hne Hcomps].
    assert (_node (ingest_component project_id G1 comp) !! n = _node G1 !! n) as Hstep
      by by apply ingest_component_kept.
    rewrite <- Hstep. apply IH; [by rewrite Hstep|done].
  - intros e He. unfold ingest, ingested_edges in *.
    rewrite <- (adj_add_node (project_node project_id) (project_attrs repo_url) G).
    generalize (add_node (project_node project_id) (project_attrs repo_url) G) as G1.
    induction comps as [|comp comps IH]; intros G1; simpl; [done|].
    rewrite fmap_cons, bind_cons, list_to_set_cons, list_to_set_app_L in He.
    rewrite IH by set_solver. unfold ingest_component.
    rewrite ingest_vulns_other by set_solver.
    rewrite add_edge_other by set_solver. by rewrite adj_add_node.
Qed.

Lemma ingest_frame_witness :
  let G := ingest components 1 "https://example.org/a.git" empty_graph in
  let G' := ingest components 2 "https://example.org/b.git" G in
  _node G' !! "vuln_CVE-2023-1234" = _node G !! "vuln_CVE-2023-1234" ∧
  _adj G' !! ("project_1", "flask_2.3.0") = _adj G !! ("project_1", "flask_2.3.0").
Proof.
  intros G G'.
  destruct (ingest_frame components 2 "https://example.org/b.git" G) as [Hn He]. split.
  - apply Hn; [by vm_compute|done|].
    apply (bool_decide_unpack _). by vm_compute.
  - apply He. apply (bool_decide_unpack _). by vm_compute.
Defined.

(** *** The URL of the project *)

Lemma node_get_add_node_absent n attr G m key :
  attr !! key = None → node_get (add_node n attr G) m key = node_get G m key.
Proof.
  intros Hkey. rewrite node_get_add_node. destruct (decide (n = m)) as [->|]; [|done].
  rewrite Hkey. by destruct (node_get G m key).
Qed.

Lemma node_get_put_edge u v attr G m key :
  node_get (put_edge u v attr G) m key = node_get G m key.
Proof. unfold node_get. by rewrite put_edge_node. Qed.

Lemma node_get_add_edge u v attr G m key :
  node_get (add_edge u v attr G) m key = node_get G m key.
Proof.
  unfold add_edge, touch_node. rewrite node_get_put_edge.
  destruct (has_node G u); destruct (has_node _ v);
    rewrite ?node_get_add_node_absent; done.
Qed.

Lemma node_get_ingest_vuln_url node_id G vuln_id m :
  node_get (ingest_vuln node_id G vuln_id) m "url" = node_get G m "url".
Proof.
  unfold ingest_vuln. rewrite node_get_add_edge.
  destruct (has_node G (vuln_node vuln_id)); [done|].
  by apply node_get_add_node_absent.
Qed.

Lemma node_get_ingest_component_url project_id G comp m :
  node_get (ingest_component project_id G comp) m "url" = node_get G m "url".
Proof.
  unfold ingest_component.
  trans (node_get (add_edge (project_node project_id) (component_node comp)
                     (relationship "DEPENDS_ON")
                     (add_node (component_node comp) (component_attrs comp) G)) m "url").
  - generalize (add_edge (project_node project_id) (component_node comp)
                 (relationship "DEPENDS_ON")
                 (add_node (component_node comp) (component_attrs comp) G)) as G1.
    induction (c_vulnerabilities comp) as [|v vs IH]; intros G1; simpl; [done|].
    by rewrite IH, node_get_ingest_vuln_url.
  - rewrite node_get_add_edge. by apply node_get_add_node_absent.
Qed.

(** X9: after ingestion the project node has the URL that was given, also
    when the node was there with another URL: the last call decides.
    This holds for every component list, since no other write of the
    ingestion has a [url] attribute. *)
Theorem ingest_project_url comps project_id repo_url G :
  node_get (ingest comps project_id repo_url G) (project_node project_id) "url" =
    Some (VStr repo_url).
Proof.
  unfold ingest.
  trans (node_get (add_node (project_node project_id) (project_attrs repo_url) G)
           (project_node project_id) "url").
  - generalize (add_node (project_node project_id) (project_attrs repo_url) G) as G1.
    induction comps as [|comp comps IH]; intros G1; simpl; [done|].
    by rewrite IH, node_get_ingest_component_url.
  - rewrite node_get_add_node. rewrite decide_True by done.
    unfold project_attrs. by rewrite lookup_insert_ne, lookup_insert_eq, union_Some_l.
Qed.

(** *** Ingestion, then the query *)

(** X10: for a graph of the data model and a component list in which
    the node id "name_version" of no component starts with "project_"
    or "vuln_" (the list of [generate_sbom] is one): after the list has
    been ingested for a project, the query for that project reports
    every vulnerability of every component of the list, with the path
    from the project node to the node of the component.  Both
    conditions are hypotheses; [ingest_then_query_clash] shows a list
    without the second for which the conclusion fails. *)
Theorem ingest_then_query comps project_id repo_url G vulnerable_component comp vuln_id :
  typed G = true →
  Forall (λ comp, kind_of_id (component_node comp) = "component") comps →
  comp ∈ comps → vuln_id ∈ c_vulnerabilities comp →
  ∃ l, query_reachable_vulnerabilities (ingest comps project_id repo_url G)
         project_id vulnerable_component = inr l ∧
       ∃ e, e ∈ l ∧ r_vulnerability e = Some (VStr vuln_id) ∧
            r_path e = [project_node project_id; component_node comp].
Proof.
  intros Htyped Hkinds Hcomp Hvuln.
  set (G' := ingest comps project_id repo_url G).
  assert (typed G' = true) as Htyped' by by apply ingest_typed.
  destruct (ingest_covers comps project_id repo_url G) as [Hproject Hcovers].
  fold G' in Hproject, Hcovers.
  destruct (Hcovers comp Hcomp) as (Hc & _ & Hdep & Hvulns).
  destruct (Hvulns vuln_id Hvuln) as (Hv & _ & Haff).
  pose proof (typed_unfold _ Htyped') as (_ & Hin & _ & Hein & Hends & _).
  apply has_node_dom in Hproject, Hv. apply elem_of_dom, Hein in Hdep, Haff.
  unfold query_reachable_vulnerabilities. set (project := project_node project_id) in *.
  destruct (nodes_loop_returns G' project (node_order G') []) as (l & Hl & _).
  { intros n Hn%Hin. by apply bool_decide_eq_true in Hn. }
  exists l. split; [done|].
  destruct (nodes_loop_complete G' project (node_order G') [] l Hproject) as [_ Hall]; [|done|].
  { intros n c _ Hc'%elem_of_predecessors. by apply Hends in Hc' as [? _]. }
  destruct (Hall (vuln_node vuln_id) (component_node comp) ([project] ++ [component_node comp]))
    as (p' & Hsp & Hentry).
  - by apply Hin.
  - unfold is_vulnerability. by rewrite (typed_node_type _ _ Htyped' Hv), kind_of_vuln_node.
  - by apply elem_of_predecessors.
  - econstructor; [constructor|done].
  - eexists. split; [done|]. simpl. split.
    + destruct (typed_vuln_id _ _ Htyped' Hv (kind_of_vuln_node _)) as (i & -> & Hi).
      by apply vuln_node_inj in Hi as ->.
    + apply shortest_path_inr in Hsp as (_ & _ & Hp & _).
      eapply Forall_forall in Hkinds; [|done].
      by destruct (typed_path _ _ _ _ Htyped' Hp (kind_of_project_node _) Hkinds) as [-> _].
Qed.

Lemma ingest_then_query_witness :
  let G := ingest components 1 "https://example.org/a.git" empty_graph in
  ∃ l, query_reachable_vulnerabilities (ingest components 2 "https://example.org/b.git" G)
         2 "" = inr l ∧
       ∃ e, e ∈ l ∧ r_vulnerability e = Some (VStr "CVE-2023-9012") ∧
            r_path e = [project_node 2; "werkzeug_2.3.0"].
Proof.
  intros G.
  apply (ingest_then_query components 2 "https://example.org/b.git" G ""
           {| c_name := "werkzeug"; c_version := "2.3.0"; c_type := "library";
              c_vulnerabilities := ["CVE-2023-9012"] |} "CVE-2023-9012").
  - by vm_compute.
  - repeat constructor.
  - unfold components. do 4 apply list_elem_of_further. apply list_elem_of_here.
  - apply list_elem_of_here.
Defined.

(** A component named "vuln" of version "X" has the node id of its own
    vulnerability "X": the node is written as a component, and the
    query reports nothing. *)
Lemma ingest_then_query_clash :
  let comp := {| c_name := "vuln"; c_version := "X"; c_type := "library";
                 c_vulnerabilities := ["X"] |} in
  typed empty_graph = true ∧
  kind_of_id (component_node comp) = "vulnerability" ∧
  query_reachable_vulnerabilities
    (ingest [comp] 1 "https://example.org/a.git" empty_graph) 1 "" = inr [].
Proof. by vm_compute. Qed.

(** *** Ingestion never hides a vulnerability *)

(** In a graph of the data model the query returns, and it reports the
    vulnerabilities of the components that the project depends on. *)
Lemma typed_query G project_id vulnerable_component :
  typed G = true →
  ∃ l, query_reachable_vulnerabilities G project_id vulnerable_component = inr l ∧
    ∀ vuln_id, appears vuln_id l ↔
      ∃ c, has_edge G "DEPENDS_ON" (project_node project_id) c ∧
           has_edge G "AFFECTED_BY" c (vuln_node vuln_id).
Proof.
  intros Htyped. unfold query_reachable_vulnerabilities.
  pose proof (typed_unfold _ Htyped) as (_ & Hin & _ & _ & Hends & _).
  set (project := project_node project_id).
  destruct (nodes_loop_returns G project (node_order G) []) as (l & Hq & _).
  { intros node Hnode%Hin. unfold has_node in Hnode. by apply bool_decide_eq_true in Hnode. }
  exists l. split; [done|]. intros vuln_id. split.
  - intros (e & He & Hid).
    destruct (typed_entry_appears _ _ _ _ Htyped Hq He) as (i & comp & p & Hi & Hc & Haff & Hp).
    exists comp. assert (i = vuln_id) as -> by congruence. split; [|done].
    eapply typed_path; [done..|apply kind_of_project_node|].
    unfold is_component in Hc.
    assert (has_node G comp = true) as Hcn.
    { unfold has_node. apply bool_decide_eq_true. unfold node_get in Hc.
      by destruct (_node G !! comp); [eexists|]. }
    rewrite (typed_node_type _ _ Htyped Hcn) in Hc. by injection Hc.
  - intros (c & [Hdep _] & [Haff _]).
    destruct (Hends _ _ Hdep) as [Hproject Hcn].
    destruct (Hends _ _ Haff) as [_ Hvn].
    destruct (nodes_loop_complete G project (node_order G) [] l Hproject) as [_ Hall];
      [|done|].
    { intros node comp _ Hcomp%elem_of_predecessors. by apply Hends in Hcomp as [? _]. }
    destruct (Hall (vuln_node vuln_id) c ([project] ++ [c])) as (p' & _ & Hentry).
    + by apply Hin.
    + unfold is_vulnerability.
      by rewrite (typed_node_type _ _ Htyped Hvn), kind_of_vuln_node.
    + by apply elem_of_predecessors.
    + econstructor; [constructor|done].
    + eexists. split; [done|]. simpl.
      destruct (typed_vuln_id _ _ Htyped Hvn (kind_of_vuln_node _)) as (i & -> & Hi).
      by apply vuln_node_inj in Hi as ->.
Qed.

(** An edge of a graph of the data model is an edge, with the same
    relationship, of every graph of the data model that the graph
    grows into. *)
Lemma has_edge_grows G G' r u v :
  typed G = true → typed G' = true → grows G G' →
  has_edge G r u v → has_edge G' r u v.
Proof.
  intros Htyped Htyped' [_ Hedges] [He Hr].
  assert ((u, v) ∈ edge_order G') as He'.
  { destruct Hedges as [k ->]. set_solver. }
  destruct (typed_edge _ _ _ Htyped He) as [(Hu & Hv & [_ Hr1])|(Hu & Hv & [_ Hr1])];
    destruct (typed_edge _ _ _ Htyped' He') as [(Hu' & Hv' & [_ Hr2])|(Hu' & Hv' & [_ Hr2])];
    try congruence; split; congruence.
Qed.

(** X11: for a graph of the data model and a component list in which
    the node id "name_version" of no component starts with "project_"
    or "vuln_" (the list of [generate_sbom] is one): ingesting the
    list, for this project or for another, hides no vulnerability:
    every vulnerability that the query reported for a project before,
    it reports after.  Both conditions are hypotheses;
    [ingest_keeps_reported_clash] shows a list without the second for
    which the conclusion fails. *)
Theorem ingest_keeps_reported comps project_id repo_url G p vulnerable_component l vuln_id :
  typed G = true →
  Forall (λ comp, kind_of_id (component_node comp) = "component") comps →
  query_reachable_vulnerabilities G p vulnerable_component = inr l →
  appears vuln_id l →
  ∃ l', query_reachable_vulnerabilities (ingest comps project_id repo_url G) p
          vulnerable_component = inr l' ∧
        appears vuln_id l'.
Proof.
  intros Htyped Hkinds Hl Hv.
  set (G' := ingest comps project_id repo_url G).
  assert (typed G' = true) as Htyped' by by apply ingest_typed.
  assert (grows G G') as Hgrows by apply ingest_appends_grows.
  destruct (typed_query G p vulnerable_component Htyped) as (l0 & Hl0 & Hiff).
  assert (l0 = l) as -> by congruence.
  destruct (typed_query G' p vulnerable_component Htyped') as (l' & Hl' & Hiff').
  exists l'. split; [done|]. apply Hiff'. apply Hiff in Hv as (c & Hdep & Haff).
  exists c. split; by apply (has_edge_grows G G').
Qed.

Lemma ingest_keeps_reported_witness :
  let G := ingest components 1 "https://example.org/a.git" empty_graph in
  ∃ l', query_reachable_vulnerabilities (ingest components 2 "https://example.org/b.git" G) 1 "" =
          inr l' ∧
        appears "CVE-2023-5678" l'.
Proof.
  intros G.
  destruct (query_reachable_vulnerabilities G 1 "") as [e|l] eqn:Hl; [by vm_compute in Hl|].
  apply (ingest_keeps_reported components 2 "https://example.org/b.git" G 1 "" l
           "CVE-2023-5678");
    [by vm_compute|repeat constructor|done|].
  vm_compute in Hl. injection Hl as <-.
  eexists. split; [apply list_elem_of_further, list_elem_of_here|reflexivity].
Defined.

(** A component named "vuln" of version "CVE-2023-1234", ingested for
    project 2, has the node id of a vulnerability of project 1: the
    type of that node becomes "component", and project 1 loses the
    vulnerability. *)
Lemma ingest_keeps_reported_clash :
  let G := ingest components 1 "https://example.org/a.git" empty_graph in
  let comp := {| c_name := "vuln"; c_version := "CVE-2023-1234"; c_type := "library";
                 c_vulnerabilities := [] |} in
  typed G = true ∧
  kind_of_id (component_node comp) = "vulnerability" ∧
  (∃ l, query_reachable_vulnerabilities G 1 "" = inr l ∧ appears "CVE-2023-1234" l) ∧
  ∃ l', query_reachable_vulnerabilities
          (ingest [comp] 2 "https://example.org/b.git" G) 1 "" = inr l' ∧
        ¬ appears "CVE-2023-1234" l'.
Proof.
  intros G comp. split_and!; [by vm_compute..| |].
  - destruct (query_reachable_vulnerabilities G 1 "") as [e|l] eqn:Hl; [by vm_compute in Hl|].
    exists l. split; [done|]. vm_compute in Hl. injection Hl as <-.
    eexists. split; [apply list_elem_of_here|reflexivity].
  - destruct (query_reachable_vulnerabilities _ 1 "") as [e|l'] eqn:Hl; [by vm_compute in Hl|].
    exists l'. split; [done|]. vm_compute in Hl. injection Hl as <-.
    intros (e & Hin & He).
    repeat (apply elem_of_cons in Hin as [->|Hin]; [discriminate He|]).
    by apply elem_of_nil in Hin.
Qed.

(** ** The search for the latest safe version: versions of equal precedence *)

(** X13: when the registry lists several versions of the highest
    precedence (versions that differ in build metadata only), the
    search returns the one that is listed last: every version listed
    after the returned one that is higher than the current version is
    strictly lower than the returned one. *)
Theorem latest_in_position L status_code versions current m :
  latest_in L (Response status_code (Some versions)) current = Some m →
  ∃ v1 v2, versions = v1 ++ m :: v2 ∧
    ∀ v, v ∈ v2 → newer L v current → newer L m v.
Proof.
  intros (_ & versions' & v1 & v2 & [= _ <-] & -> & Hv2)%latest_in_listed.
  by exists v1, v2.
Qed.

Lemma latest_in_position_witness :
  let versions := ["2.0.0+linux"; "1.9.0"; "2.0.0+windows"; "1.8.0"] in
  latest_in semver.strict (Response 200 (Some versions)) "1.0.0" = Some "2.0.0+windows" ∧
  ∃ v1 v2, versions = v1 ++ "2.0.0+windows" :: v2 ∧
    ∀ v, v ∈ v2 → newer semver.strict v "1.0.0" → newer semver.strict "2.0.0+windows" v.
Proof.
  intros versions. split; [reflexivity|].
  apply (latest_in_position semver.strict 200 versions "1.0.0" "2.0.0+windows"). reflexivity.
Defined.

(** ** The upgrade resolver never proposes a downgrade *)

Lemma _find_latest_safe_version_newer L env component current m :
  _find_latest_safe_version L env component current = Some m →
  newer L m current ∧
  ∃ versions, (pypi env component = Response 200 (Some versions) ∨
               npm env component = Response 200 (Some versions)) ∧
              m ∈ versions.
Proof.
  unfold _find_latest_safe_version.
  destruct (latest_in L (pypi env component) current) as [m'|] eqn:H1.
  - intros [= <-].
    apply latest_in_listed in H1 as (Hnewer & versions & v1 & v2 & Hresp & -> & _).
    split; [done|]. exists (v1 ++ m' :: v2). split; [by left|]. set_solver.
  - intros (Hnewer & versions & v1 & v2 & Hresp & -> & _)%latest_in_listed.
    split; [done|]. exists (v1 ++ m :: v2). split; [by right|]. set_solver.
Qed.

(** X12: whenever the check answers that an upgrade is feasible, the
    answer names the component and the current version of the row, and
    a target version that is strictly higher than the current one in
    semantic-version precedence: the fixed version of the row with
    confidence 0.9, or, when the row has none, with confidence 0.7 a
    version that PyPI or npm lists for the component in an answer with
    status 200. *)
Theorem check_upgrade_feasibility_feasible L env vulnerabilities vuln_id
    component from_version to_version confidence :
  check_upgrade_feasibility L env vulnerabilities vuln_id =
    Feasible component from_version to_version confidence →
  ∃ r, vulnerabilities !! vuln_id = Some r ∧
       component = component_name r ∧ from_version = current_version r ∧
       newer L to_version from_version ∧
       ((fixed_version r = Some to_version ∧ confidence = 0.9%Q) ∨
        (truthy (fixed_version r) = false ∧ confidence = 0.7%Q ∧
         ∃ versions, (pypi env component = Response 200 (Some versions) ∨
                      npm env component = Response 200 (Some versions)) ∧
                     to_version ∈ versions)).
Proof.
  unfold check_upgrade_feasibility.
  destruct (vulnerabilities !! vuln_id) as [r|]; [|done].
  intros Hcheck. exists r. split; [done|]. revert Hcheck. unfold check_record.
  destruct (truthy (fixed_version r)) eqn:Hfixed.
  - destruct (fixed_version r) as [fv|]; [|done]. simpl.
    destruct (semver.compare L fv (current_version r)) as [e|c] eqn:Hc; [done|].
    case_bool_decide as Hpos; [|done]. intros [= <- <- <- <-].
    split_and!; [done..| |by left].
    by apply (compare_newer _ _ _ _ Hc).
  - destruct (_find_latest_safe_version _ _ _ _) as [m|] eqn:Hm; [|done].
    destruct (truthy (Some m)); [|done]. simpl. intros [= <- <- <- <-].
    apply _find_latest_safe_version_newer in Hm as [Hnewer Hlisted].
    split_and!; [done..|]. by right.
Qed.

Lemma check_upgrade_feasibility_feasible_witness :
  let r := {| component_name := "requests"; current_version := "1.5.0";
              fixed_version := None |} in
  let env := {| pypi := λ _, Response 200 (Some ["1.4.0"; "2.31.0"; "2.0.0"]);
                npm := λ _, RequestException |} in
  ∃ r', ({[ 7 := r ]} : gmap Z vulnerability_record) !! 7 = Some r' ∧
        "requests" = component_name r' ∧ "1.5.0" = current_version r' ∧
        newer semver.strict "2.31.0" "1.5.0" ∧
        ((fixed_version r' = Some "2.31.0" ∧ 0.7%Q = 0.9%Q) ∨
         (truthy (fixed_version r') = false ∧ 0.7%Q = 0.7%Q ∧
          ∃ versions, (pypi env "requests" = Response 200 (Some versions) ∨
                       npm env "requests" = Response 200 (Some versions)) ∧
                      "2.31.0" ∈ versions)).
Proof.
  intros r env.
  apply (check_upgrade_feasibility_feasible semver.strict env {[ 7 := r ]} 7). reflexivity.
Defined.

(** ** _upgrade_pip: rewriting requirements.txt *)

Lemma translate_newlines_id s : occurs CR s = false → translate_newlines false s = s.
Proof.
  induction s as [|c s IH]; simpl; [done|].
  intros [Hc Hs]%orb_false_iff. rewrite Hc. simpl. rewrite andb_false_r. by rewrite IH.
Qed.

Lemma translate_newlines_no_CR b s : occurs CR (translate_newlines b s) = false.
Proof.
  revert b. induction s as [|c s IH]; intros b; simpl; [done|].
  case_bool_decide as Hc; simpl; [by rewrite IH|].
  destruct (bool_decide (c = LF) && b); [done|]. simpl.
  by rewrite bool_decide_eq_false_2, IH.
Qed.

Lemma written_readlines s : written (readlines s) = s.
Proof.
  induction s as [|c s IH]; simpl; [done|].
  case_bool_decide; simpl; [by rewrite IH|].
  destruct (readlines s) as [|line lines]; simpl in *; by rewrite <- IH.
Qed.

Lemma string_append_nil s : EmptyString +:+ s = s.
Proof. reflexivity. Qed.

Lemma string_append_cons c s1 s2 : String c s1 +:+ s2 = String c (s1 +:+ s2).
Proof. reflexivity. Qed.

Lemma string_append_assoc s1 s2 s3 : (s1 +:+ s2) +:+ s3 = s1 +:+ s2 +:+ s3.
Proof. induction s1 as [|c s1 IH]; [done|]. by rewrite !string_append_cons, IH. Qed.

Lemma occurs_app c s1 s2 : occurs c (s1 +:+ s2) = occurs c s1 || occurs c s2.
Proof.
  induction s1 as [|c' s1 IH]; [done|].
  rewrite string_append_cons. simpl. by rewrite IH, orb_assoc.
Qed.

Lemma occurs_written c pieces :
  occurs c (written pieces) = false ↔ Forall (λ p, occurs c p = false) pieces.
Proof.
  induction pieces as [|p pieces IH]; simpl; [by split|].
  rewrite occurs_app, orb_false_iff, Forall_cons, IH. done.
Qed.

Lemma readlines_open_ended line : open_ended line → readlines line = [line].
Proof.
  intros [Hne Hlf]. induction line as [|c s IH]; [done|]. simpl in *.
  apply orb_false_iff in Hlf as [Hc Hs]. rewrite Hc.
  destruct s as [|c' s']; [done|]. by rewrite IH.
Qed.

Lemma readlines_ended line rest :
  ended line → readlines (line +:+ rest) = line :: readlines rest.
Proof.
  intros (body & -> & Hlf). induction body as [|c s IH].
  - by rewrite string_append_nil, string_append_cons, string_append_nil.
  - simpl in Hlf. apply orb_false_iff in Hlf as [Hc Hs].
    rewrite !string_append_cons. simpl. rewrite Hc. by rewrite IH.
Qed.

Lemma string_app_empty_r s : s +:+ EmptyString = s.
Proof. induction s as [|c s IH]; [done|]. by rewrite string_append_cons, IH. Qed.

Lemma readlines_written lines : lines_ok lines → readlines (written lines) = lines.
Proof.
  induction lines as [|line lines IH]; [done|].
  destruct lines as [|line' lines].
  - simpl. rewrite string_app_empty_r. intros [Hl|Hl].
    + rewrite <- (string_app_empty_r line) at 1. by rewrite readlines_ended.
    + by apply readlines_open_ended.
  - intros [Hl Hrest]. change (written (line :: line' :: lines))
      with (line +:+ written (line' :: lines)).
    by rewrite readlines_ended, IH.
Qed.

Lemma readlines_ok s : lines_ok (readlines s).
Proof.
  induction s as [|c s IH]; simpl; [done|].
  case_bool_decide as Hc.
  - subst c. assert (ended (String LF EmptyString)) as He by (by exists EmptyString).
    destruct (readlines s); simpl; auto.
  - destruct (readlines s) as [|line lines]; simpl.
    + right. split; [done|]. simpl. by rewrite bool_decide_eq_false_2.
    + assert (ended line → ended (String c line)) as He.
      { intros (body & -> & Hb). exists (String c body). split; [done|]. simpl.
        by rewrite bool_decide_eq_false_2. }
      assert (open_ended line → open_ended (String c line)) as Ho.
      { intros [_ Hb]. split; [done|]. simpl. by rewrite bool_decide_eq_false_2. }
      destruct lines; simpl in *; [tauto|]. destruct IH. auto.
Qed.

Lemma requirement_ended component target_version :
  occurs LF component = false → occurs LF target_version = false →
  ended (requirement component target_version).
Proof.
  intros Hc Ht. exists (component +:+ "==" +:+ target_version). split.
  - unfold requirement. by rewrite !string_append_assoc.
  - by rewrite !occurs_app, Hc, Ht.
Qed.

Lemma lines_ok_upgrade component target_version lines :
  occurs LF component = false → occurs LF target_version = false →
  lines_ok lines → lines_ok (upgrade_line component target_version <$> lines).
Proof.
  intros Hc Ht. pose proof (requirement_ended _ _ Hc Ht) as Hreq.
  induction lines as [|line lines IH]; [done|].
  destruct lines as [|line' lines].
  - simpl. unfold upgrade_line. destruct (String.prefix component line); auto.
  - intros [Hl Hrest]. specialize (IH Hrest).
    change (ended (upgrade_line component target_version line) ∧
            lines_ok (upgrade_line component target_version <$> line' :: lines)).
    split; [|done]. unfold upgrade_line. by destruct (String.prefix component line).
Qed.

Lemma string_prefix_app s1 s2 : String.prefix s1 (s1 +:+ s2) = true.
Proof.
  induction s1 as [|c s1 IH]; [by destruct s2|].
  rewrite string_append_cons. simpl. destruct (ascii_dec c c); [done|congruence].
Qed.

Lemma upgrade_line_twice component target_version line :
  upgrade_line component target_version (upgrade_line component target_version line) =
  upgrade_line component target_version line.
Proof.
  unfold upgrade_line at 2 3. destruct (String.prefix component line) eqn:Hp.
  - unfold upgrade_line, requirement. by rewrite string_prefix_app.
  - unfold upgrade_line. by rewrite Hp.
Qed.

(** The lines of the file after the rewriting, for a component and a
    version without line ends. *)
Lemma readlines_upgraded decodes component target_version content :
  one_line component → one_line target_version → decodes content = true →
  readlines (_upgrade_pip_requirements decodes component target_version content) =
    upgrade_line component target_version <$> readlines (translate_newlines false content).
Proof.
  intros [_ Hc] [_ Ht] Hd. unfold _upgrade_pip_requirements. rewrite Hd.
  apply readlines_written, lines_ok_upgrade; [done..|apply readlines_ok].
Qed.

Lemma occurs_lines c s line : occurs c s = false → line ∈ readlines s → occurs c line = false.
Proof.
  intros Hs Hline. rewrite <- (written_readlines s) in Hs.
  rewrite occurs_written, Forall_forall in Hs. by apply Hs.
Qed.

Lemma upgraded_no_CR decodes component target_version content :
  one_line component → one_line target_version → decodes content = true →
  occurs CR (_upgrade_pip_requirements decodes component target_version content) = false.
Proof.
  intros [Hc _] [Ht _] Hd. unfold _upgrade_pip_requirements. rewrite Hd.
  apply occurs_written, Forall_forall. intros p (line & -> & Hline)%list_elem_of_fmap.
  unfold upgrade_line. destruct (String.prefix component line).
  - unfold requirement. by rewrite !occurs_app, Hc, Ht.
  - eapply occurs_lines; [|done]. apply translate_newlines_no_CR.
Qed.

(** X14: a requirements file in which no line starts with the name of the
    component, and that has no "\r", is written back as it was. *)
Theorem _upgrade_pip_requirements_unchanged decodes component target_version content :
  occurs CR content = false →
  (∀ line, line ∈ readlines content → String.prefix component line = false) →
  _upgrade_pip_requirements decodes component target_version content = content.
Proof.
  intros Hcr Hlines. unfold _upgrade_pip_requirements.
  destruct (decodes content); [|done].
  rewrite (translate_newlines_id _ Hcr).
  rewrite <- (written_readlines content) at 2. f_equal.
  rewrite <- (list_fmap_id (readlines content)) at 2.
  apply list_fmap_ext. intros i line Hline%list_elem_of_lookup_2. simpl.
  unfold upgrade_line. by rewrite Hlines.
Qed.

Lemma _upgrade_pip_requirements_unchanged_witness :
  let content := "flask==2.3.0" +:+ String LF ("jinja2==3.1.2" +:+ String LF "") in
  _upgrade_pip_requirements us_ascii "requests" "2.31.0" content = content.
Proof.
  intros content. apply _upgrade_pip_requirements_unchanged; [reflexivity|].
  intros line Hline. vm_compute in Hline.
  apply elem_of_cons in Hline as [->|Hline]; [reflexivity|].
  apply list_elem_of_singleton in Hline as ->. reflexivity.
Defined.



(** X16: rewriting the file a second time for the same component and
    version changes nothing. *)
Theorem _upgrade_pip_requirements_idempotent decodes component target_version content :
  one_line component → one_line target_version →
  _upgrade_pip_requirements decodes component target_version
    (_upgrade_pip_requirements decodes component target_version content) =
  _upgrade_pip_requirements decodes component target_version content.
Proof.
  intros Hc Ht. destruct (decodes content) eqn:Hd.
  - unfold _upgrade_pip_requirements at 1.
    destruct (decodes (_upgrade_pip_requirements _ _ _ _)); [|done].
    rewrite translate_newlines_id by by apply upgraded_no_CR.
    rewrite readlines_upgraded by done.
    rewrite <- list_fmap_compose. unfold _upgrade_pip_requirements. rewrite Hd. f_equal.
    apply list_fmap_ext. intros j l _. simpl. apply upgrade_line_twice.
  - unfold _upgrade_pip_requirements. by rewrite !Hd.
Qed.

Lemma _upgrade_pip_requirements_idempotent_witness :
  let content := "requests==2.28.1" +:+ String CR (String LF "flask==2.3.0") in
  _upgrade_pip_requirements us_ascii "requests" "2.31.0"
    (_upgrade_pip_requirements us_ascii "requests" "2.31.0" content) =
  _upgrade_pip_requirements us_ascii "requests" "2.31.0" content.
Proof.
  intros content.
  apply (_upgrade_pip_requirements_idempotent us_ascii "requests" "2.31.0" content);
    split; reflexivity.
Defined.

(** ** create_upgrade_pr: the owner and the repository of a URL *)

Lemma rstrip_last chars s c : last (rstrip chars s) = Some c → c ∉ chars.
Proof.
  induction s as [|c' s IH]; simpl; [done|].
  destruct (rstrip chars s) as [|c'' rest].
  - case_bool_decide; [done|]. by intros [= <-].
  - intros Hlast. apply IH. by rewrite <- Hlast.
Qed.

Lemma rstrip_app chars l1 l2 :
  rstrip chars (l1 ++ l2) =
    if rstrip chars l2 is [] then rstrip chars l1 else l1 ++ rstrip chars l2.
Proof.
  induction l1 as [|c l1 IH]; simpl.
  - by destruct (rstrip chars l2).
  - rewrite IH. destruct (rstrip chars l2) as [|c' rest]; [done|].
    by destruct l1.
Qed.

Lemma rstrip_snoc chars l c : c ∉ chars → rstrip chars (l ++ [c]) = l ++ [c].
Proof.
  intros Hc. rewrite rstrip_app. simpl. by rewrite bool_decide_eq_false_2.
Qed.

Lemma rstrip_all chars l : Forall (.∈ chars) l → rstrip chars l = [].
Proof.
  induction 1 as [|c l Hc Hl IH]; simpl; [done|].
  by rewrite IH, bool_decide_eq_true_2.
Qed.

Lemma split_ne sep l : semver.split sep l ≠ [].
Proof.
  destruct l as [|c l]; simpl; [done|].
  case_bool_decide; [done|]. by destruct (semver.split sep l).
Qed.

Lemma split_plain sep l : sep ∉ l → semver.split sep l = [l].
Proof.
  induction l as [|c l IH]; simpl; [done|].
  intros [Hc Hl]%not_elem_of_cons. rewrite bool_decide_eq_false_2 by done.
  by rewrite IH.
Qed.

Lemma split_app sep l1 l2 :
  semver.split sep (l1 ++ sep :: l2) = semver.split sep l1 ++ semver.split sep l2.
Proof.
  induction l1 as [|c l1 IH]; simpl.
  - by rewrite bool_decide_eq_true_2.
  - case_bool_decide; [by rewrite IH|].
    rewrite IH. pose proof (split_ne sep l1).
    by destruct (semver.split sep l1).
Qed.

Lemma split_empty_part sep l : semver.split sep l = [[]] → l = [].
Proof.
  destruct l as [|c l]; simpl; [done|].
  pose proof (split_ne sep l). case_bool_decide.
  - by intros [=].
  - by destruct (semver.split sep l).
Qed.

(** The last part of a split is the end of the string. *)
Lemma split_last sep l part c :
  last (semver.split sep l) = Some part → last part = Some c → last l = Some c.
Proof.
  revert part. induction l as [|c' l IH]; intros part; simpl.
  - by intros [= <-].
  - pose proof (split_ne sep l) as Hne. pose proof (split_empty_part sep l) as Hempty.
    case_bool_decide.
    + destruct (semver.split sep l) as [|p ps] eqn:Hs; [done|].
      intros Hlast Hc. specialize (IH part Hlast Hc).
      destruct l; [done|]. done.
    + destruct (semver.split sep l) as [|p ps] eqn:Hs; [done|].
      destruct ps as [|p' ps].
      * simpl. intros [= <-] Hc. simpl in IH.
        destruct p as [|c0 p]; [by rewrite Hempty|].
        specialize (IH (c0 :: p) eq_refl Hc). by destruct l.
      * intros Hlast Hc. specialize (IH part Hlast Hc). by destruct l.
Qed.

Lemma list_ascii_of_string_app s1 s2 :
  list_ascii_of_string (s1 +:+ s2) = list_ascii_of_string s1 ++ list_ascii_of_string s2.
Proof.
  induction s1 as [|c s1 IH]; [done|].
  change (String c s1 +:+ s2) with (String c (s1 +:+ s2)). simpl. by rewrite IH.
Qed.

Lemma owner_repo_parts repo_url owner repo :
  owner_repo repo_url = Some (owner, repo) →
  ∃ parts,
    semver.split "/" (rstrip (list_ascii_of_string ".git") (list_ascii_of_string repo_url)) =
      parts ++ [list_ascii_of_string owner; list_ascii_of_string repo].
Proof.
  unfold owner_repo.
  destruct (reverse _) as [|r [|o ps]] eqn:Hrev; [done..|]. intros [= <- <-].
  exists (reverse ps). rewrite !list_ascii_of_string_of_list_ascii.
  apply (inj reverse). rewrite Hrev, reverse_app. simpl. by rewrite reverse_involutive.
Qed.

(** X17: the name of the repository that the function works with never
    ends with one of the characters ".", "g", "i" and "t":
    [rstrip('.git')] removes every such character from the end of the
    URL, not the suffix ".git".  So for a repository whose name ends
    with one of them the requests go to another name. *)
Theorem owner_repo_stripped repo_url owner repo c :
  owner_repo repo_url = Some (owner, repo) →
  last (list_ascii_of_string repo) = Some c →
  c ∉ list_ascii_of_string ".git".
Proof.
  intros (parts & Hparts)%owner_repo_parts Hc.
  apply (rstrip_last _ (list_ascii_of_string repo_url)).
  apply (split_last "/" _ (list_ascii_of_string repo)); [|done].
  rewrite Hparts. by rewrite !last_app.
Qed.

Lemma owner_repo_stripped_witness :
  owner_repo "https://github.com/pallets/werkzeug.git" = Some ("pallets", "werkzeu") ∧
  "u"%char ∉ list_ascii_of_string ".git".
Proof.
  split; [reflexivity|].
  apply (owner_repo_stripped "https://github.com/pallets/werkzeug.git" "pallets" "werkzeu");
    reflexivity.
Defined.

(** X18: for a URL that ends with an owner and a repository name, with or
    without ".git" after it, the function finds the two, provided the
    name does not end with one of the characters ".", "g", "i" and
    "t". *)
Theorem owner_repo_found base owner repo suffix c :
  "/"%char ∉ list_ascii_of_string owner →
  "/"%char ∉ list_ascii_of_string repo →
  last (list_ascii_of_string repo) = Some c →
  c ∉ list_ascii_of_string ".git" →
  suffix = "" ∨ suffix = ".git" →
  owner_repo (base +:+ "/" +:+ owner +:+ "/" +:+ repo +:+ suffix) = Some (owner, repo).
Proof.
  intros Howner Hrepo Hlast Hc Hsuffix. unfold owner_repo.
  rewrite !list_ascii_of_string_app.
  set (chars := list_ascii_of_string ".git").
  assert (rstrip chars (list_ascii_of_string suffix) = []) as Hs
    by (by destruct Hsuffix as [-> | ->]).
  apply last_Some in Hlast as [r Hr].
  change (list_ascii_of_string "/") with ["/"%char].
  rewrite !(assoc_L (++) _ _ (list_ascii_of_string suffix)).
  rewrite rstrip_app, Hs.
  rewrite !(assoc_L (++) _ _ (list_ascii_of_string repo)).
  rewrite Hr at 1. rewrite (assoc_L (++) _ r [c]), rstrip_snoc by done.
  rewrite <- (assoc_L (++) _ r [c]), <- Hr.
  rewrite <- !(assoc_L (++)). simpl.
  rewrite !split_app, (split_plain _ _ Howner), (split_plain _ _ Hrepo).
  rewrite !reverse_app. simpl.
  by rewrite !string_of_list_ascii_of_string.
Qed.

Lemma owner_repo_found_witness :
  owner_repo "https://github.com/psf/requests.git" = Some ("psf", "requests").
Proof.
  apply (owner_repo_found "https://github.com" "psf" "requests" ".git" "s");
    [apply (bool_decide_unpack _); by vm_compute..|reflexivity|
     apply (bool_decide_unpack _); by vm_compute|by right].
Defined.

(** X19: a URL without "/" has one part, and the function raises
    [IndexError]; so does a URL that [rstrip] leaves without one. *)
Theorem owner_repo_no_slash repo_url :
  "/"%char ∉ list_ascii_of_string repo_url → owner_repo repo_url = None.
Proof.
  intros Hno. unfold owner_repo.
  rewrite split_plain; [done|].
  intros Hin. apply Hno. clear Hno. revert Hin.
  generalize (list_ascii_of_string ".git") as chars.
  induction (list_ascii_of_string repo_url) as [|c s IH]; intros chars; simpl; [done|].
  destruct (rstrip chars s) as [|c' rest] eqn:Hs.
  - case_bool_decide; [by intros ?%elem_of_nil|]. set_solver.
  - rewrite !elem_of_cons. intros [->|Hin]; [by left|]. right. apply (IH chars).
    rewrite Hs. by apply elem_of_cons.
Qed.

Lemma owner_repo_no_slash_witness : owner_repo "werkzeug.git" = None.
Proof.
  apply (owner_repo_no_slash "werkzeug.git"). apply (bool_decide_unpack _). by vm_compute.
Defined.

(** ** _analyze_static: the confidence and the patterns *)

(** X20: the confidence that the static analysis reports lies between
    0.3 and 0.9, and is at least 0.6 when it reports the vulnerability
    as reachable; a code context without any of the six function names
    gives 0.3 or 0.6. *)
Theorem _analyze_static_confidence component vuln_id code_context :
  let r := _analyze_static component vuln_id code_context in
  PrimFloat.leb 0.3%float (confidence r) = true ∧
  PrimFloat.leb (confidence r) 0.9%float = true ∧
  (is_reachable r = true → PrimFloat.leb 0.6%float (confidence r) = true) ∧
  (Forall (λ func, contains code_context func = false) dangerous_functions →
   confidence r = if is_reachable r then 0.6%float else 0.3%float).
Proof.
  unfold _analyze_static. cbv zeta. cbn [is_reachable confidence].
  generalize (existsb (contains code_context) (import_patterns component)) as reachable.
  intros reachable. unfold dangerous_functions. cbn [foldl]. unfold dangerous_call.
  split_and!.
  - destruct reachable, (contains code_context "eval"), (contains code_context "exec"),
      (contains code_context "os.system"), (contains code_context "subprocess.call"),
      (contains code_context "pickle.loads"), (contains code_context "yaml.load");
      vm_compute; reflexivity.
  - destruct reachable, (contains code_context "eval"), (contains code_context "exec"),
      (contains code_context "os.system"), (contains code_context "subprocess.call"),
      (contains code_context "pickle.loads"), (contains code_context "yaml.load");
      vm_compute; reflexivity.
  - intros ->.
    destruct (contains code_context "eval"), (contains code_context "exec"),
      (contains code_context "os.system"), (contains code_context "subprocess.call"),
      (contains code_context "pickle.loads"), (contains code_context "yaml.load");
      vm_compute; reflexivity.
  - intros Hnone. repeat (apply Forall_cons in Hnone as [-> Hnone]). done.
Qed.

Lemma string_prefix_spec p s : String.prefix p s = true ↔ ∃ b, s = p +:+ b.
Proof.
  revert s. induction p as [|c p IH]; intros s; simpl.
  - split; [by exists s|by destruct s].
  - destruct s as [|c' s]; [split; [done|by intros [b ?]]|]. simpl.
    destruct (ascii_dec c c') as [->|Hne].
    + rewrite IH. split; intros [b Hb]; exists b.
      * by rewrite string_append_cons, Hb.
      * rewrite string_append_cons in Hb. by injection Hb.
    + split; [done|]. intros [b Hb]. rewrite string_append_cons in Hb. by injection Hb.
Qed.

Lemma contains_cons c s p :
  contains (String c s) p = String.prefix p (String c s) || contains s p.
Proof. reflexivity. Qed.

Lemma contains_spec s p : contains s p = true ↔ ∃ a b, s = a +:+ p +:+ b.
Proof.
  induction s as [|c s IH].
  - destruct p as [|c p]; simpl.
    + split; [|done]. intros _. by exists EmptyString, EmptyString.
    + split; [done|]. intros (a & b & Hab). by destruct a.
  - rewrite contains_cons, orb_true_iff, string_prefix_spec, IH. split.
    + intros [[b Hb]|(a & b & Hab)].
      * by exists EmptyString, b.
      * exists (String c a), b. by rewrite string_append_cons, Hab.
    + intros (a & b & Hab). destruct a as [|c' a].
      * left. by exists b.
      * right. rewrite string_append_cons in Hab. injection Hab as _ Hab. by exists a, b.
Qed.

(** A character of a pattern that occurs in a text occurs in the
    text. *)
Lemma contains_occurs s p c : contains s p = true → occurs c p = true → occurs c s = true.
Proof.
  intros (a & b & ->)%contains_spec Hc.
  by rewrite !occurs_app, Hc, orb_true_r.
Qed.

Lemma contains_middle s a p b : contains s (a +:+ p +:+ b) = true → contains s p = true.
Proof.
  intros (a' & b' & ->)%contains_spec. apply contains_spec.
  exists (a' +:+ a), (b +:+ b'). by rewrite !string_append_assoc.
Qed.

(** X21: the static analysis recognises the two forms of a Python
    import only.  Its patterns for a JavaScript [require] and for a
    Maven dependency are tested as substrings, with the backslashes
    and the ".*" that they hold: on a code context without a backslash
    and without ".*" they never match, and the vulnerability is
    reported as reachable exactly when "import component" or "from
    component import" occurs in the context. *)
Theorem _analyze_static_imports component vuln_id code_context :
  occurs "\"%char code_context = false →
  contains code_context ".*" = false →
  is_reachable (_analyze_static component vuln_id code_context) =
    contains code_context ("import " +:+ component) ||
    contains code_context ("from " +:+ component +:+ " import").
Proof.
  intros Hbackslash Hstar. simpl.
  assert (contains code_context ("require\('" +:+ component +:+ "'\)") = false) as ->.
  { apply not_true_is_false. intros Hc.
    apply (contains_occurs _ _ "\"%char) in Hc; [congruence|].
    by rewrite occurs_app. }
  assert (contains code_context ("<dependency>.*" +:+ component +:+ ".*</dependency>") = false)
    as ->.
  { apply not_true_is_false. intros Hc.
    change ("<dependency>.*" +:+ component +:+ ".*</dependency>")
      with ("<dependency>" +:+ ".*" +:+ component +:+ ".*</dependency>") in Hc.
    apply contains_middle in Hc. congruence. }
  by rewrite !orb_false_r.
Qed.

Lemma _analyze_static_imports_witness :
  is_reachable (_analyze_static "lodash" "CVE-2021-23337"
                  "const _ = require('lodash'); _.template(input);") = false.
Proof.
  rewrite (_analyze_static_imports "lodash" "CVE-2021-23337"
             "const _ = require('lodash'); _.template(input);"); reflexivity.
Defined.
